(** * Keyword extraction and tag refinement of the Obsidian tag generator

    A shallow embedding of [keyword-extractor.ts] and [ai-service.ts].

    JavaScript strings are sequences of UTF-16 code units; they are modelled
    as lists of code units ([N]).  Every character the source names (Hangul
    syllables U+AC00..U+D7A3, the marker U+321C, ASCII) lies in the Basic
    Multilingual Plane, so [length] is the source's [.length].

    Regular expressions are embedded as syntax trees and run by a
    backtracking matcher that lists the candidate ends of a match in the
    priority order of ECMAScript (first alternative first, greedy
    quantifiers): the head of the list is the match the engine reports. *)

From Stdlib Require Import Ascii String.
From Stdlib Require Import List Arith NArith ZArith Bool Lia.
From Stdlib Require Import Permutation.
Import ListNotations.

Set Implicit Arguments.

(* ================================================================= *)
(** ** Strings *)

Module Str.

(** A code unit and a string. *)
Definition char := N.
Definition str := list char.

Definition eqb (a b : str) : bool :=
  if list_eq_dec N.eq_dec a b then true else false.

(** [Set.prototype.has] on a set of strings. *)
Definition has (set : list str) (x : str) : bool := existsb (eqb x) set.

(** Source literals are written in UTF-8; [utf16] decodes them to code
    units (a four-byte sequence gives a surrogate pair). *)
Fixpoint utf16 (bytes : list N) : str :=
  match bytes with
  | [] => []
  | b0 :: t0 =>
    if (b0 <? 128)%N then b0 :: utf16 t0
    else if (b0 <? 224)%N then
      match t0 with
      | b1 :: t1 => ((b0 mod 32) * 64 + b1 mod 64)%N :: utf16 t1
      | [] => []
      end
    else if (b0 <? 240)%N then
      match t0 with
      | b1 :: b2 :: t2 =>
        ((b0 mod 16) * 4096 + (b1 mod 64) * 64 + b2 mod 64)%N :: utf16 t2
      | _ => []
      end
    else
      match t0 with
      | b1 :: b2 :: b3 :: t3 =>
        let cp := ((b0 mod 8) * 262144 + (b1 mod 64) * 4096
                   + (b2 mod 64) * 64 + b3 mod 64 - 65536)%N in
        (55296 + cp / 1024)%N :: (56320 + cp mod 1024)%N :: utf16 t3
      | _ => []
      end
  end.

Definition u (s : string) : str :=
  utf16 (map N_of_ascii (list_ascii_of_string s)).

(** Character classes: a union of inclusive code-unit ranges, or its
    complement. *)
Inductive cclass :=
| Ranges (l : list (N * N))
| NotRanges (l : list (N * N)).

Definition in_ranges (l : list (N * N)) (c : char) : bool :=
  existsb (fun r => (fst r <=? c)%N && (c <=? snd r)%N) l.

Arguments in_ranges : simpl never.

Definition in_class (C : cclass) (c : char) : bool :=
  match C with
  | Ranges l => in_ranges l c
  | NotRanges l => negb (in_ranges l c)
  end.

(** [A-Z], [a-z], [0-9], [가-힣] and the classes built from them. *)
Definition upper : list (N * N) := [(65, 90)]%N.
Definition lower : list (N * N) := [(97, 122)]%N.
Definition digit : list (N * N) := [(48, 57)]%N.
Definition hangul : list (N * N) := [(44032, 55203)]%N.
Definition letter : list (N * N) := lower ++ upper.
(** [\w] without the [i] and [u] flags: [A-Za-z0-9_]. *)
Definition word : list (N * N) := upper ++ lower ++ digit ++ [(95, 95)]%N.
(** [\s], which is also what [trim] removes: WhiteSpace and
    LineTerminator of ECMAScript. *)
Definition space : list (N * N) :=
  [(9, 13); (32, 32); (160, 160); (5760, 5760); (8192, 8202);
   (8232, 8233); (8239, 8239); (8287, 8287); (12288, 12288);
   (65279, 65279)]%N.

Definition is_hangul (c : char) : Prop := in_ranges hangul c = true.
Definition is_upper (c : char) : Prop := in_ranges upper c = true.
Definition not_space (c : char) : Prop := in_ranges space c = false.
Definition not_digit (c : char) : Prop := in_ranges digit c = false.

(** [String.prototype.trim]. *)
Fixpoint trimStart (s : str) : str :=
  match s with
  | c :: t => if in_ranges space c then trimStart t else s
  | [] => []
  end.

Definition trimEnd (s : str) : str := rev (trimStart (rev s)).

Definition trim (s : str) : str := trimEnd (trimStart s).

(** A string that does not begin with white space. *)
Definition clean_head (s : str) : Prop :=
  match s with
  | c :: _ => in_ranges space c = false
  | [] => True
  end.

(** [String.prototype.toLowerCase] on the letters [A-Z]; other code units
    are left as they are.  It is only applied to matches of the Latin
    pattern, which hold ASCII letters only. *)
Definition toLowerCase (s : str) : str :=
  map (fun c => if in_ranges upper c then (c + 32)%N else c) s.

(** [s.substring(b, e)] for [b <= e]. *)
Definition substring (s : str) (b e : nat) : str := firstn (e - b) (skipn b s).

(** Where [x] first occurs in [l] ([length l] when it does not). *)
Fixpoint index_of (x : str) (l : list str) : nat :=
  match l with
  | [] => 0
  | y :: t => if eqb x y then 0 else S (index_of x t)
  end.

(** [Array.prototype.join]. *)
Fixpoint join (sep : str) (l : list str) : str :=
  match l with
  | [] => []
  | [x] => x
  | x :: t => x ++ sep ++ join sep t
  end.

(** [String.prototype.startsWith]. *)
Fixpoint startsWith (s p : str) : bool :=
  match p, s with
  | [], _ => true
  | c :: p', d :: s' => N.eqb c d && startsWith s' p'
  | _ :: _, [] => false
  end.

End Str.

Import Str.

(* ================================================================= *)
(** ** Regular expressions *)

Module Regex.

Inductive regex :=
| Empty                                   (* the empty pattern *)
| Chr (C : cclass)                        (* one code unit of a class *)
| Seq (r1 r2 : regex)                     (* r1r2 *)
| Alt (r1 r2 : regex)                     (* r1|r2 *)
| Rep (lo : nat) (hi : option nat) (r : regex)  (* greedy r{lo,hi} *)
| Group (r : regex)                       (* the capturing group *)
| WordB                                   (* \b *)
| Eos.                                    (* $ *)

(** Derived forms. *)
Definition one (c : char) : regex := Chr (Ranges [(c, c)]).
Definition lit (s : str) : regex := fold_right (fun c r => Seq (one c) r) Empty s.
Fixpoint alts (l : list regex) : regex :=
  match l with
  | [] => Empty
  | [r] => r
  | r :: t => Alt r (alts t)
  end.
Definition star := Rep 0 None.
Definition plus := Rep 1 None.
Definition opt := Rep 0 (Some 1).
Definition atLeast (n : nat) := Rep n None.
Definition exactly (n : nat) := Rep n (Some n).
Definition between (n m : nat) := Rep n (Some m).
Fixpoint seqs (l : list regex) : regex :=
  match l with
  | [] => Empty
  | [r] => r
  | r :: t => Seq r (seqs t)
  end.

(** A matcher state: the position reached and the span of the capturing
    group, if it has taken part in the match. *)
Definition state := (nat * option (nat * nat))%type.

Definition is_word (s : str) (i : nat) : bool :=
  match nth_error s i with
  | Some c => in_ranges word c
  | None => false
  end.

(** [\b] holds between a word character and a non-word character (the
    outside of the input is not a word character). *)
Definition word_boundary (s : str) (i : nat) : bool :=
  xorb (match i with 0 => false | S j => is_word s j end) (is_word s i).

(** The greedy quantifier, over the matcher [m] of its body: more
    iterations are tried before stopping.  An iteration has to consume
    input, which every quantified body of the source does ([progress]
    below), so [room], one more than the input left, is never exhausted. *)
Fixpoint repeat_ends (m : state -> list state) (room : nat)
    (lo : nat) (hi : option nat) (st : state) : list state :=
  match room with
  | 0 => []
  | S room' =>
    (match hi with
     | Some 0 => []
     | _ =>
       flat_map (fun st' =>
                   if fst st <? fst st'
                   then repeat_ends m room' (pred lo) (option_map pred hi) st'
                   else [])
                (m st)
     end)
    ++ (if lo =? 0 then [st] else [])
  end.

(** All ends of a match of [r] in [s] from the state [st], in the order
    in which backtracking reaches them. *)
Fixpoint ends (s : str) (r : regex) (st : state) : list state :=
  match r with
  | Empty => [st]
  | Chr C =>
    match nth_error s (fst st) with
    | Some c => if in_class C c then [(S (fst st), snd st)] else []
    | None => []
    end
  | Seq r1 r2 => flat_map (ends s r2) (ends s r1 st)
  | Alt r1 r2 => ends s r1 st ++ ends s r2 st
  | Rep lo hi r1 =>
    repeat_ends (ends s r1) (S (length s - fst st)) lo hi st
  | Group r1 =>
    map (fun st' => (fst st', Some (fst st, fst st'))) (ends s r1 st)
  | WordB => if word_boundary s (fst st) then [st] else []
  | Eos => if fst st =? length s then [st] else []
  end.

(** A match: where it begins, where it ends, and the capture. *)
Record found := { m_begin : nat; m_end : nat; m_group : option (nat * nat) }.

(** The first match that begins at [i] or later: [n] start positions are
    tried, left to right. *)
Fixpoint exec_from (s : str) (r : regex) (n : nat) (i : nat) : option found :=
  match n with
  | 0 => None
  | S n' =>
    match ends s r (i, None) with
    | st :: _ => Some {| m_begin := i; m_end := fst st; m_group := snd st |}
    | [] => exec_from s r n' (S i)
    end
  end.

(** [RegExp.prototype.exec] with [lastIndex = i]. *)
Definition exec (s : str) (r : regex) (i : nat) : option found :=
  exec_from s r (S (length s) - i) i.

(** The successive matches of a global pattern, as [String.prototype.match]
    and a loop on [exec] enumerate them: the search resumes where the
    previous match ended (one further after an empty match).  Each round
    advances, so [S (length s)] rounds reach the end of the input. *)
Fixpoint matches_from (s : str) (r : regex) (rounds : nat) (i : nat) : list found :=
  match rounds with
  | 0 => []
  | S rounds' =>
    match exec s r i with
    | None => []
    | Some f =>
      f :: matches_from s r rounds'
             (if m_begin f <? m_end f then m_end f else S (m_end f))
    end
  end.

Definition matches (s : str) (r : regex) : list found :=
  matches_from s r (S (length s)) 0.

Definition matched (s : str) (f : found) : str :=
  substring s (m_begin f) (m_end f).

(** [s.match(r) || []] for a global [r]. *)
Definition matchAll (s : str) (r : regex) : list str :=
  map (matched s) (matches s r).

(** [match[1]] of each round of [while ((match = r.exec(s)) !== null)];
    the empty list stands for an unset capture, which no round of the
    source's pattern can leave. *)
Definition captures (s : str) (r : regex) : list str :=
  map (fun f => match m_group f with
                | Some (b, e) => substring s b e
                | None => []
                end) (matches s r).

(** [s.replace(r, '')] for a pattern without the [g] flag: the first match
    is removed. *)
Definition replace_first (s : str) (r : regex) : str :=
  match exec s r 0 with
  | Some f => firstn (m_begin f) s ++ skipn (m_end f) s
  | None => s
  end.

(** [s.replace(r, '')] for a global pattern: every match is removed. *)
Fixpoint remove_spans (s : str) (pos : nat) (l : list found) : str :=
  match l with
  | [] => skipn pos s
  | f :: t => substring s pos (m_begin f) ++ remove_spans s (m_end f) t
  end.

Definition replace_all (s : str) (r : regex) : str :=
  remove_spans s 0 (matches s r).

(** The least number of code units a match of [r] consumes. *)
Fixpoint min_len (r : regex) : nat :=
  match r with
  | Empty | WordB | Eos => 0
  | Chr _ => 1
  | Seq r1 r2 => min_len r1 + min_len r2
  | Alt r1 r2 => Nat.min (min_len r1) (min_len r2)
  | Rep lo _ r1 => lo * min_len r1
  | Group r1 => min_len r1
  end.

(** Every quantified body consumes input. *)
Fixpoint progress (r : regex) : bool :=
  match r with
  | Empty | WordB | Eos | Chr _ => true
  | Seq r1 r2 | Alt r1 r2 => progress r1 && progress r2
  | Rep _ _ r1 => (0 <? min_len r1) && progress r1
  | Group r1 => progress r1
  end.

(** The words a match of [r] can consume, read off the syntax (the
    assertions and the upper bounds of quantifiers are left out). *)
Fixpoint shape (r : regex) (w : str) : Prop :=
  match r with
  | Empty | WordB | Eos => w = []
  | Chr C => exists c, w = [c] /\ in_class C c = true
  | Seq r1 r2 => exists w1 w2, w = w1 ++ w2 /\ shape r1 w1 /\ shape r2 w2
  | Alt r1 r2 => shape r1 w \/ shape r2 w
  | Rep lo _ r1 =>
    exists ws, w = concat ws /\ Forall (shape r1) ws /\ lo <= length ws
  | Group r1 => shape r1 w
  end.

(** Every class of [r] lies within [P]; the classes a word of [r] can
    begin with, or end with, lie within [P]. *)
Fixpoint every (P : char -> Prop) (r : regex) : Prop :=
  match r with
  | Empty | WordB | Eos => True
  | Chr C => forall c, in_class C c = true -> P c
  | Seq r1 r2 | Alt r1 r2 => every P r1 /\ every P r2
  | Rep _ _ r1 | Group r1 => every P r1
  end.

Fixpoint first_in (P : char -> Prop) (r : regex) : Prop :=
  match r with
  | Empty | WordB | Eos => True
  | Chr C => forall c, in_class C c = true -> P c
  | Seq r1 r2 => first_in P r1 /\ (min_len r1 = 0 -> first_in P r2)
  | Alt r1 r2 => first_in P r1 /\ first_in P r2
  | Rep _ _ r1 | Group r1 => first_in P r1
  end.

Fixpoint last_in (P : char -> Prop) (r : regex) : Prop :=
  match r with
  | Empty | WordB | Eos => True
  | Chr C => forall c, in_class C c = true -> P c
  | Seq r1 r2 => last_in P r2 /\ (min_len r2 = 0 -> last_in P r1)
  | Alt r1 r2 => last_in P r1 /\ last_in P r2
  | Rep _ _ r1 | Group r1 => last_in P r1
  end.

(** The capture a match ends with is the one it began with, or a span
    inside the match. *)
Definition group_within (st st' : state) : Prop :=
  snd st' = snd st
  \/ exists gb ge, snd st' = Some (gb, ge)
                   /\ fst st <= gb /\ gb <= ge /\ ge <= fst st'.

End Regex.

Import Regex.

(* ================================================================= *)
(** ** Completions, objects and arrays of JavaScript *)

Module JS.

(** What a call completes with: a value, or a thrown value (for an
    [async] function: a resolved or a rejected promise).  A thrown value
    is an [Error] with its message, a [TypeError] or a [SyntaxError] of
    the engine, [null] or [undefined] (reading a property of these
    throws a [TypeError]), or any other value, whose [message] reads as
    [undefined]. *)
Inductive exception :=
| Error (message : str)
| TypeError
| SyntaxError
| Nullish
| OtherValue.

Inductive completion (A : Type) :=
| Normal (a : A)
| Throw (e : exception).
Arguments Normal {A} a.
Arguments Throw {A} e.

Definition bind {A B} (c : completion A) (k : A -> completion B) : completion B :=
  match c with
  | Normal a => k a
  | Throw e => Throw e
  end.

(** [try { c } catch (error) { h error }]. *)
Definition try_catch {A} (c : completion A) (h : exception -> completion A) : completion A :=
  match c with
  | Normal a => Normal a
  | Throw e => h e
  end.

(** The values a property of the frequency object is read as or written
    with: [undefined], a number, a function or object inherited from
    [Object.prototype], or the string that [+ 1] makes of such a function,
    object or string (the text of the function or object followed by 1s,
    never empty and never the text of a number). *)
Inductive value :=
| Undefined
| Number (n : nat)
| Builtin
| Text.

(** The property names of [Object.prototype] that an object literal [{}]
    inherits. *)
Definition Object_prototype : list str :=
  map u ["constructor"; "hasOwnProperty"; "isPrototypeOf";
         "propertyIsEnumerable"; "toLocaleString"; "toString"; "valueOf";
         "__defineGetter__"; "__defineSetter__"; "__lookupGetter__";
         "__lookupSetter__"; "__proto__"]%string.

(** An object created by [{}]: its own properties in creation order. *)
Definition object := list (str * value).

Fixpoint own (o : object) (k : str) : option value :=
  match o with
  | [] => None
  | (k', v) :: t => if eqb k k' then Some v else own t k
  end.

(** [o[k]]: an own property, else one inherited from [Object.prototype]
    (its methods, and the accessor [__proto__] that yields the prototype
    object), else [undefined]. *)
Definition get (o : object) (k : str) : value :=
  match own o k with
  | Some v => v
  | None => if has Object_prototype k then Builtin else Undefined
  end.

Fixpoint put (o : object) (k : str) (v : value) : object :=
  match o with
  | [] => [(k, v)]
  | (k', v') :: t => if eqb k k' then (k', v) :: t else (k', v') :: put t k v
  end.

(** [o[k] = v] for a number or a string [v]: an own property is updated
    in place or created last; the setter of [__proto__] ignores a value
    that is neither an object nor [null]. *)
Definition set (o : object) (k : str) (v : value) : object :=
  if eqb k (u "__proto__") then o else put o k v.

(** [(x || 0) + 1]: [undefined] and [0] are falsy; [+] adds numbers and
    concatenates as soon as one side is not a number. *)
Definition or_zero_plus_one (x : value) : value :=
  match x with
  | Undefined => Number 1
  | Number 0 => Number 1
  | Number n => Number (n + 1)
  | Builtin | Text => Text
  end.

(** An array index: the canonical decimal text of an integer below
    [2^32 - 1]. *)
Definition decimal (k : str) : option N :=
  fold_left (fun acc c =>
               match acc with
               | Some a => if in_ranges digit c then Some (a * 10 + (c - 48))%N else None
               | None => None
               end) k (Some 0%N).

Definition array_index (k : str) : option N :=
  match k with
  | [] => None
  | c :: t =>
    if N.eqb c 48 && negb (match t with [] => true | _ => false end) then None
    else match decimal k with
         | Some n => if (n <=? 4294967294)%N then Some n else None
         | None => None
         end
  end.

(** [Array.prototype.sort(comparefn)]: the sort is stable, and a
    comparison that yields [NaN] ([None]) counts as 0.  For a comparator
    that is a consistent ordering the result is the one the language
    defines; it is computed here by insertion from the right.  Where the
    comparator is not a consistent ordering (a [NaN] among three or more
    entries that also compare as numbers) the language leaves the order to
    the engine, and the order computed here is one stable choice that an
    engine need not make; where every comparison is 0 or [NaN], every
    stable sort keeps the entries as they are. *)
Section Sort.
Variable A : Type.
Variable comparefn : A -> A -> option Z.

Definition SortCompare (x y : A) : Z :=
  match comparefn x y with
  | Some v => v
  | None => 0%Z
  end.

Fixpoint insert (x : A) (l : list A) : list A :=
  match l with
  | [] => [x]
  | y :: t => if (SortCompare x y <=? 0)%Z then x :: y :: t else y :: insert x t
  end.

Fixpoint sort (l : list A) : list A :=
  match l with
  | [] => []
  | x :: t => insert x (sort t)
  end.

(** [l.slice(0, e)] for an integer [e]. *)
Definition slice0 (l : list A) (e : Z) : list A :=
  let len := Z.of_nat (length l) in
  firstn (Z.to_nat (if (e <? 0)%Z then Z.max (len + e) 0 else Z.min e len)) l.
End Sort.

(** [a] ranks before [b]: its weight is not smaller and, when the weights
    are equal, [a] comes first in the order [R]. *)
Definition ranked (A : Type) (w : A -> Z) (R : A -> A -> Prop) (a b : A) : Prop :=
  (w b <= w a)%Z /\ (w a = w b -> R a b).

(** [Object.entries(o)]: array-index keys in ascending numeric order, then
    the other keys in creation order. *)
Definition indexed (o : object) : list (N * (str * value)) :=
  flat_map (fun kv => match array_index (fst kv) with
                      | Some n => [(n, kv)]
                      | None => []
                      end) o.

Definition named (o : object) : list (str * value) :=
  filter (fun kv => match array_index (fst kv) with
                    | Some _ => false
                    | None => true
                    end) o.

Definition entries (o : object) : list (str * value) :=
  map snd (sort (fun a b => Some (Z.of_N (fst a) - Z.of_N (fst b))%Z) (indexed o))
  ++ named o.

(** [b - a] on property values: [NaN] unless both are numbers. *)
Definition minus (b a : value) : option Z :=
  match b, a with
  | Number m, Number n => Some (Z.of_nat m - Z.of_nat n)%Z
  | _, _ => None
  end.

End JS.

Import JS.

(* ================================================================= *)
(** ** [keyword-extractor.ts] *)

Module KeywordExtractor.

(** [maxTags] is an integer: the settings tab stores what [parseInt]
    returns, and only when it is positive. *)
Record t := {
  maxTags : Z;
  stopwordsKo : list str;
  stopwordsEn : list str;
  suffixPattern : regex
}.

Definition hangulOrLetter : cclass := Ranges (hangul ++ upper ++ lower).

(** The body of the constructor: the fields it assigns. *)
Definition init (maxTags : Z) : t :=
  {|
    maxTags := maxTags;
    stopwordsKo := map u
      ["이"; "그"; "저"; "것"; "수"; "등"; "및"; "의"; "가"; "을"; "를";
       "에"; "에서"; "으로"; "로"; "와"; "과"; "도"; "만"; "하다";
       "있다"; "없다"; "되다"; "이다"; "아니다"; "하고"; "한다";
       "이는"; "이하"; "따라"; "통해"; "위한"; "대한"; "관한";
       "때문"; "경우"; "이후"; "다른"; "여러"; "같은"; "다양한";
       "중요한"; "필요한"; "가능한"; "직접적인"; "장기적인";
       "배경지식"; "결론"; "맥락"; "관계"]%string;
    stopwordsEn := map u
      ["the"; "a"; "an"; "and"; "or"; "but"; "in"; "on"; "at";
       "to"; "for"; "of"; "with"; "by"; "from"; "is"; "was";
       "are"; "were"; "be"; "been"; "being"; "have"; "has"; "had"]%string;
    suffixPattern :=
      Seq (alts (map (fun s => lit (u s))
        ["은"; "는"; "이"; "가"; "을"; "를"; "의"; "에"; "에서"; "으로"; "로";
         "와"; "과"; "도"; "만"; "부터"; "까지"; "처럼"; "같이"; "보다";
         "라고"; "라는"; "이라"; "라며"; "에도"; "에는"; "으로는"; "에서는";
         "이나"; "나"; "든지"; "든가"; "이란"; "란"; "이면"; "면"; "하면";
         "다면"; "라면"; "해서"; "해도"; "하는"; "하고"; "하며"; "해야";
         "입니다"; "합니다"; "됩니다"; "습니다"; "ㅂ니다"; "니다"]%string))
        Eos
  |}.

(** [constructor(maxTags: number = 10)]: the body assigns the fields and
    has no [throw]. *)
Definition constructor (maxTags : option Z) : completion t :=
  let maxTags := match maxTags with Some n => n | None => 10%Z end in
  Normal (init maxTags).

(** [/[가-힣]{2,}/g] *)
Definition koPattern : regex := atLeast 2 (Chr (Ranges hangul)).

(** [/\b[A-Z][a-zA-Z]{2,}\b|\b[A-Z]{2,}\b/g] *)
Definition enPattern : regex :=
  Alt (seqs [WordB; Chr (Ranges upper); atLeast 2 (Chr (Ranges letter)); WordB])
      (seqs [WordB; atLeast 2 (Chr (Ranges upper)); WordB]).

(** [/(?:주식회사|㈜)\s*([가-힣A-Za-z]+(?:\s+[가-힣A-Za-z]+)?)/g] *)
Definition companyPattern : regex :=
  seqs [Alt (lit (u "주식회사")) (lit (u "㈜"));
        star (Chr (Ranges space));
        Group (Seq (plus (Chr hangulOrLetter))
                   (opt (Seq (plus (Chr (Ranges space)))
                             (plus (Chr hangulOrLetter)))))].

(** [/\b[A-Z][a-z]+(?:\s+[A-Z][a-z]+)+\b/g] *)
Definition capitalizedPattern : regex :=
  seqs [WordB; Chr (Ranges upper); plus (Chr (Ranges lower));
        plus (seqs [plus (Chr (Ranges space)); Chr (Ranges upper);
                    plus (Chr (Ranges lower))]);
        WordB].

(** [/\b[A-Z]{2,}\b/g] *)
Definition acronymPattern : regex :=
  seqs [WordB; atLeast 2 (Chr (Ranges upper)); WordB].

(** [/\d+(?:조|억|만)?원/g] *)
Definition moneyPattern : regex :=
  seqs [plus (Chr (Ranges digit));
        opt (alts [lit (u "조"); lit (u "억"); lit (u "만")]);
        lit (u "원")].

(** [/\d{4}년|\d{1,2}월\d{1,2}일/g] *)
Definition datePattern : regex :=
  Alt (seqs [exactly 4 (Chr (Ranges digit)); lit (u "년")])
      (seqs [between 1 2 (Chr (Ranges digit)); lit (u "월");
             between 1 2 (Chr (Ranges digit)); lit (u "일")]).

(** [/\d+(?:,\d{3})*(?:명|건|회|개)/g] *)
Definition largeNumPattern : regex :=
  seqs [plus (Chr (Ranges digit));
        star (Seq (lit (u ",")) (exactly 3 (Chr (Ranges digit))));
        alts [lit (u "명"); lit (u "건"); lit (u "회"); lit (u "개")]].

(** The loop of [cleanKoreanWord]:
    [while (cleaned.length !== prevLength && cleaned.length >= 2)].
    A pass never lengthens the word, and the loop ends as soon as a pass
    leaves the length as it was, so [S (length word)] rounds are never used
    up ([cleanLoop_rounds]). *)
Fixpoint cleanLoop (pattern : regex) (rounds : nat) (cleaned : str)
    (prevLength : nat) : str :=
  match rounds with
  | 0 => cleaned
  | S rounds' =>
    if negb (length cleaned =? prevLength) && (2 <=? length cleaned)
    then cleanLoop pattern rounds' (replace_first cleaned pattern) (length cleaned)
    else cleaned
  end.

Definition cleanKoreanWord (this : t) (word : str) : str :=
  cleanLoop (suffixPattern this) (S (length word)) word 0.

Definition extractGeneralKeywords (this : t) (text : str) : list str :=
  let koMatches := matchAll text koPattern in
  let keywords :=
    flat_map (fun word =>
                let cleaned := cleanKoreanWord this word in
                if (2 <=? length cleaned) && negb (has (stopwordsKo this) cleaned)
                then [cleaned] else [])
             koMatches in
  let enMatches := matchAll text enPattern in
  let enFiltered :=
    filter (fun w => negb (has (stopwordsEn this) (toLowerCase w))) enMatches in
  keywords ++ enFiltered.

Definition extractProperNouns (text : str) : list str :=
  let companies :=
    flat_map (fun group1 =>
                let company := trim group1 in
                if 2 <=? length company then [company] else [])
             (captures text companyPattern) in
  let capitalizedMatches := matchAll text capitalizedPattern in
  let acronymMatches := matchAll text acronymPattern in
  let properNouns := companies ++ capitalizedMatches ++ acronymMatches in
  filter (fun pn => 0 <? length pn) (map trim properNouns).

Definition extractNumbers (text : str) : list str :=
  let moneyMatches := matchAll text moneyPattern in
  let dateMatches := matchAll text datePattern in
  let largeNumMatches := matchAll text largeNumPattern in
  moneyMatches ++ dateMatches ++ largeNumMatches.

Definition countFrequency (keywords : list str) : object :=
  fold_left (fun freq keyword =>
               set freq keyword (or_zero_plus_one (get freq keyword)))
            keywords [].

Definition getTopKeywords (freq : object) (topN : Z) : list str :=
  slice0
    (map fst (sort (fun a b => minus (snd b) (snd a)) (entries freq)))
    topN.

(** A parameter with the default value [''] when it is not given. *)
Definition given (title : option str) : str :=
  match title with Some s => s | None => [] end.

(** The sequence that [extractKeywords] counts. *)
Definition weighted (this : t) (text : str) (title : option str) : list str :=
  let title := given title in
  let keywords :=
    match title with
    | [] => []
    | _ :: _ =>
      let titleKeywords := extractGeneralKeywords this title in
      titleKeywords ++ titleKeywords ++ titleKeywords
    end in
  let properNouns := extractProperNouns text in
  let keywords := keywords ++ properNouns ++ properNouns in
  let bodyKeywords := extractGeneralKeywords this text in
  let keywords := keywords ++ bodyKeywords in
  let numbers := extractNumbers text in
  keywords ++ numbers.

Definition extractKeywords (this : t) (text : str) (title : option str) : list str :=
  let keywordFreq := countFrequency (weighted this text title) in
  getTopKeywords keywordFreq (maxTags this).

End KeywordExtractor.

Import KeywordExtractor.

(* ================================================================= *)
(** ** [ai-service.ts] *)

Module AIService.

Record AIServiceSettings := {
  openaiApiKey : str;
  model : str;
  useAI : bool
}.

(** A JSON value; a number is kept as its decimal mantissa and exponent.
    The properties of an object are its own ones, with distinct keys. *)
#[local] Unset Elimination Schemes.
Inductive json :=
| JNull
| JBool (b : bool)
| JNumber (mantissa exponent : Z)
| JString (s : str)
| JArray (l : list json)
| JObject (l : list (str * json)).
#[local] Set Elimination Schemes.

Record message := { role : str; content : str }.

Record requestBody := {
  rb_model : str;
  rb_messages : list message;
  rb_max_tokens : Z;
  rb_temperature : option (Z * Z)
}.

Record request := {
  url : str;
  method : str;
  headers : list (str * str);
  body : requestBody
}.

(** What the refiner reads of a response: [ok], [statusText] and the
    completion of [json()]. *)
Record response := {
  ok : bool;
  statusText : str;
  json_body : completion json
}.

Definition quote : str := [34%N].
Definition newline : str := [10%N].
Definition quoted (s : string) : str := quote ++ u s ++ quote.

Definition system_text : str :=
  u "You are a helpful assistant that refines and improves tags for documents. Always respond with a JSON array of refined tags.".

Definition prompt (tags : list str) (noteContent : str) : str :=
  u "다음은 문서에서 자동으로 추출된 태그 후보들입니다. 이 중에서 의미 있는 태그만 선별하고 정제해주세요."
  ++ newline ++ newline
  ++ u "태그 후보: " ++ join (u ", ") tags ++ newline ++ newline
  ++ u "문서 내용의 일부:" ++ newline
  ++ substring noteContent 0 500 ++ newline ++ newline
  ++ u "다음 기준으로 태그를 정제해주세요:" ++ newline
  ++ u "1. " ++ quoted "있었다" ++ u ", " ++ quoted "이렇게" ++ u ", "
  ++ quoted "거다" ++ u ", " ++ quoted "했다"
  ++ u " 같은 동사나 조사는 제거" ++ newline
  ++ u "2. 실제 의미 있는 명사, 고유명사, 개념어만 남기기" ++ newline
  ++ u "3. 중복되거나 유사한 의미의 태그는 대표적인 것 하나로 통합" ++ newline
  ++ u "4. 최대 10개의 가장 중요한 태그만 선택" ++ newline
  ++ u "5. 태그는 원형으로 정리 (예: " ++ quoted "차들" ++ u " -> "
  ++ quoted "자동차" ++ u ", " ++ quoted "했다" ++ u " 제거)"
  ++ newline ++ newline
  ++ u "JSON 배열 형식으로만 응답하세요. 예: [" ++ quoted "태그1" ++ u ", "
  ++ quoted "태그2" ++ u ", " ++ quoted "태그3" ++ u "]".

Definition build_request (settings : AIServiceSettings) (tags : list str)
    (noteContent : str) : request :=
  let prompt := prompt tags noteContent in
  let isO1Model := startsWith (model settings) (u "o1") in
  let messages :=
    if isO1Model
    then [{| role := u "user";
             content := system_text ++ newline ++ newline ++ prompt |}]
    else [{| role := u "system"; content := system_text |};
          {| role := u "user"; content := prompt |}] in
  {| url := u "https://api.openai.com/v1/chat/completions";
     method := u "POST";
     headers := [(u "Content-Type", u "application/json");
                 (u "Authorization", u "Bearer " ++ openaiApiKey settings)];
     body := {| rb_model := model settings;
                rb_messages := messages;
                rb_max_tokens := 200;
                rb_temperature := if isO1Model then None else Some (3, -1)%Z |} |}.

Fixpoint lookup (l : list (str * json)) (k : str) : option json :=
  match l with
  | [] => None
  | (k', v) :: t => if eqb k k' then Some v else lookup t k
  end.

(** [x[k]] for the keys the refiner reads ([choices], [0], [message],
    [content], none of which a prototype defines); [None] is [undefined].
    Reading a property of [undefined] or [null] throws. *)
Definition prop (x : option json) (k : str) : completion (option json) :=
  match x with
  | None | Some JNull => Throw TypeError
  | Some (JObject l) => Normal (lookup l k)
  | Some (JArray l) =>
    Normal match array_index k with
           | Some n => nth_error l (N.to_nat n)
           | None => None
           end
  | Some (JString s) =>
    Normal match array_index k with
           | Some n => option_map (fun c => JString [c]) (nth_error s (N.to_nat n))
           | None => None
           end
  | Some (JBool _) | Some (JNumber _ _) => Normal None
  end.

(** The pattern of the fallback: a double quote (code unit 34), the group
    of one or more code units other than it, and a double quote; global. *)
Definition quotedPattern : regex :=
  seqs [lit quote; Group (plus (Chr (NotRanges [(34, 34)]%N))); lit quote].

(** [content.match] of that pattern, where [content] is a string. *)
Definition quotedSubstrings (content : str) : list str :=
  matchAll content quotedPattern.

(** The quoted substrings of a content, none when it is not a string. *)
Definition quotedIn (content : option json) : list str :=
  match content with
  | Some (JString c) => quotedSubstrings c
  | _ => []
  end.

(** [data.choices[0].message.content] *)
Definition message_content (data : json) : completion (option json) :=
  bind (prop (Some data) (u "choices")) (fun choices =>
  bind (prop choices (u "0")) (fun choice =>
  bind (prop choice (u "message")) (fun message =>
  prop message (u "content")))).

Section Refine.
(** The platform: [fetch] (its promise resolves with a response or is
    rejected) and [JSON.parse] applied to [content]. *)
Variable fetch : request -> completion response.
Variable JSON_parse : option json -> completion json.

(** The inner [try { ... } catch (parseError) { ... }] and the
    [return tags] that follows it. *)
Definition parse_tags (tags : list str) (content : option json)
    : completion (list str) :=
  match JSON_parse content with
  | Normal refinedTags =>
    match refinedTags with
    | JArray l =>
      Normal (flat_map (fun tag => match tag with
                                   | JString s => if 0 <? length s then [s] else []
                                   | _ => []
                                   end) l)
    | _ => Normal tags
    end
  | Throw parseError =>
    match content with
    | Some (JString c) =>
      match quotedSubstrings c with
      | [] => Normal tags
      | matches =>
        Normal (filter (fun tag => 0 <? length tag)
                       (map (fun m => replace_all m (lit quote)) matches))
      end
    | _ => Throw TypeError
    end
  end.

Definition refineTags (settings : AIServiceSettings) (tags : list str)
    (noteContent : str) : completion (list str) :=
  if negb (useAI settings)
     || match openaiApiKey settings with [] => true | _ => false end
  then Normal tags
  else
    try_catch
      (bind (fetch (build_request settings tags noteContent)) (fun response =>
       if negb (ok response)
       then Throw (Error (u "OpenAI API error: " ++ statusText response))
       else
         bind (json_body response) (fun data =>
         bind (message_content data) (fun content =>
         parse_tags tags content))))
      (fun error => Normal tags).

(** The cases in which refinement does not take place or fails: it is
    switched off, there is no key, the request fails, the response is not
    a success, its body cannot be read as JSON or has no message content,
    or the content neither parses as an array nor holds a quoted
    substring. *)
Definition fails (settings : AIServiceSettings) (tags : list str)
    (noteContent : str) : Prop :=
  useAI settings = false
  \/ openaiApiKey settings = []
  \/ match fetch (build_request settings tags noteContent) with
     | Throw _ => True
     | Normal response =>
       ok response = false
       \/ match json_body response with
          | Throw _ => True
          | Normal data =>
            match message_content data with
            | Throw _ => True
            | Normal content =>
              (forall l, JSON_parse content <> Normal (JArray l))
              /\ quotedIn content = []
            end
          end
     end.
End Refine.

End AIService.

Import AIService.

(* ================================================================= *)
(** ** What keywords are made of *)

Module Tags.

(** The code units a keyword can hold: Hangul syllables, ASCII letters and
    digits, the comma and white space. *)
Definition tag_ranges : list (N * N) :=
  hangul ++ upper ++ lower ++ digit ++ [(44, 44)]%N ++ space.

Definition tag_char (c : char) : Prop := in_ranges tag_ranges c = true.

(** The code units a match of any pattern of the extractor begins with: a
    Hangul syllable, a capital letter, a digit or the marker U+321C. *)
Definition starters : list (N * N) :=
  hangul ++ upper ++ digit ++ [(12828, 12828)]%N.

Definition no_starter (c : char) : Prop := in_ranges starters c = false.

(** The words the group of [r] can capture: the words of the body of the
    group that is set last. *)
Fixpoint captured (r : regex) (w : str) : Prop :=
  match r with
  | Group r1 => shape r1 w
  | Seq r1 r2 | Alt r1 r2 => captured r1 w \/ captured r2 w
  | Rep _ _ r1 => captured r1 w
  | Empty | Chr _ | WordB | Eos => False
  end.

(** A match ends with the capture it began with, or with a span inside
    the match that holds a word of the group. *)
Definition group_captured (s : str) (r : regex) (st st' : state) : Prop :=
  snd st' = snd st
  \/ exists gb ge, snd st' = Some (gb, ge)
                   /\ fst st <= gb /\ gb <= ge /\ ge <= fst st'
                   /\ captured r (substring s gb ge).

(** Every range of [l] lies within a range of [m]; no range of [l] meets
    a range of [m]. *)
Definition covers (m l : list (N * N)) : bool :=
  forallb (fun r => existsb (fun r' => (fst r' <=? fst r)%N && (snd r <=? snd r')%N) m) l.

Definition apart (l m : list (N * N)) : bool :=
  forallb (fun r => forallb (fun r' => (snd r <? fst r')%N || (snd r' <? fst r)%N) m) l.

(** The distinct keywords of a sequence. *)
Definition distinct (keywords : list str) : list str :=
  nodup (list_eq_dec N.eq_dec) keywords.

End Tags.

Import Tags.

(* ================================================================= *)
(** ** More of the string and pattern library *)

Module Text.

(** [s.split(sep)] for a separator of one code unit: the pieces between
    its occurrences (the empty string gives one empty piece). *)
Fixpoint split (sep : char) (s : str) : list str :=
  match s with
  | [] => [[]]
  | c :: t =>
    if N.eqb c sep then [] :: split sep t
    else match split sep t with
         | piece :: pieces => (c :: piece) :: pieces
         | [] => [[c]]
         end
  end.

(** [[...new Set(l)]]: the members of [l] in the order of their first
    occurrence. *)
Definition setOf (l : list str) : list str :=
  fold_left (fun set x => if has set x then set else set ++ [x]) l [].

(** The line terminators of ECMAScript, and the class of [.] (without the
    [s] flag) and of [[\s\S]]. *)
Definition lineTerminator : list (N * N) :=
  [(10, 10); (13, 13); (8232, 8233)]%N.
Definition dot : cclass := NotRanges lineTerminator.
Definition any : cclass := NotRanges [].

(** The patterns of [main.ts] add to the constructions of [regex]: the
    lazy quantifier, a group around it, [^] without the [m] flag, and [^]
    and [$] with it. *)
Inductive pattern :=
| Plain (r : regex)
| Then (p q : pattern)
| Capture (p : pattern)                            (* the capturing group *)
| Lazy (lo : nat) (hi : option nat) (r : regex)    (* r{lo,hi}? *)
| Bos                                              (* ^ *)
| Bol                                              (* ^ with the m flag *)
| Eol.                                             (* $ with the m flag *)

Fixpoint thens (l : list pattern) : pattern :=
  match l with
  | [] => Plain Empty
  | [p] => p
  | p :: t => Then p (thens t)
  end.

Definition is_terminator (s : str) (i : nat) : bool :=
  match nth_error s i with
  | Some c => in_ranges lineTerminator c
  | None => false
  end.

Definition line_start (s : str) (i : nat) : bool :=
  match i with
  | 0 => true
  | S j => is_terminator s j
  end.

Definition line_end (s : str) (i : nat) : bool :=
  (i =? length s) || is_terminator s i.

(** The lazy quantifier: stopping is tried before one more iteration. *)
Fixpoint lazy_ends (m : state -> list state) (room : nat)
    (lo : nat) (hi : option nat) (st : state) : list state :=
  match room with
  | 0 => []
  | S room' =>
    (if lo =? 0 then [st] else [])
    ++ (match hi with
        | Some 0 => []
        | _ =>
          flat_map (fun st' =>
                      if fst st <? fst st'
                      then lazy_ends m room' (pred lo) (option_map pred hi) st'
                      else [])
                   (m st)
        end)
  end.

Fixpoint pends (s : str) (p : pattern) (st : state) : list state :=
  match p with
  | Plain r => ends s r st
  | Then p1 p2 => flat_map (pends s p2) (pends s p1 st)
  | Capture p1 =>
    map (fun st' => (fst st', Some (fst st, fst st'))) (pends s p1 st)
  | Lazy lo hi r => lazy_ends (ends s r) (S (length s - fst st)) lo hi st
  | Bos => if fst st =? 0 then [st] else []
  | Bol => if line_start s (fst st) then [st] else []
  | Eol => if line_end s (fst st) then [st] else []
  end.

Fixpoint pexec_from (s : str) (p : pattern) (n : nat) (i : nat) : option found :=
  match n with
  | 0 => None
  | S n' =>
    match pends s p (i, None) with
    | st :: _ => Some {| m_begin := i; m_end := fst st; m_group := snd st |}
    | [] => pexec_from s p n' (S i)
    end
  end.

(** [p.exec(s)] with [lastIndex = i]; [s.match(p)] for a pattern without
    the [g] flag is [pexec s p 0]. *)
Definition pexec (s : str) (p : pattern) (i : nat) : option found :=
  pexec_from s p (S (length s) - i) i.

Fixpoint pmatches_from (s : str) (p : pattern) (rounds : nat) (i : nat) : list found :=
  match rounds with
  | 0 => []
  | S rounds' =>
    match pexec s p i with
    | None => []
    | Some f =>
      f :: pmatches_from s p rounds'
             (if m_begin f <? m_end f then m_end f else S (m_end f))
    end
  end.

Definition pmatches (s : str) (p : pattern) : list found :=
  pmatches_from s p (S (length s)) 0.

(** The number of capturing groups (the matcher keeps one capture, which
    is all the patterns of the source need). *)
Fixpoint rgroups (r : regex) : nat :=
  match r with
  | Group r1 => S (rgroups r1)
  | Seq r1 r2 | Alt r1 r2 => rgroups r1 + rgroups r2
  | Rep _ _ r1 => rgroups r1
  | Empty | Chr _ | WordB | Eos => 0
  end.

Fixpoint groups (p : pattern) : nat :=
  match p with
  | Plain r => rgroups r
  | Then p1 p2 => groups p1 + groups p2
  | Capture p1 => S (groups p1)
  | Lazy _ _ r => rgroups r
  | Bos | Bol | Eol => 0
  end.

(** [match[1]]: the text of the group, [None] when it is unset. *)
Definition group1 (s : str) (f : found) : option str :=
  match m_group f with
  | Some (b, e) => Some (substring s b e)
  | None => None
  end.

Definition digit_value (c : char) : option nat :=
  if in_ranges digit c then Some (N.to_nat (c - 48)) else None.

(** GetSubstitution of ECMAScript: the text a replacement template stands
    for at a match.  [captures] holds the captures of the pattern (none
    is named): [$$] is a dollar sign, [$&] the match, [$`] and [$'] what
    precedes and follows it, [$n] and [$nn] the capture of that number
    when the pattern has one (two digits are read as one digit and a
    literal digit when the pattern has no such group); any other [$] stands
    for itself. *)
Section Substitution.
Variables matched before after : str.
Variable captures : list (option str).

Definition capture (index : nat) : str :=
  match nth_error captures (index - 1) with
  | Some (Some w) => w
  | _ => []
  end.

(** [$d] for one digit [d] of value [n]. *)
Definition ref1 (n : nat) (d : char) : str :=
  if (1 <=? n) && (n <=? length captures) then capture n else [36%N; d].

Fixpoint GetSubstitution (template : str) : str :=
  match template with
  | [] => []
  | c :: rest =>
    if negb (N.eqb c 36) then c :: GetSubstitution rest
    else
      match rest with
      | [] => [36%N]
      | d1 :: t =>
        if N.eqb d1 36 then 36%N :: GetSubstitution t
        else if N.eqb d1 96 then before ++ GetSubstitution t
        else if N.eqb d1 38 then matched ++ GetSubstitution t
        else if N.eqb d1 39 then after ++ GetSubstitution t
        else
          match digit_value d1 with
          | None => 36%N :: GetSubstitution rest
          | Some n1 =>
            match t with
            | [] => ref1 n1 d1
            | d2 :: t2 =>
              match digit_value d2 with
              | None => ref1 n1 d1 ++ GetSubstitution t
              | Some n2 =>
                let index := 10 * n1 + n2 in
                if length captures <? index
                then ref1 n1 d1 ++ GetSubstitution t
                else if 1 <=? index
                     then capture index ++ GetSubstitution t2
                     else 36%N :: d1 :: d2 :: GetSubstitution t2
              end
            end
          end
      end
  end.
End Substitution.

(** The replacement of a match [f] of [p] in [s]. *)
Definition substitution (s : str) (p : pattern) (f : found) (template : str) : str :=
  GetSubstitution (substring s (m_begin f) (m_end f))
                  (firstn (m_begin f) s) (skipn (m_end f) s)
                  (match groups p with
                   | 0 => []
                   | _ => [group1 s f]
                   end)
                  template.

(** [s.replace(p, template)] for a pattern without the [g] flag. *)
Definition replace (s : str) (p : pattern) (template : str) : str :=
  match pexec s p 0 with
  | Some f => firstn (m_begin f) s ++ substitution s p f template ++ skipn (m_end f) s
  | None => s
  end.

(** [s.replace(p, template)] for a global pattern: the text between the
    matches and the replacement of each. *)
Fixpoint replace_spans (s : str) (p : pattern) (template : str) (pos : nat)
    (l : list found) : str :=
  match l with
  | [] => skipn pos s
  | f :: t =>
    substring s pos (m_begin f) ++ substitution s p f template
    ++ replace_spans s p template (m_end f) t
  end.

Definition replaceAll (s : str) (p : pattern) (template : str) : str :=
  replace_spans s p template 0 (pmatches s p).

End Text.

Import Text.

(* ================================================================= *)
(** ** [main.ts] *)

Module Plugin.

Record TagGeneratorSettings := {
  s_maxTags : Z;
  s_overwriteExistingTags : bool;
  s_excludeFolders : list str;
  s_minWordLength : Z;
  s_useAI : bool;
  s_openaiApiKey : str;
  s_model : str
}.

Definition DEFAULT_SETTINGS : TagGeneratorSettings :=
  {| s_maxTags := 10;
     s_overwriteExistingTags := false;
     s_excludeFolders := [];
     s_minWordLength := 2;
     s_useAI := false;
     s_openaiApiKey := [];
     s_model := u "gpt-3.5-turbo" |}.

(** What the plugin reads of a file. *)
Record TFile := { path : str; basename : str }.

(** The plugin: its settings and the two services built from them. *)
Record plugin := {
  settings : TagGeneratorSettings;
  keywordExtractor : KeywordExtractor.t;
  aiService : AIServiceSettings
}.

(** [/^---\n([\s\S]*?)\n---\n/] *)
Definition frontmatterRegex : pattern :=
  thens [Bos; Plain (lit (u "---" ++ newline));
         Capture (Lazy 0 None (Chr any));
         Plain (lit (newline ++ u "---" ++ newline))].

(** [/```[\s\S]*?```/g] *)
Definition fencedCode : pattern :=
  thens [Plain (lit (u "```")); Lazy 0 None (Chr any); Plain (lit (u "```"))].

(** [/`[^`]+`/g] *)
Definition inlineCode : pattern :=
  Plain (seqs [lit (u "`"); plus (Chr (NotRanges [(96, 96)]%N)); lit (u "`")]).

(** [/\[\[([^\]]+)\]\]/g] *)
Definition wikiLink : pattern :=
  Plain (seqs [lit (u "[["); Group (plus (Chr (NotRanges [(93, 93)]%N)));
               lit (u "]]")]).

(** [/\[([^\]]+)\]\([^\)]+\)/g] *)
Definition markdownLink : pattern :=
  Plain (seqs [lit (u "["); Group (plus (Chr (NotRanges [(93, 93)]%N)));
               lit (u "]"); lit (u "(");
               plus (Chr (NotRanges [(41, 41)]%N)); lit (u ")")]).

(** [/[#*_~]/g] *)
Definition formatting : list (N * N) :=
  [(35, 35); (42, 42); (95, 95); (126, 126)]%N.
Definition formattingChar : pattern := Plain (Chr (Ranges formatting)).

Definition extractBodyText (content : str) : str :=
  let bodyContent := replace content frontmatterRegex [] in
  let bodyContent := replaceAll bodyContent fencedCode [] in
  let bodyContent := replaceAll bodyContent inlineCode [] in
  let bodyContent := replaceAll bodyContent wikiLink (u "$1") in
  let bodyContent := replaceAll bodyContent markdownLink (u "$1") in
  let bodyContent := replaceAll bodyContent formattingChar [] in
  bodyContent.

(** The pattern of the tags line, with the [m] flag: [^tags:], white space
    ([\s*]), the group of the rest of the line ([.*]) and [$]. *)
Definition tagsLine : pattern :=
  thens [Bol;
         Plain (seqs [lit (u "tags:"); star (Chr (Ranges space));
                      Group (star (Chr dot))]);
         Eol].

(** [/^tags:.*$/m] *)
Definition tagsField : pattern :=
  thens [Bol; Plain (Seq (lit (u "tags:")) (star (Chr dot))); Eol].

(** [/[\[\]]/g] *)
Definition bracket : pattern := Plain (Chr (Ranges [(91, 91); (93, 93)]%N)).

(** The text of a group that every match of the pattern sets. *)
Definition group_text (s : str) (f : found) : str :=
  match group1 s f with
  | Some w => w
  | None => []
  end.

(** [tags.map(t => `  - ${t}`).join('\n')] *)
Definition yamlItems (tags : list str) : str :=
  join newline (map (fun t => u "  - " ++ t) tags).

(** [`tags:\n${...}`] *)
Definition tagsBlock (tags : list str) : str :=
  u "tags:" ++ newline ++ yamlItems tags.

(** The tags that a [tags:] line already holds: the items of an array
    written in brackets, or the rest of the line as one tag. *)
Definition existingTags (existingTagsStr : str) : list str :=
  if startsWith existingTagsStr (u "[")
  then filter (fun t => 0 <? length t)
              (map trim (split 44%N (replaceAll existingTagsStr bracket [])))
  else
    let tagStr := trim existingTagsStr in
    if 0 <? length tagStr then [tagStr] else [].

(** [[...new Set([...existingTags, ...tags])]] *)
Definition mergedTags (existingTagsStr : str) (tags : list str) : list str :=
  setOf (existingTags existingTagsStr ++ tags).

(** [`---\n${newFrontmatter}\n---\n`] *)
Definition fenced (newFrontmatter : str) : str :=
  u "---" ++ newline ++ newFrontmatter ++ newline ++ u "---" ++ newline.

(** The content that [updateFrontmatterTags] writes to the file. *)
Definition newContent (overwriteExistingTags : bool) (content : str)
    (tags : list str) : str :=
  match pexec content frontmatterRegex 0 with
  | Some frontmatterMatch =>
    let frontmatter := group_text content frontmatterMatch in
    match pexec frontmatter tagsLine 0 with
    | Some existingTagsMatch =>
      if negb overwriteExistingTags
      then
        let existingTagsStr := group_text frontmatter existingTagsMatch in
        let mergedTags := mergedTags existingTagsStr tags in
        let newFrontmatter := replace frontmatter tagsField (tagsBlock mergedTags) in
        replace content frontmatterRegex (fenced newFrontmatter)
      else
        let newFrontmatter := replace frontmatter tagsField (tagsBlock tags) in
        replace content frontmatterRegex (fenced newFrontmatter)
    | None =>
      let newFrontmatter := frontmatter ++ newline ++ tagsBlock tags in
      replace content frontmatterRegex (fenced newFrontmatter)
    end
  | None => fenced (tagsBlock tags) ++ content
  end.

Definition isFileExcluded (this : plugin) (file : TFile) : bool :=
  existsb (fun excludedFolder => startsWith (path file) excludedFolder)
          (s_excludeFolders (settings this)).

(** The value of the text area of the excluded folders, as it is stored:
    [value.split('\n').map(f => f.trim()).filter(f => f.length > 0)]. *)
Definition parseExcludeFolders (value : str) : list str :=
  filter (fun f => 0 <? length f) (map trim (split 10%N value)).

(** What the plugin shows and does. *)
Inductive notice :=
| NoActiveFile                          (* No active file *)
| NoFileSelected                        (* No file selected *)
| FileExcluded (path : str)             (* File is in excluded folder: ... *)
| RefiningTags                          (* Refining tags with AI... *)
| NoTagsGenerated                       (* No tags generated for this note *)
| GeneratedTags (n : nat) (basename : str)  (* Generated n tags for ... *)
| ErrorGeneratingTags (error : exception)   (* Error generating tags: ... *)
| Processing (n : nat)                  (* Processing n files... *)
| Processed (processed skipped : nat).  (* Processed p files, skipped s files *)

Inductive event :=
| Notice (n : notice)
| Modify (path : str) (data : str).     (* vault.modify(file, data) *)

(** A computation that shows notices and modifies files before it
    completes. *)
Definition run (A : Type) : Type := (list event * completion A)%type.

Definition ret {A} (a : A) : run A := ([], Normal a).
Definition emit (e : event) : run unit := ([e], Normal tt).
Definition await {A} (c : completion A) : run A := ([], c).

Definition andThen {A B} (r : run A) (k : A -> run B) : run B :=
  match snd r with
  | Normal a => (fst r ++ fst (k a), snd (k a))
  | Throw e => (fst r, Throw e)
  end.

Definition tryCatch {A} (r : run A) (h : exception -> run A) : run A :=
  match snd r with
  | Normal a => r
  | Throw e => (fst r ++ fst (h e), snd (h e))
  end.

Notation "x <- r ;; k" := (andThen r (fun x => k))
  (at level 61, r at next level, right associativity).
Notation "r ;;; k" := (andThen r (fun _ => k))
  (at level 61, right associativity).

Section Commands.
(** The platform: the vault ([read] and [modify] may be rejected, with
    any value), [fetch] and [JSON.parse]. *)
Variable read : TFile -> completion str.
Variable modify : TFile -> str -> completion unit.
Variable fetch : request -> completion response.
Variable JSON_parse : option json -> completion json.

Definition updateFrontmatterTags (this : plugin) (file : TFile) (content : str)
    (tags : list str) : run unit :=
  let newContent :=
    newContent (s_overwriteExistingTags (settings this)) content tags in
  await (modify file newContent) ;;; emit (Modify (path file) newContent).

Definition generateTagsForNote (this : plugin) (file : option TFile) : run unit :=
  match file with
  | None => emit (Notice NoFileSelected)
  | Some file =>
    if isFileExcluded this file
    then emit (Notice (FileExcluded (path file)))
    else
      tryCatch
        (content <- await (read file) ;;
         let title := basename file in
         let bodyText := extractBodyText content in
         let tags := extractKeywords (keywordExtractor this) bodyText (Some title) in
         tags <- (if s_useAI (settings this)
                     && negb (match s_openaiApiKey (settings this) with
                              | [] => true | _ => false end)
                  then emit (Notice RefiningTags) ;;;
                       await (refineTags fetch JSON_parse (aiService this)
                                         tags bodyText)
                  else ret tags) ;;
         match tags with
         | [] => emit (Notice NoTagsGenerated)
         | _ :: _ =>
           updateFrontmatterTags this file content tags ;;;
           emit (Notice (GeneratedTags (length tags) (basename file)))
         end)
        (fun error =>
           (* [error.message] throws when [error] is [null] or
              [undefined] *)
           match error with
           | Nullish => await (Throw TypeError)
           | _ => emit (Notice (ErrorGeneratingTags error))
           end)
  end.

(** [generateTagsForActiveNote], given what [getActiveFile()] returns. *)
Definition generateTagsForActiveNote (this : plugin) (activeFile : option TFile)
    : run unit :=
  match activeFile with
  | None => emit (Notice NoActiveFile)
  | Some file => generateTagsForNote this (Some file)
  end.

(** The loop of [generateTagsForAllNotes], from the counts so far: a file
    whose [generateTagsForNote] is rejected is caught and not counted. *)
Fixpoint processFiles (this : plugin) (files : list TFile)
    (processedCount skippedCount : nat) : run (nat * nat) :=
  match files with
  | [] => ret (processedCount, skippedCount)
  | file :: rest =>
    if isFileExcluded this file
    then processFiles this rest processedCount (S skippedCount)
    else
      processedCount <-
        tryCatch (generateTagsForNote this (Some file) ;;;
                  ret (S processedCount))
                 (fun error => ret processedCount) ;;
      processFiles this rest processedCount skippedCount
  end.

(** [generateTagsForAllNotes], given what [getMarkdownFiles()] returns. *)
Definition generateTagsForAllNotes (this : plugin) (files : list TFile) : run unit :=
  emit (Notice (Processing (length files))) ;;;
  counts <- processFiles this files 0 0 ;;
  emit (Notice (Processed (fst counts) (snd counts))).
End Commands.

(** [saveSettings], when [saveData] succeeds: both services are rebuilt
    from the settings. *)
Definition rebuilt (settings : TagGeneratorSettings) (this : plugin) : plugin :=
  {| settings := settings;
     keywordExtractor :=
       match constructor (Some (s_maxTags settings)) with
       | Normal extractor => extractor
       | Throw _ => keywordExtractor this
       end;
     aiService := {| openaiApiKey := s_openaiApiKey settings;
                     model := s_model settings;
                     useAI := s_useAI settings |} |}.

(** A number as [parseInt] returns it: [NaN] or an integer. *)
Inductive number :=
| NaN
| Int (n : Z).

(** The changes that the settings tab reports. *)
Inductive change :=
| ChangeUseAI (value : bool)
| ChangeApiKey (value : str)
| ChangeModel (value : str)
| ChangeMaxTags (value : str)
| ChangeOverwrite (value : bool)
| ChangeMinWordLength (value : str)
| ChangeExcludeFolders (value : str).

Section SettingTab.
(** The platform: [parseInt], and whether [saveData] succeeds. *)
Variable parseInt : str -> number.
Variable saveData : TagGeneratorSettings -> completion unit.

(** [saveSettings]: the services are rebuilt after [saveData], and are
    left as they are when it is rejected. *)
Definition saveSettings (settings : TagGeneratorSettings) (this : plugin) : plugin :=
  match saveData settings with
  | Normal _ => rebuilt settings this
  | Throw _ => {| settings := settings;
                  keywordExtractor := keywordExtractor this;
                  aiService := aiService this |}
  end.

Definition with_maxTags (s : TagGeneratorSettings) (n : Z) :=
  {| s_maxTags := n; s_overwriteExistingTags := s_overwriteExistingTags s;
     s_excludeFolders := s_excludeFolders s; s_minWordLength := s_minWordLength s;
     s_useAI := s_useAI s; s_openaiApiKey := s_openaiApiKey s;
     s_model := s_model s |}.

Definition with_minWordLength (s : TagGeneratorSettings) (n : Z) :=
  {| s_maxTags := s_maxTags s; s_overwriteExistingTags := s_overwriteExistingTags s;
     s_excludeFolders := s_excludeFolders s; s_minWordLength := n;
     s_useAI := s_useAI s; s_openaiApiKey := s_openaiApiKey s;
     s_model := s_model s |}.

(** The [onChange] handlers of the settings tab. *)
Definition onChange (c : change) (this : plugin) : plugin :=
  let s := settings this in
  match c with
  | ChangeUseAI value =>
    saveSettings {| s_maxTags := s_maxTags s;
                    s_overwriteExistingTags := s_overwriteExistingTags s;
                    s_excludeFolders := s_excludeFolders s;
                    s_minWordLength := s_minWordLength s;
                    s_useAI := value;
                    s_openaiApiKey := s_openaiApiKey s;
                    s_model := s_model s |} this
  | ChangeApiKey value =>
    saveSettings {| s_maxTags := s_maxTags s;
                    s_overwriteExistingTags := s_overwriteExistingTags s;
                    s_excludeFolders := s_excludeFolders s;
                    s_minWordLength := s_minWordLength s;
                    s_useAI := s_useAI s;
                    s_openaiApiKey := value;
                    s_model := s_model s |} this
  | ChangeModel value =>
    saveSettings {| s_maxTags := s_maxTags s;
                    s_overwriteExistingTags := s_overwriteExistingTags s;
                    s_excludeFolders := s_excludeFolders s;
                    s_minWordLength := s_minWordLength s;
                    s_useAI := s_useAI s;
                    s_openaiApiKey := s_openaiApiKey s;
                    s_model := value |} this
  | ChangeMaxTags value =>
    match parseInt value with
    | Int num => if (0 <? num)%Z then saveSettings (with_maxTags s num) this
                 else this
    | NaN => this
    end
  | ChangeOverwrite value =>
    saveSettings {| s_maxTags := s_maxTags s;
                    s_overwriteExistingTags := value;
                    s_excludeFolders := s_excludeFolders s;
                    s_minWordLength := s_minWordLength s;
                    s_useAI := s_useAI s;
                    s_openaiApiKey := s_openaiApiKey s;
                    s_model := s_model s |} this
  | ChangeMinWordLength value =>
    match parseInt value with
    | Int num => if (0 <? num)%Z then saveSettings (with_minWordLength s num) this
                 else this
    | NaN => this
    end
  | ChangeExcludeFolders value =>
    saveSettings {| s_maxTags := s_maxTags s;
                    s_overwriteExistingTags := s_overwriteExistingTags s;
                    s_excludeFolders := parseExcludeFolders value;
                    s_minWordLength := s_minWordLength s;
                    s_useAI := s_useAI s;
                    s_openaiApiKey := s_openaiApiKey s;
                    s_model := s_model s |} this
  end.
End SettingTab.

(** [onload], given the settings that [loadSettings] has merged. *)
Definition onload (settings : TagGeneratorSettings) : completion plugin :=
  bind (constructor (Some (s_maxTags settings))) (fun extractor =>
  Normal {| settings := settings;
            keywordExtractor := extractor;
            aiService := {| openaiApiKey := s_openaiApiKey settings;
                            model := s_model settings;
                            useAI := s_useAI settings |} |}).

End Plugin.

Import Plugin.

(* ================================================================= *)
(** ** Plain notes *)

Module Notes.

(** The code units that the patterns of [extractBodyText] begin with,
    apart from the frontmatter fence. *)
Definition markup : list (N * N) :=
  [(35, 35); (42, 42); (91, 91); (95, 95); (96, 96); (126, 126)]%N.

(** A note without frontmatter and without markdown markup. *)
Definition plain (content : str) : Prop :=
  startsWith content (u "---" ++ newline) = false
  /\ Forall (fun c => in_ranges markup c = false) content.

(** The services work with the settings: what [onload] and a
    [saveSettings] that succeeds establish. *)
Definition in_step (this : plugin) : Prop :=
  keywordExtractor this = init (s_maxTags (settings this))
  /\ aiService this = {| openaiApiKey := s_openaiApiKey (settings this);
                         model := s_model (settings this);
                         useAI := s_useAI (settings this) |}.

(** [m] is the text [w] in double quotes, somewhere in [c]: what the
    pattern of the fallback of the refiner matches. *)
Definition in_quotes (c m : str) (w : str) : Prop :=
  m = quote ++ w ++ quote /\ w <> [] /\ ~ In 34%N w
  /\ exists before after, c = before ++ quote ++ w ++ quote ++ after.

(** The text holds no line feed followed by a hyphen, so that no line of
    it can be taken for the fence that closes a frontmatter. *)
Fixpoint fence_free (w : str) : bool :=
  match w with
  | [] => true
  | c :: t =>
    negb ((c =? 10)%N && match t with
                         | d :: _ => (d =? 45)%N
                         | [] => false
                         end)
    && fence_free t
  end.

End Notes.

Import Notes.

(* ================================================================= *)
(** * Properties *)

Unset Implicit Arguments.

(** ** Strings *)

Lemma eqb_eq a b : eqb a b = true <-> a = b.
Proof. unfold eqb. destruct (list_eq_dec N.eq_dec a b); split; congruence. Qed.

Lemma eqb_refl a : eqb a a = true.
Proof. apply eqb_eq. reflexivity. Qed.

Lemma eqb_neq a b : eqb a b = false <-> a <> b.
Proof. unfold eqb. destruct (list_eq_dec N.eq_dec a b); split; congruence. Qed.

Lemma has_In set x : has set x = true <-> In x set.
Proof.
  unfold has. rewrite existsb_exists. split.
  - intros (y & Hy & E). apply eqb_eq in E. now subst.
  - intros H. exists x. split; [assumption | apply eqb_refl].
Qed.

Lemma substring_length (s : str) b e :
  b <= e -> e <= length s -> length (substring s b e) = e - b.
Proof.
  intros Hbe He. unfold substring.
  rewrite length_firstn, length_skipn. lia.
Qed.

Lemma substring_refl (s : str) b : substring s b b = [].
Proof. unfold substring. now rewrite Nat.sub_diag. Qed.

Lemma substring_app (s : str) a b c :
  a <= b -> b <= c -> substring s a b ++ substring s b c = substring s a c.
Proof.
  intros Hab Hbc. unfold substring.
  replace (c - a) with ((b - a) + (c - b)) by lia.
  rewrite <- (firstn_skipn (b - a) (firstn (b - a + (c - b)) (skipn a s))).
  f_equal.
  - rewrite firstn_firstn. f_equal. lia.
  - rewrite skipn_firstn_comm, skipn_skipn.
    f_equal; [lia | f_equal; lia].
Qed.

Lemma substring_step (s : str) i c :
  nth_error s i = Some c -> substring s i (S i) = [c].
Proof.
  unfold substring. replace (S i - i) with 1 by lia.
  revert i. induction s as [|x s IH]; intros [|i] H; simpl in *; try discriminate.
  - now inversion H.
  - now apply IH.
Qed.

(** What is left of a word when a span is cut out of it. *)
Lemma cut_length (s : str) b e :
  b <= e -> e <= length s ->
  length (firstn b s ++ skipn e s) = length s - (e - b).
Proof.
  intros. rewrite length_app, length_firstn, length_skipn. lia.
Qed.

Lemma cut_nothing (s : str) b e :
  b <= e -> e <= length s ->
  length (firstn b s ++ skipn e s) = length s -> firstn b s ++ skipn e s = s.
Proof.
  intros Hbe He HL. rewrite cut_length in HL by assumption.
  assert (e = b) by lia. subst. apply firstn_skipn.
Qed.

Lemma firstn_In_incl (A : Type) (n : nat) (l : list A) x :
  In x (firstn n l) -> In x l.
Proof.
  revert l. induction n as [|n IH]; intros [|a l]; simpl; try tauto.
  intros [-> | H]; auto.
Qed.

Lemma skipn_In_incl (A : Type) (n : nat) (l : list A) x :
  In x (skipn n l) -> In x l.
Proof.
  revert l. induction n as [|n IH]; intros [|a l]; simpl; try tauto.
  intros H. right. auto.
Qed.

(** ** The matcher *)

Lemma flat_map_ext_In (A B : Type) (f g : A -> list B) (l : list A) :
  (forall a, In a l -> f a = g a) -> flat_map f l = flat_map g l.
Proof.
  induction l as [|a l IH]; intros H; simpl; [reflexivity|].
  rewrite (H a) by now left. f_equal. apply IH. intros b Hb. apply H. now right.
Qed.

Section Matcher.
Variable s : str.

Lemma repeat_ends_sound (m : state -> list state) (Q : str -> Prop) :
  (forall st st', In st' (m st) -> fst st <= length s ->
     fst st <= fst st' /\ fst st' <= length s
     /\ Q (substring s (fst st) (fst st'))) ->
  forall room lo hi st st',
    In st' (repeat_ends m room lo hi st) -> fst st <= length s ->
    fst st <= fst st' /\ fst st' <= length s
    /\ exists ws, substring s (fst st) (fst st') = concat ws
                  /\ Forall Q ws /\ lo <= length ws.
Proof.
  intros Hm. induction room as [|room IH]; intros lo hi st st' Hin Hst;
    simpl in Hin; [contradiction|].
  apply in_app_or in Hin. destruct Hin as [Hin | Hin].
  - assert (Hit : In st' (flat_map (fun st1 =>
               if fst st <? fst st1
               then repeat_ends m room (pred lo) (option_map pred hi) st1
               else []) (m st))).
    { destruct hi as [[|h]|]; [contradiction | exact Hin | exact Hin]. }
    clear Hin. apply in_flat_map in Hit. destruct Hit as (st1 & H1 & H2).
    destruct (Hm _ _ H1 Hst) as (Ha & Hb & Hq).
    destruct (fst st <? fst st1) eqn:E; [|contradiction].
    destruct (IH _ _ _ _ H2 Hb) as (Hc & Hd & ws & Hw & Hf & Hl).
    split; [lia|]. split; [assumption|].
    exists (substring s (fst st) (fst st1) :: ws). simpl. repeat split.
    + rewrite <- Hw. symmetry. now apply substring_app.
    + now constructor.
    + lia.
  - destruct (lo =? 0) eqn:E; [|contradiction].
    destruct Hin as [<- | []]. apply Nat.eqb_eq in E. subst.
    split; [lia|]. split; [assumption|].
    exists []. simpl. rewrite substring_refl. repeat split; auto.
Qed.

(** Every end the matcher lists is within the input, not before the
    start, and the span between them is a word of the pattern. *)
Lemma ends_sound (r : regex) :
  forall st st', In st' (ends s r st) -> fst st <= length s ->
    fst st <= fst st' /\ fst st' <= length s
    /\ shape r (substring s (fst st) (fst st')).
Proof.
  induction r as [ | C | r1 IH1 r2 IH2 | r1 IH1 r2 IH2 | lo hi r1 IH1
                 | r1 IH1 | | ]; intros st st' Hin Hst;
    [simpl in Hin .. | idtac | simpl in Hin | simpl in Hin | simpl in Hin].
  - destruct Hin as [<- | []]. rewrite substring_refl. simpl. auto.
  - destruct (nth_error s (fst st)) as [c|] eqn:E; [|contradiction].
    destruct (in_class C c) eqn:EC; [|contradiction].
    destruct Hin as [<- | []]. simpl.
    assert (fst st < length s) by (apply nth_error_Some; congruence).
    repeat split; try lia.
    exists c. split; [now apply substring_step | assumption].
  - apply in_flat_map in Hin. destruct Hin as (st1 & H1 & H2).
    destruct (IH1 _ _ H1 Hst) as (Ha & Hb & Hs1).
    destruct (IH2 _ _ H2 Hb) as (Hc & Hd & Hs2).
    repeat split; try lia. simpl.
    exists (substring s (fst st) (fst st1)), (substring s (fst st1) (fst st')).
    repeat split; auto. symmetry. now apply substring_app.
  - apply in_app_or in Hin. destruct Hin as [Hin | Hin].
    + destruct (IH1 _ _ Hin Hst) as (Ha & Hb & Hs1). simpl. auto.
    + destruct (IH2 _ _ Hin Hst) as (Ha & Hb & Hs1). simpl. auto.
  - exact (repeat_ends_sound (ends s r1) (shape r1) IH1 _ lo hi st st' Hin Hst).
  - apply in_map_iff in Hin. destruct Hin as (st1 & <- & H1).
    simpl. exact (IH1 _ _ H1 Hst).
  - destruct (word_boundary s (fst st)); [|contradiction].
    destruct Hin as [<- | []]. rewrite substring_refl. simpl. auto.
  - destruct (fst st =? length s); [|contradiction].
    destruct Hin as [<- | []]. rewrite substring_refl. simpl. auto.
Qed.

(** The room given to a quantifier is never the reason an iteration is
    refused: any larger room lists the same ends. *)
Lemma repeat_ends_room (m : state -> list state) :
  (forall st st', In st' (m st) -> fst st <= length s -> fst st' <= length s) ->
  forall room1 room2 lo hi st,
    fst st <= length s ->
    length s - fst st < room1 -> length s - fst st < room2 ->
    repeat_ends m room1 lo hi st = repeat_ends m room2 lo hi st.
Proof.
  intros Hm. induction room1 as [|room1 IH]; intros room2 lo hi st Hst H1 H2;
    [lia|]. destruct room2 as [|room2]; [lia|]. simpl. f_equal.
  destruct hi as [[|h]|]; auto; apply flat_map_ext_In; intros st1 Hin;
    destruct (fst st <? fst st1) eqn:E; auto; apply Nat.ltb_lt in E;
    pose proof (Hm _ _ Hin Hst); apply IH; lia.
Qed.

Lemma exec_from_sound (r : regex) :
  forall n i f, exec_from s r n i = Some f -> i + n <= S (length s) ->
    i <= m_begin f /\ m_begin f <= m_end f /\ m_end f <= length s
    /\ shape r (matched s f)
    /\ In (m_end f, m_group f) (ends s r (m_begin f, None)).
Proof.
  induction n as [|n IH]; intros i f H Hn; simpl in H; [discriminate|].
  destruct (ends s r (i, None)) as [|st l] eqn:E.
  - destruct (IH _ _ H ltac:(lia)) as (? & ? & ? & ? & ?).
    repeat split; auto; lia.
  - inversion H; subst; clear H. simpl.
    assert (Hin : In st (ends s r (i, None))) by (rewrite E; now left).
    destruct (ends_sound r (i, None) st Hin) as (Ha & Hb & Hs);
      simpl in *; [lia|].
    repeat split; auto. rewrite E. destruct st. now left.
Qed.

Lemma exec_sound (r : regex) i f :
  exec s r i = Some f ->
  i <= m_begin f /\ m_begin f <= m_end f /\ m_end f <= length s
  /\ shape r (matched s f)
  /\ In (m_end f, m_group f) (ends s r (m_begin f, None)).
Proof.
  unfold exec. intros H.
  destruct (le_lt_dec i (S (length s))) as [Hi | Hi].
  - apply (exec_from_sound r _ _ _ H). lia.
  - replace (S (length s) - i) with 0 in H by lia. discriminate.
Qed.

Lemma matches_from_sound (r : regex) :
  forall rounds i f, In f (matches_from s r rounds i) ->
    m_begin f <= m_end f /\ m_end f <= length s /\ shape r (matched s f)
    /\ In (m_end f, m_group f) (ends s r (m_begin f, None)).
Proof.
  induction rounds as [|rounds IH]; intros i f Hin; simpl in Hin;
    [contradiction|].
  destruct (exec s r i) as [g|] eqn:E; [|contradiction].
  destruct Hin as [<- | Hin].
  - destruct (exec_sound r i _ E) as (? & ? & ? & ? & ?). auto.
  - exact (IH _ _ Hin).
Qed.

(** The rounds given to a global search are never used up. *)
Lemma matches_from_rounds (r : regex) :
  forall n m i, S (length s) - i <= n -> S (length s) - i <= m ->
    matches_from s r n i = matches_from s r m i.
Proof.
  induction n as [|n IH]; intros m i Hn Hm.
  - assert (E : exec s r i = None).
    { unfold exec. replace (S (length s) - i) with 0 by lia. reflexivity. }
    destruct m; simpl; [reflexivity | now rewrite E].
  - destruct m as [|m].
    + assert (E : exec s r i = None).
      { unfold exec. replace (S (length s) - i) with 0 by lia. reflexivity. }
      simpl. now rewrite E.
    + simpl. destruct (exec s r i) as [f|] eqn:E; [|reflexivity].
      destruct (exec_sound r i _ E) as (Ha & Hb & _).
      f_equal. destruct (m_begin f <? m_end f) eqn:El.
      * apply Nat.ltb_lt in El. apply IH; lia.
      * apply IH; lia.
Qed.

Lemma matchAll_shape (r : regex) w : In w (matchAll s r) -> shape r w.
Proof.
  unfold matchAll, matches. intros H. apply in_map_iff in H.
  destruct H as (f & <- & Hf). now apply matches_from_sound in Hf.
Qed.

(** A first match is cut out of the word: what is left is no longer,
    and is the word itself when it is as long. *)
Lemma replace_first_length (r : regex) :
  length (replace_first s r) <= length s.
Proof.
  unfold replace_first. destruct (exec s r 0) as [f|] eqn:E; [|lia].
  destruct (exec_sound r 0 _ E) as (_ & Hb & He & _).
  rewrite cut_length by assumption. lia.
Qed.

Lemma replace_first_same (r : regex) :
  length (replace_first s r) = length s -> replace_first s r = s.
Proof.
  unfold replace_first. destruct (exec s r 0) as [f|] eqn:E; [|reflexivity].
  destruct (exec_sound r 0 _ E) as (_ & Hb & He & _).
  now apply cut_nothing.
Qed.

(** A pattern that ends in [$] matches up to the end of the input, so
    removing its match leaves a prefix. *)
Lemma replace_first_eos (r : regex) :
  exists rest, s = replace_first s (Seq r Eos) ++ rest.
Proof.
  unfold replace_first. destruct (exec s (Seq r Eos) 0) as [f|] eqn:E.
  - destruct (exec_sound _ 0 _ E) as (_ & _ & _ & _ & Hin).
    simpl in Hin. apply in_flat_map in Hin. destruct Hin as (st & _ & Hst).
    destruct (fst st =? length s) eqn:El; [|contradiction].
    destruct Hst as [Hst | []]. apply Nat.eqb_eq in El.
    assert (m_end f = length s) by (rewrite <- El, Hst; reflexivity).
    exists (skipn (m_begin f) s).
    rewrite H, skipn_all, app_nil_r. symmetry. apply firstn_skipn.
  - exists []. now rewrite app_nil_r.
Qed.
End Matcher.

(** ** Words of a pattern *)

Lemma concat_min_length (k : nat) (ws : list str) :
  Forall (fun w => k <= length w) ws -> length ws * k <= length (concat ws).
Proof.
  induction 1 as [|w ws Hw _ IH]; simpl; [lia|].
  rewrite length_app. lia.
Qed.

Lemma shape_min_len (r : regex) :
  forall w, shape r w -> min_len r <= length w.
Proof.
  induction r as [ | C | r1 IH1 r2 IH2 | r1 IH1 r2 IH2 | lo hi r1 IH1
                 | r1 IH1 | | ]; intros w H; simpl in *; try lia.
  - destruct H as (c & -> & _). simpl. lia.
  - destruct H as (w1 & w2 & -> & H1 & H2). rewrite length_app.
    specialize (IH1 _ H1). specialize (IH2 _ H2). lia.
  - destruct H as [H | H]; [specialize (IH1 _ H) | specialize (IH2 _ H)]; lia.
  - destruct H as (ws & -> & Hf & Hl).
    assert (length ws * min_len r1 <= length (concat ws)).
    { apply concat_min_length. eapply Forall_impl; [|exact Hf]. exact IH1. }
    nia.
  - now apply IH1.
Qed.

Lemma shape_every (P : char -> Prop) (r : regex) :
  every P r -> forall w, shape r w -> Forall P w.
Proof.
  induction r as [ | C | r1 IH1 r2 IH2 | r1 IH1 r2 IH2 | lo hi r1 IH1
                 | r1 IH1 | | ]; intros He w H; simpl in *; subst; auto.
  - destruct H as (c & -> & Hc). auto.
  - destruct H as (w1 & w2 & -> & H1 & H2). destruct He.
    apply Forall_app. auto.
  - destruct He. destruct H; auto.
  - destruct H as (ws & -> & Hf & _).
    induction Hf as [|w ws Hw _ IH]; simpl; [constructor|].
    apply Forall_app. auto.
Qed.

Lemma shape_first (P : char -> Prop) (r : regex) :
  first_in P r -> forall w c t, shape r w -> w = c :: t -> P c.
Proof.
  induction r as [ | C | r1 IH1 r2 IH2 | r1 IH1 r2 IH2 | lo hi r1 IH1
                 | r1 IH1 | | ]; intros Hf w c t H E; simpl in *; subst;
    try discriminate.
  - destruct H as (c' & Hc & Hin). inversion Hc; subst. auto.
  - destruct H as (w1 & w2 & Hw & H1 & H2). destruct Hf as (Hf1 & Hf2).
    destruct w1 as [|c1 w1]; simpl in Hw.
    + apply (IH2 (Hf2 ltac:(apply shape_min_len in H1; simpl in H1; lia))
                 w2 c t H2 (eq_sym Hw)).
    + inversion Hw; subst. exact (IH1 Hf1 _ _ _ H1 eq_refl).
  - destruct Hf. destruct H; eauto.
  - destruct H as (ws & Hw & Hall & _). revert Hw.
    induction Hall as [|w ws Hw0 _ IH]; simpl; intros Hw; [discriminate|].
    destruct w as [|c1 w]; simpl in Hw; [now apply IH|].
    inversion Hw; subst. exact (IH1 Hf _ _ _ Hw0 eq_refl).
  - eauto.
Qed.

Lemma last_or_nil (A : Type) (l : list A) :
  l = [] \/ exists t c, l = t ++ [c].
Proof.
  destruct l as [|a l]; [now left | right].
  destruct (@exists_last _ (a :: l)) as (t & c & E); [discriminate|]. eauto.
Qed.

Lemma shape_last (P : char -> Prop) (r : regex) :
  last_in P r -> forall w c t, shape r w -> w = t ++ [c] -> P c.
Proof.
  induction r as [ | C | r1 IH1 r2 IH2 | r1 IH1 r2 IH2 | lo hi r1 IH1
                 | r1 IH1 | | ]; intros Hf w c t H E; simpl in *; subst;
    try (now destruct t).
  - destruct H as (c' & Hc & Hin). destruct t as [|x [|y t]]; inversion Hc.
    subst. auto.
  - destruct H as (w1 & w2 & Hw & H1 & H2). destruct Hf as (Hf2 & Hf1).
    destruct (last_or_nil _ w2) as [-> | (t2 & c2 & ->)].
    + rewrite app_nil_r in Hw. subst.
      apply (IH1 (Hf1 ltac:(apply shape_min_len in H2; simpl in H2; lia))
                 _ c t H1 eq_refl).
    + rewrite app_assoc in Hw. apply app_inj_tail in Hw. destruct Hw as (_ & <-).
      exact (IH2 Hf2 _ _ _ H2 eq_refl).
  - destruct Hf. destruct H; eauto.
  - destruct H as (ws & Hw & Hall & _). revert t Hw.
    induction Hall as [|w ws Hw0 _ IH]; simpl; intros t Hw;
      [now destruct t|].
    destruct (last_or_nil _ (concat ws)) as [E | (t2 & c2 & E)].
    + rewrite E, app_nil_r in Hw. subst. exact (IH1 Hf _ _ _ Hw0 eq_refl).
    + rewrite E, app_assoc in Hw. apply app_inj_tail in Hw.
      destruct Hw as (_ & <-). exact (IH _ (eq_sym E)).
  - eauto.
Qed.

(** ** Captures and progress *)

Section Captures.
Variable s : str.

Lemma group_within_trans (a b c : state) :
  fst a <= fst b -> fst b <= fst c ->
  group_within a b -> group_within b c -> group_within a c.
Proof.
  unfold group_within. intros Hab Hbc [E1 | (gb & ge & E1 & ?)] [E2 | (gb' & ge' & E2 & ?)].
  - left. congruence.
  - right. exists gb', ge'. repeat split; try tauto; lia.
  - right. exists gb, ge. rewrite E2. repeat split; try tauto; lia.
  - right. exists gb', ge'. repeat split; try tauto; lia.
Qed.

Lemma repeat_ends_group (m : state -> list state) :
  (forall st st', In st' (m st) -> fst st <= length s ->
     fst st <= fst st' /\ fst st' <= length s /\ group_within st st') ->
  forall room lo hi st st',
    In st' (repeat_ends m room lo hi st) -> fst st <= length s ->
    fst st <= fst st' /\ fst st' <= length s /\ group_within st st'.
Proof.
  intros Hm. induction room as [|room IH]; intros lo hi st st' Hin Hst;
    simpl in Hin; [contradiction|].
  apply in_app_or in Hin. destruct Hin as [Hin | Hin].
  - assert (Hit : In st' (flat_map (fun st1 =>
               if fst st <? fst st1
               then repeat_ends m room (pred lo) (option_map pred hi) st1
               else []) (m st))).
    { destruct hi as [[|h]|]; [contradiction | exact Hin | exact Hin]. }
    clear Hin. apply in_flat_map in Hit. destruct Hit as (st1 & H1 & H2).
    destruct (Hm _ _ H1 Hst) as (Ha & Hb & Hg).
    destruct (fst st <? fst st1); [|contradiction].
    destruct (IH _ _ _ _ H2 Hb) as (Hc & Hd & Hg').
    split; [lia|]. split; [assumption|].
    now apply (group_within_trans st st1 st').
  - destruct (lo =? 0); [|contradiction]. destruct Hin as [<- | []].
    split; [lia|]. split; [assumption|]. now left.
Qed.

Lemma ends_group (r : regex) :
  forall st st', In st' (ends s r st) -> fst st <= length s ->
    fst st <= fst st' /\ fst st' <= length s /\ group_within st st'.
Proof.
  induction r as [ | C | r1 IH1 r2 IH2 | r1 IH1 r2 IH2 | lo hi r1 IH1
                 | r1 IH1 | | ]; intros st st' Hin Hst;
    [simpl in Hin .. | idtac | simpl in Hin | simpl in Hin | simpl in Hin].
  - destruct Hin as [<- | []]. repeat split; auto. now left.
  - destruct (nth_error s (fst st)) as [c|] eqn:E; [|contradiction].
    destruct (in_class C c); [|contradiction]. destruct Hin as [<- | []].
    assert (fst st < length s) by (apply nth_error_Some; congruence).
    simpl. repeat split; try lia. now left.
  - apply in_flat_map in Hin. destruct Hin as (st1 & H1 & H2).
    destruct (IH1 _ _ H1 Hst) as (Ha & Hb & Hg1).
    destruct (IH2 _ _ H2 Hb) as (Hc & Hd & Hg2).
    repeat split; try lia. now apply (group_within_trans st st1 st').
  - apply in_app_or in Hin. destruct Hin as [Hin | Hin]; eauto.
  - exact (repeat_ends_group (ends s r1) IH1 _ lo hi st st' Hin Hst).
  - apply in_map_iff in Hin. destruct Hin as (st1 & <- & H1).
    destruct (IH1 _ _ H1 Hst) as (Ha & Hb & _). simpl.
    repeat split; try lia. right. exists (fst st), (fst st1). auto.
  - destruct (word_boundary s (fst st)); [|contradiction].
    destruct Hin as [<- | []]. repeat split; auto. now left.
  - destruct (fst st =? length s); [|contradiction].
    destruct Hin as [<- | []]. repeat split; auto. now left.
Qed.

(** A body that cannot match the empty word advances, so the matcher
    never refuses an iteration of a quantifier of the source for want of
    progress. *)
Lemma ends_advance (r : regex) st st' :
  0 < min_len r -> In st' (ends s r st) -> fst st <= length s ->
  fst st < fst st'.
Proof.
  intros Hr Hin Hst. destruct (ends_sound s r st st' Hin Hst) as (Ha & Hb & Hs).
  apply shape_min_len in Hs. rewrite substring_length in Hs by assumption. lia.
Qed.

(** What a match captured lies within what it matched. *)
Lemma matches_group (r : regex) (P : char -> Prop) f :
  In f (matches s r) -> Forall P (matched s f) ->
  match m_group f with
  | Some (gb, ge) => Forall P (substring s gb ge)
  | None => True
  end.
Proof.
  unfold matches. generalize (S (length s)) 0. intros rounds.
  induction rounds as [|rounds IH]; intros i Hin HP; simpl in Hin;
    [contradiction|].
  destruct (exec s r i) as [g|] eqn:E; [|contradiction].
  destruct Hin as [<- | Hin]; [|exact (IH _ Hin HP)].
  destruct (exec_sound s r i _ E) as (_ & Hbe & He & _ & Hin).
  destruct (ends_group r _ _ Hin) as (_ & _ & Hg); [simpl; lia|].
  destruct Hg as [Hg | (gb & ge & Hg & H1 & H2 & H3)]; simpl in *.
  - now rewrite Hg.
  - rewrite Hg. unfold matched in HP.
    rewrite <- (substring_app s (m_begin g) gb (m_end g)) in HP by lia.
    rewrite <- (substring_app s gb ge (m_end g)) in HP by lia.
    apply Forall_app in HP. destruct HP as (_ & HP).
    apply Forall_app in HP. tauto.
Qed.
End Captures.

Lemma Forall_cut (A : Type) (P : A -> Prop) (l : list A) b e :
  Forall P l -> Forall P (firstn b l ++ skipn e l).
Proof.
  intros H. rewrite Forall_forall in *. intros x Hx.
  apply in_app_or in Hx. destruct Hx as [Hx | Hx]; apply H.
  - revert Hx. apply firstn_In_incl.
  - revert Hx. apply skipn_In_incl.
Qed.

(** The room [ends] gives a quantifier is enough: more room lists the
    same ends. *)
Lemma ends_Rep_room (s : str) (lo : nat) (hi : option nat) (r : regex)
    (st : state) (room : nat) :
  fst st <= length s -> length s - fst st < room ->
  repeat_ends (ends s r) room lo hi st = ends s (Rep lo hi r) st.
Proof.
  intros Hst Hroom.
  change (ends s (Rep lo hi r) st)
    with (repeat_ends (ends s r) (S (length s - fst st)) lo hi st).
  apply (repeat_ends_room s); try assumption; [|lia].
  intros st1 st2 Hin H1. now apply (ends_sound s r st1 st2 Hin).
Qed.

(** ** Trimming *)

Lemma trimStart_clean (s : str) : clean_head (trimStart s).
Proof.
  induction s as [|c s IH]; simpl; [exact I|].
  destruct (in_ranges space c) eqn:E; [exact IH | exact E].
Qed.

Lemma trimStart_id (s : str) : clean_head s -> trimStart s = s.
Proof. destruct s as [|c s]; simpl; [reflexivity|]. now intros ->. Qed.

Lemma trimStart_suffix (s : str) : exists ws, s = ws ++ trimStart s.
Proof.
  induction s as [|c s (ws & IH)]; simpl; [now exists []|].
  destruct (in_ranges space c).
  - exists (c :: ws). simpl. now f_equal.
  - now exists [].
Qed.

Lemma trim_id (s : str) : clean_head s -> clean_head (rev s) -> trim s = s.
Proof.
  intros H1 H2. unfold trim, trimEnd.
  rewrite (trimStart_id _ H1), (trimStart_id _ H2). apply rev_involutive.
Qed.

Lemma trim_clean (s : str) : clean_head (trim s) /\ clean_head (rev (trim s)).
Proof.
  unfold trim, trimEnd. split.
  - pose proof (trimStart_clean s) as Ht.
    destruct (trimStart_suffix (rev (trimStart s))) as (ws & E).
    apply (f_equal (@rev char)) in E. rewrite rev_involutive, rev_app_distr in E.
    destruct (rev (trimStart (rev (trimStart s)))) as [|c y]; [exact I|].
    rewrite E in Ht. exact Ht.
  - rewrite rev_involutive. apply trimStart_clean.
Qed.

Lemma trim_idempotent (s : str) : trim (trim s) = trim s.
Proof. destruct (trim_clean s). now apply trim_id. Qed.

(** A word that begins and ends outside white space is its own trim. *)
Lemma trim_word (w : str) :
  (forall c t, w = c :: t -> in_ranges space c = false) ->
  (forall c t, w = t ++ [c] -> in_ranges space c = false) ->
  trim w = w.
Proof.
  intros Hh Hl. apply trim_id.
  - destruct w as [|c t]; simpl; eauto.
  - destruct (last_or_nil _ w) as [-> | (t & c & ->)]; simpl; [exact I|].
    rewrite rev_app_distr. simpl. eauto.
Qed.

(** ** The suffix stripper *)

Section Stripper.
Variable pattern : regex.

(** Rounds beyond the length of the word are never used. *)
Lemma cleanLoop_rounds :
  forall n m cleaned prevLength,
    length cleaned <= n -> n <= m ->
    cleanLoop pattern n cleaned prevLength
    = cleanLoop pattern m cleaned prevLength.
Proof.
  induction n as [|n IH]; intros m cleaned prev Hn Hm.
  - destruct m as [|m]; cbn [cleanLoop]; [reflexivity|].
    replace (2 <=? length cleaned) with false
      by (symmetry; apply Nat.leb_gt; lia).
    now rewrite andb_false_r.
  - destruct m as [|m]; [lia|]. cbn [cleanLoop].
    destruct (negb (length cleaned =? prev) && (2 <=? length cleaned)) eqn:E;
      [|reflexivity].
    pose proof (replace_first_length cleaned pattern) as Hle.
    destruct (le_lt_dec (length (replace_first cleaned pattern)) n) as [H | H].
    + apply IH; lia.
    + assert (El : length (replace_first cleaned pattern) = length cleaned)
        by lia.
      destruct n as [|n], m as [|m]; cbn [cleanLoop];
        rewrite ?El, ?Nat.eqb_refl; reflexivity.
Qed.

(** After a pass, the loop ends on a word shorter than 2 or on one that
    a further pass leaves as it is. *)
Lemma cleanLoop_pass :
  forall rounds c0, length c0 <= rounds ->
    let r := cleanLoop pattern rounds (replace_first c0 pattern) (length c0) in
    length r < 2 \/ replace_first r pattern = r.
Proof.
  induction rounds as [|rounds IH]; intros c0 Hr; cbn [cleanLoop].
  - left. pose proof (replace_first_length c0 pattern). lia.
  - pose proof (replace_first_length c0 pattern) as Hle.
    destruct (length (replace_first c0 pattern) =? length c0) eqn:E1;
      cbn [negb andb].
    + apply Nat.eqb_eq in E1. right.
      rewrite (replace_first_same _ _ E1). now apply replace_first_same.
    + destruct (2 <=? length (replace_first c0 pattern)) eqn:E2.
      * apply Nat.eqb_neq in E1. apply IH. lia.
      * apply Nat.leb_gt in E2. now left.
Qed.

Lemma cleanLoop_stops (word : str) :
  let r := cleanLoop pattern (S (length word)) word 0 in
  length r < 2 \/ replace_first r pattern = r.
Proof.
  cbn [cleanLoop].
  destruct (negb (length word =? 0) && (2 <=? length word)) eqn:E.
  - apply cleanLoop_pass. lia.
  - left. apply andb_false_iff in E. destruct E as [E | E].
    + apply negb_false_iff, Nat.eqb_eq in E. lia.
    + apply Nat.leb_gt in E. exact E.
Qed.

(** The loop returns a word it is given unchanged when that word is
    shorter than 2 or is left as it is by a pass. *)
Lemma cleanLoop_fixed (r : str) :
  length r < 2 \/ replace_first r pattern = r ->
  cleanLoop pattern (S (length r)) r 0 = r.
Proof.
  intros H. cbn [cleanLoop].
  destruct (negb (length r =? 0) && (2 <=? length r)) eqn:E; [|reflexivity].
  apply andb_true_iff in E. destruct E as (_ & E). apply Nat.leb_le in E.
  destruct H as [H | H]; [lia|]. rewrite H.
  destruct (length r) as [|n] eqn:El; [lia|]. cbn [cleanLoop].
  now rewrite El, Nat.eqb_refl.
Qed.

(** No pass runs on a word shorter than 2. *)
Lemma cleanLoop_short (word : str) :
  length word < 2 -> cleanLoop pattern (S (length word)) word 0 = word.
Proof.
  intros H. cbn [cleanLoop].
  replace (2 <=? length word) with false by (symmetry; apply Nat.leb_gt; lia).
  now rewrite andb_false_r.
Qed.

(** After a pass that changes the word, the loop goes on as from the
    start on what is left. *)
Lemma cleanLoop_again (word : str) :
  2 <= length word -> replace_first word pattern <> word ->
  cleanLoop pattern (S (length word)) word 0
  = cleanLoop pattern (S (length (replace_first word pattern)))
              (replace_first word pattern) 0.
Proof.
  intros H2 Hne.
  pose proof (replace_first_length word pattern) as Hle.
  assert (Hlt : length (replace_first word pattern) < length word).
  { destruct (Nat.eq_dec (length (replace_first word pattern)) (length word))
      as [E | E]; [|lia].
    now apply replace_first_same in E. }
  cbn [cleanLoop].
  replace (length word =? 0) with false by (symmetry; apply Nat.eqb_neq; lia).
  replace (2 <=? length word) with true by (symmetry; apply Nat.leb_le; lia).
  cbn [negb andb].
  set (w := replace_first word pattern) in *.
  destruct (length word) as [|k] eqn:Ek; [lia|]. cbn [cleanLoop].
  replace (length w =? S k) with false by (symmetry; apply Nat.eqb_neq; lia).
  cbn [negb andb].
  destruct (2 <=? length w) eqn:E2.
  - apply Nat.leb_le in E2.
    replace (length w =? 0) with false by (symmetry; apply Nat.eqb_neq; lia).
    cbn [negb andb]. symmetry. apply cleanLoop_rounds; [|lia].
    apply replace_first_length.
  - now rewrite andb_false_r.
Qed.

(** The loop only cuts pieces out of the word. *)
Lemma cleanLoop_Forall (P : char -> Prop) :
  forall rounds cleaned prevLength,
    Forall P cleaned -> Forall P (cleanLoop pattern rounds cleaned prevLength).
Proof.
  induction rounds as [|rounds IH]; intros cleaned prev H;
    cbn [cleanLoop]; [exact H|].
  destruct (negb (length cleaned =? prev) && (2 <=? length cleaned)); [|exact H].
  apply IH. unfold replace_first.
  destruct (exec cleaned pattern 0); [|exact H].
  now apply Forall_cut.
Qed.
End Stripper.

Lemma cleanLoop_prefix (p : regex) :
  forall rounds cleaned prevLength,
    exists rest, cleaned = cleanLoop (Seq p Eos) rounds cleaned prevLength ++ rest.
Proof.
  induction rounds as [|rounds IH]; intros cleaned prev; cbn [cleanLoop].
  - exists []. now rewrite app_nil_r.
  - destruct (negb (length cleaned =? prev) && (2 <=? length cleaned)).
    + destruct (replace_first_eos cleaned p) as (rest1 & E1).
      destruct (IH (replace_first cleaned (Seq p Eos)) (length cleaned))
        as (rest2 & E2).
      exists (rest2 ++ rest1). rewrite app_assoc, <- E2. exact E1.
    + exists []. now rewrite app_nil_r.
Qed.

(** ** Objects and arrays *)

Lemma own_put (o : object) k v t :
  own (put o k v) t = if eqb t k then Some v else own o t.
Proof.
  induction o as [|[k' v'] o IH]; simpl.
  - reflexivity.
  - destruct (eqb k k') eqn:E; simpl.
    + apply eqb_eq in E. subst k'. now destruct (eqb t k).
    + rewrite IH. destruct (eqb t k') eqn:E1; [|reflexivity].
      apply eqb_eq in E1. subst k'.
      destruct (eqb t k) eqn:E2; [|reflexivity].
      apply eqb_eq in E2. subst. rewrite eqb_refl in E. discriminate.
Qed.

Lemma put_keys_incl (o : object) k v x :
  In x (map fst (put o k v)) -> In x (map fst o) \/ x = k.
Proof.
  induction o as [|[k' v'] o IH]; simpl.
  - intros [<- | []]. now right.
  - destruct (eqb k k'); simpl; intros [<- | H]; auto.
    destruct (IH H); auto.
Qed.

Lemma put_keys_NoDup (o : object) k v :
  NoDup (map fst o) -> NoDup (map fst (put o k v)).
Proof.
  induction o as [|[k' v'] o IH]; simpl; intros H.
  - constructor; [intros [] | constructor].
  - destruct (eqb k k') eqn:E; simpl; [exact H|].
    inversion H as [|? ? Hn Hd]; subst. constructor; [|now apply IH].
    intros Hin. apply put_keys_incl in Hin. destruct Hin as [Hin | ->].
    + contradiction.
    + rewrite eqb_refl in E. discriminate.
Qed.

Lemma set_keys_incl (o : object) k v x :
  In x (map fst (set o k v)) -> In x (map fst o) \/ x = k.
Proof. unfold set. destruct (eqb k _); [now left | apply put_keys_incl]. Qed.

Lemma set_keys_NoDup (o : object) k v :
  NoDup (map fst o) -> NoDup (map fst (set o k v)).
Proof. unfold set. destruct (eqb k _); [auto | apply put_keys_NoDup]. Qed.

Section Counting.
Let step (freq : object) (keyword : str) : object :=
  set freq keyword (or_zero_plus_one (get freq keyword)).

Lemma count_keys_NoDup (keywords : list str) :
  forall o, NoDup (map fst o) -> NoDup (map fst (fold_left step keywords o)).
Proof.
  induction keywords as [|k l IH]; intros o H; simpl; [exact H|].
  apply IH. now apply set_keys_NoDup.
Qed.

Lemma count_keys_incl (keywords : list str) x :
  forall o, In x (map fst (fold_left step keywords o)) ->
            In x (map fst o) \/ In x keywords.
Proof.
  induction keywords as [|k l IH]; intros o H; simpl in *; [now left|].
  destruct (IH _ H) as [H1 | H1]; [|now auto].
  apply set_keys_incl in H1. destruct H1; auto.
Qed.

(** A key that [Object.prototype] does not define counts from 0: its
    property is absent until the keyword is seen and then holds the
    number of times it was seen. *)
Lemma count_own (t : str) (keywords : list str) :
  has Object_prototype t = false ->
  forall o n,
    (own o t = None /\ n = 0) \/ (own o t = Some (Number n) /\ 0 < n) ->
    let o' := fold_left step keywords o in
    let n' := n + count_occ (list_eq_dec N.eq_dec) keywords t in
    (own o' t = None /\ n' = 0) \/ (own o' t = Some (Number n') /\ 0 < n').
Proof.
  intros Hp. induction keywords as [|k l IH]; intros o n H; simpl.
  - rewrite Nat.add_0_r. exact H.
  - destruct (list_eq_dec N.eq_dec k t) as [-> | Hne].
    + replace (n + S (count_occ (list_eq_dec N.eq_dec) l t))
        with (S n + count_occ (list_eq_dec N.eq_dec) l t) by lia.
      apply IH. right. split; [|lia].
      unfold step, set.
      assert (E : eqb t (u "__proto__") = false).
      { apply eqb_neq. intros ->. vm_compute in Hp. discriminate. }
      rewrite E, own_put, eqb_refl. f_equal. unfold get.
      destruct H as [(-> & ->) | (-> & Hn)].
      * rewrite Hp. reflexivity.
      * destruct n as [|n]; [lia|]. simpl. f_equal. lia.
    + apply IH. unfold step, set.
      destruct (eqb k (u "__proto__")); [exact H|].
      rewrite own_put.
      replace (eqb t k) with false; [exact H|].
      symmetry. apply eqb_neq. congruence.
Qed.
End Counting.

Lemma countFrequency_keys_NoDup (keywords : list str) :
  NoDup (map fst (countFrequency keywords)).
Proof. apply count_keys_NoDup. constructor. Qed.

Lemma countFrequency_keys_incl (keywords : list str) x :
  In x (map fst (countFrequency keywords)) -> In x keywords.
Proof.
  intros H. apply count_keys_incl in H. destruct H as [[] | H]. exact H.
Qed.

Lemma countFrequency_get (keywords : list str) (t : str) :
  has Object_prototype t = false ->
  In t keywords ->
  get (countFrequency keywords) t
  = Number (count_occ (list_eq_dec N.eq_dec) keywords t).
Proof.
  intros Hp Hin.
  assert (H0 : (own [] t = None /\ 0 = 0)
               \/ (own [] t = Some (Number 0) /\ 0 < 0)) by now left.
  destruct (@count_own t keywords Hp [] 0 H0) as [(_ & H) | (H & _)];
    simpl in *.
  - apply (count_occ_In (list_eq_dec N.eq_dec)) in Hin. lia.
  - unfold get, countFrequency. now rewrite H.
Qed.

Section Sorting.
Variable A : Type.
Variable comparefn : A -> A -> option Z.

Lemma insert_Permutation x (l : list A) :
  Permutation (insert comparefn x l) (x :: l).
Proof.
  induction l as [|y l IH]; simpl; [reflexivity|].
  destruct (SortCompare comparefn x y <=? 0)%Z; [reflexivity|].
  rewrite IH. apply perm_swap.
Qed.

Lemma sort_Permutation (l : list A) : Permutation (sort comparefn l) l.
Proof.
  induction l as [|x l IH]; simpl; [reflexivity|].
  rewrite insert_Permutation. now constructor.
Qed.

Lemma slice0_firstn (l : list A) (e : Z) : exists n, slice0 l e = firstn n l.
Proof. unfold slice0. eauto. Qed.

Lemma slice0_length (l : list A) (e : Z) :
  (0 < e)%Z -> (Z.of_nat (length (slice0 l e)) <= e)%Z.
Proof.
  intros He. unfold slice0. rewrite length_firstn.
  replace (e <? 0)%Z with false by (symmetry; apply Z.ltb_ge; lia). lia.
Qed.
End Sorting.

Lemma entries_Permutation (o : object) : Permutation (entries o) o.
Proof.
  unfold entries. rewrite sort_Permutation.
  unfold indexed, named. induction o as [|kv o IH]; simpl; [reflexivity|].
  destruct (array_index (fst kv)); simpl.
  - now constructor.
  - rewrite <- Permutation_middle. now constructor.
Qed.

Lemma NoDup_firstn_of (A : Type) (n : nat) (l : list A) :
  NoDup l -> NoDup (firstn n l).
Proof.
  revert l. induction n as [|n IH]; intros [|a l] H; simpl; try constructor.
  - inversion H; subst. intros Hin. apply firstn_In_incl in Hin. contradiction.
  - inversion H; subst. auto.
Qed.

(** The ranked keys are keys of the frequency object, each once. *)
Lemma getTopKeywords_incl (freq : object) (topN : Z) x :
  In x (getTopKeywords freq topN) -> In x (map fst freq).
Proof.
  unfold getTopKeywords. intros H.
  destruct (slice0_firstn _ (map fst (sort (fun a b => minus (snd b) (snd a))
                                            (entries freq))) topN) as (n & E).
  rewrite E in H. apply firstn_In_incl in H.
  eapply Permutation_in; [|exact H].
  apply Permutation_map. rewrite sort_Permutation. apply entries_Permutation.
Qed.

Lemma getTopKeywords_NoDup (freq : object) (topN : Z) :
  NoDup (map fst freq) -> NoDup (getTopKeywords freq topN).
Proof.
  unfold getTopKeywords. intros H.
  destruct (slice0_firstn _ (map fst (sort (fun a b => minus (snd b) (snd a))
                                            (entries freq))) topN) as (n & E).
  rewrite E. apply NoDup_firstn_of.
  eapply Permutation_NoDup; [|exact H]. symmetry.
  apply Permutation_map. rewrite sort_Permutation. apply entries_Permutation.
Qed.

(** ** The patterns of the extractor *)

Ltac ranges_hyp H :=
  unfold in_class, in_ranges, hangulOrLetter, upper, lower, digit, hangul,
    letter, word, space in H;
  simpl in H;
  rewrite ?orb_true_iff, ?andb_true_iff, ?N.leb_le, ?N.eqb_eq in H.

(** Closes a goal [in_ranges l c = _] from hypotheses of that form. *)
Ltac ranges :=
  repeat match goal with
         | H : in_class _ _ = true |- _ => ranges_hyp H
         | H : in_ranges _ _ = true |- _ => ranges_hyp H
         end;
  match goal with
  | |- _ = false =>
    let Hc := fresh in
    apply not_true_iff_false; intros Hc; ranges_hyp Hc; lia
  | |- _ = true =>
    unfold in_class, in_ranges, hangulOrLetter, upper, lower, digit, hangul,
      letter, word, space; simpl;
    rewrite ?orb_true_iff, ?andb_true_iff, ?N.leb_le; lia
  end.

Lemma koPattern_every : every is_hangul koPattern.
Proof. simpl. intros c H. exact H. Qed.

Lemma enPattern_first : first_in is_upper enPattern.
Proof.
  unfold is_upper. simpl.
  repeat split; intros; try discriminate; try assumption; ranges.
Qed.

Lemma capitalizedPattern_first : first_in not_space capitalizedPattern.
Proof.
  unfold not_space. simpl. repeat split; intros; try discriminate; ranges.
Qed.

Lemma capitalizedPattern_last : last_in not_space capitalizedPattern.
Proof.
  unfold not_space. simpl. repeat split; intros; try discriminate; ranges.
Qed.

Lemma acronymPattern_every : every not_space acronymPattern.
Proof. unfold not_space. simpl. repeat split; intros; ranges. Qed.

(** A word long enough to have a first code unit. *)
Lemma nonempty_head (w : str) : 1 <= length w -> exists c t, w = c :: t.
Proof. destruct w as [|c t]; simpl; [lia | eauto]. Qed.

Lemma Forall_head_last (P : char -> Prop) (w : str) :
  Forall P w ->
  (forall c t, w = c :: t -> P c) /\ (forall c t, w = t ++ [c] -> P c).
Proof.
  intros H. rewrite Forall_forall in H. split; intros c t ->; apply H.
  - now left.
  - apply in_or_app. right. now left.
Qed.

Section Keywords.
Variable this : KeywordExtractor.t.
Variable text : str.

(** A general keyword has 2 code units or more and begins with a Hangul
    syllable or a capital letter. *)
Lemma general_keyword x :
  In x (extractGeneralKeywords this text) ->
  2 <= length x
  /\ exists c t, x = c :: t /\ (is_hangul c \/ is_upper c).
Proof.
  unfold extractGeneralKeywords. intros H. apply in_app_or in H.
  destruct H as [H | H].
  - apply in_flat_map in H. destruct H as (word & Hw & Hx).
    destruct ((2 <=? length (cleanKoreanWord this word))
              && negb (has (stopwordsKo this) (cleanKoreanWord this word)))
      eqn:E; [|contradiction].
    destruct Hx as [<- | []]. apply andb_true_iff in E. destruct E as (E & _).
    apply Nat.leb_le in E. split; [exact E|].
    destruct (nonempty_head (cleanKoreanWord this word)) as (c & t & Ec); [lia|].
    exists c, t. split; [exact Ec | left].
    assert (Hall : Forall is_hangul (cleanKoreanWord this word)).
    { apply cleanLoop_Forall.
      exact (shape_every is_hangul koPattern koPattern_every _
               (matchAll_shape _ _ _ Hw)). }
    rewrite Ec in Hall. now inversion Hall.
  - apply filter_In in H. destruct H as (H & _).
    apply matchAll_shape in H.
    pose proof (shape_min_len _ _ H) as Hl.
    change (min_len enPattern) with 2 in Hl. split; [exact Hl|].
    destruct (nonempty_head x) as (c & t & Ec); [lia|].
    exists c, t. split; [exact Ec | right].
    exact (shape_first is_upper enPattern enPattern_first _ _ _ H Ec).
Qed.

(** A kept general keyword is on neither stopword list: the stripped
    Hangul word as it is, the Latin word in lower case. *)
Lemma general_keyword_stopwords x :
  In x (extractGeneralKeywords this text) ->
  has (stopwordsKo this) x = false
  \/ has (stopwordsEn this) (toLowerCase x) = false.
Proof.
  unfold extractGeneralKeywords. intros H. apply in_app_or in H.
  destruct H as [H | H].
  - apply in_flat_map in H. destruct H as (word & Hw & Hx).
    destruct ((2 <=? length (cleanKoreanWord this word))
              && negb (has (stopwordsKo this) (cleanKoreanWord this word)))
      eqn:E; [|contradiction].
    destruct Hx as [<- | []]. apply andb_true_iff in E. destruct E as (_ & E).
    left. now apply negb_true_iff in E.
  - apply filter_In in H. destruct H as (_ & H).
    right. now apply negb_true_iff in H.
Qed.

Lemma proper_noun x : In x (extractProperNouns text) -> 2 <= length x.
Proof.
  unfold extractProperNouns. intros H. apply filter_In in H.
  destruct H as (H & _). apply in_map_iff in H. destruct H as (y & <- & H).
  apply in_app_or in H. destruct H as [H | H].
  - apply in_flat_map in H. destruct H as (g & _ & Hy).
    destruct (2 <=? length (trim g)) eqn:E; [|contradiction].
    destruct Hy as [<- | []]. rewrite trim_idempotent. now apply Nat.leb_le.
  - apply in_app_or in H. destruct H as [H | H]; apply matchAll_shape in H.
    + rewrite trim_word.
      * pose proof (shape_min_len _ _ H) as Hl.
        change (min_len capitalizedPattern) with 5 in Hl. lia.
      * intros c t. exact (shape_first _ _ capitalizedPattern_first _ c t H).
      * intros c t. exact (shape_last _ _ capitalizedPattern_last _ c t H).
    + destruct (Forall_head_last _ _
                  (shape_every _ _ acronymPattern_every _ H)) as (Hh & Hl).
      rewrite (trim_word _ Hh Hl).
      pose proof (shape_min_len _ _ H) as Hm.
      change (min_len acronymPattern) with 2 in Hm. exact Hm.
Qed.

Lemma number_token x : In x (extractNumbers text) -> 2 <= length x.
Proof.
  unfold extractNumbers. intros H.
  apply in_app_or in H. destruct H as [H | H];
    [|apply in_app_or in H; destruct H as [H | H]];
    apply matchAll_shape, shape_min_len in H.
  - change (min_len moneyPattern) with 2 in H. exact H.
  - change (min_len datePattern) with 4 in H. lia.
  - change (min_len largeNumPattern) with 2 in H. exact H.
Qed.
End Keywords.

(** The names of [Object.prototype] begin with a small letter or an
    underscore, so no general keyword is one of them. *)
Lemma Object_prototype_head (k : str) :
  has Object_prototype k = true ->
  exists c t, k = c :: t /\ (in_ranges lower c = true \/ c = 95%N).
Proof.
  intros H. apply has_In in H. unfold Object_prototype in H.
  repeat (destruct H as [<- | H];
          [ eexists; eexists; split;
            [ vm_compute; reflexivity | vm_compute; auto ] | ]).
  contradiction.
Qed.

Lemma general_keyword_own (this : KeywordExtractor.t) (text x : str) :
  In x (extractGeneralKeywords this text) -> has Object_prototype x = false.
Proof.
  intros H. apply general_keyword in H. destruct H as (_ & c & t & -> & Hc).
  apply not_true_iff_false. intros Hp.
  apply Object_prototype_head in Hp. destruct Hp as (c' & t' & E & Hc').
  inversion E; subst c' t'. unfold is_hangul, is_upper in Hc.
  destruct Hc as [Hc | Hc], Hc' as [Hc' | Hc'];
    ranges_hyp Hc; try ranges_hyp Hc'; lia.
Qed.

(** Every match of the company pattern sets its group, so [match[1]] is
    a string in every round of the loop. *)
Lemma companyPattern_group (text : str) (f : found) :
  In f (matches text companyPattern) -> m_group f <> None.
Proof.
  intros H. apply matches_from_sound in H. destruct H as (_ & _ & _ & H).
  unfold companyPattern in H. simpl in H.
  apply in_flat_map in H. destruct H as (st1 & _ & H).
  apply in_flat_map in H. destruct H as (st2 & _ & H).
  apply in_map_iff in H. destruct H as (st3 & E & _).
  inversion E. discriminate.
Qed.

(** Every quantifier of the source is over a body that consumes input. *)
Lemma patterns_progress :
  forallb progress
    [koPattern; enPattern; companyPattern; capitalizedPattern; acronymPattern;
     moneyPattern; datePattern; largeNumPattern; suffixPattern (init 10);
     quotedPattern] = true.
Proof. reflexivity. Qed.

(** The scenarios of the specification. *)
Example strip_topic_marker :
  cleanKoreanWord (init 10) (u "회사는") = u "회사".
Proof. reflexivity. Qed.

Example apple_ranks_first :
  extractKeywords (init 10)
    (u "Apple Inc. announced new iPhone. Apple stock rose.")
    (Some (u "Apple News"))
  = map u ["Apple"; "News"; "Apple Inc"; "Inc"]%string.
Proof. vm_compute. reflexivity. Qed.

Example samsung_ranks_first :
  hd_error (extractKeywords (init 5)
              (u "삼성전자가 실적을 발표했다. 삼성전자는 반도체를 만든다.")
              (Some (u "삼성전자 발표")))
  = Some (u "삼성전자").
Proof. vm_compute. reflexivity. Qed.

Example amounts_and_years :
  extractNumbers (u "매출 3000억원, 2024년 3월15일, 1,234명")
  = map u ["3000억원"; "2024년"; "3월15일"; "1,234명"]%string.
Proof. vm_compute. reflexivity. Qed.

Example ten_candidates_top_three :
  extractKeywords (init 3)
    (u "Alpha bravo Charlie delta Echo foxtrot Golf hotel India juliet Kilo lima Mike november Oscar papa Quebec romeo Sierra")
    None
  = map u ["Alpha"; "Charlie"; "Echo"]%string.
Proof. vm_compute. reflexivity. Qed.

Example empty_input : extractKeywords (init 10) [] (Some []) = [].
Proof. reflexivity. Qed.

(** ** No keyword is an array index *)

Lemma decimal_None (k : str) :
  (exists c, In c k /\ not_digit c) -> decimal k = None.
Proof.
  unfold decimal. generalize (Some 0%N).
  induction k as [|d k IH]; intros acc (c & Hin & Hc); [contradiction|].
  simpl. destruct Hin as [-> | Hin].
  - unfold not_digit in Hc. rewrite Hc.
    replace (match acc with Some _ => None | None => None end)
      with (@None N) by now destruct acc.
    clear. induction k as [|d k IH]; simpl; auto.
  - apply IH. eauto.
Qed.

Lemma array_index_None (k : str) :
  (exists c, In c k /\ not_digit c) -> array_index k = None.
Proof.
  intros H. unfold array_index. destruct k as [|c t]; [reflexivity|].
  destruct (N.eqb c 48 && _); [reflexivity|]. now rewrite decimal_None.
Qed.

Lemma trimStart_Forall (P : char -> Prop) (w : str) :
  Forall P w -> Forall P (trimStart w).
Proof.
  induction 1 as [|c w Hc Hw IH]; simpl; [constructor|].
  destruct (in_ranges space c); [exact IH | now constructor].
Qed.

Lemma trim_Forall (P : char -> Prop) (w : str) :
  Forall P w -> Forall P (trim w).
Proof.
  intros H. unfold trim, trimEnd.
  apply Forall_rev, trimStart_Forall, Forall_rev, trimStart_Forall, H.
Qed.

Lemma companyPattern_every : every not_digit companyPattern.
Proof. unfold not_digit. simpl. repeat split; intros; ranges. Qed.

Lemma capitalizedPattern_every : every not_digit capitalizedPattern.
Proof. unfold not_digit. simpl. repeat split; intros; ranges. Qed.

Lemma acronymPattern_letters : every not_digit acronymPattern.
Proof. unfold not_digit. simpl. repeat split; intros; ranges. Qed.

Lemma moneyPattern_last : last_in not_digit moneyPattern.
Proof.
  unfold not_digit. simpl. repeat split; intros; try discriminate; ranges.
Qed.

Lemma datePattern_last : last_in not_digit datePattern.
Proof.
  unfold not_digit. simpl. repeat split; intros; try discriminate; ranges.
Qed.

Lemma largeNumPattern_last : last_in not_digit largeNumPattern.
Proof.
  unfold not_digit. simpl. repeat split; intros; try discriminate; ranges.
Qed.

Lemma proper_noun_chars (text x : str) :
  In x (extractProperNouns text) -> Forall not_digit x.
Proof.
  unfold extractProperNouns. intros H. apply filter_In in H.
  destruct H as (H & _). apply in_map_iff in H. destruct H as (y & <- & H).
  apply trim_Forall. apply in_app_or in H. destruct H as [H | H].
  - apply in_flat_map in H. destruct H as (g & Hg & Hy).
    destruct (2 <=? length (trim g)); [|contradiction].
    destruct Hy as [<- | []]. apply trim_Forall.
    unfold captures in Hg. apply in_map_iff in Hg. destruct Hg as (f & <- & Hf).
    pose proof (matches_group text companyPattern not_digit f Hf) as Hgr.
    destruct (m_group f) as [[gb ge]|]; [|constructor].
    apply Hgr. apply (shape_every _ _ companyPattern_every).
    now apply matches_from_sound in Hf.
  - apply in_app_or in H. destruct H as [H | H]; apply matchAll_shape in H.
    + exact (shape_every _ _ capitalizedPattern_every _ H).
    + exact (shape_every _ _ acronymPattern_letters _ H).
Qed.

Lemma number_token_last (text x : str) :
  In x (extractNumbers text) -> exists t c, x = t ++ [c] /\ not_digit c.
Proof.
  intros H. pose proof (number_token text x H) as Hl.
  destruct (last_or_nil _ x) as [-> | (t & c & ->)]; [simpl in Hl; lia|].
  exists t, c. split; [reflexivity|].
  unfold extractNumbers in H.
  apply in_app_or in H. destruct H as [H | H];
    [|apply in_app_or in H; destruct H as [H | H]];
    apply matchAll_shape in H.
  - exact (shape_last _ _ moneyPattern_last _ c t H eq_refl).
  - exact (shape_last _ _ datePattern_last _ c t H eq_refl).
  - exact (shape_last _ _ largeNumPattern_last _ c t H eq_refl).
Qed.

(** ** The weighted sequence *)

Lemma extractGeneralKeywords_empty (this : KeywordExtractor.t) :
  extractGeneralKeywords this [] = [].
Proof. reflexivity. Qed.

Lemma weighted_eq (this : KeywordExtractor.t) (text : str) (title : option str) :
  let titleKeywords := extractGeneralKeywords this (given title) in
  let properNouns := extractProperNouns text in
  weighted this text title
  = (titleKeywords ++ titleKeywords ++ titleKeywords)
    ++ (properNouns ++ properNouns)
    ++ extractGeneralKeywords this text
    ++ extractNumbers text.
Proof.
  unfold weighted. simpl.
  destruct (given title) as [|c t] eqn:E.
  - rewrite extractGeneralKeywords_empty. simpl. now rewrite <- !app_assoc.
  - now rewrite <- !app_assoc.
Qed.

Lemma weighted_length (this : KeywordExtractor.t) text title x :
  In x (weighted this text title) -> 2 <= length x.
Proof.
  rewrite weighted_eq. cbv zeta. rewrite !in_app_iff.
  intros [[H | [H | H]] | [[H | H] | [H | H]]];
    solve [ apply general_keyword in H; tauto
          | apply proper_noun in H; exact H
          | apply number_token in H; exact H ].
Qed.

Lemma weighted_not_index (this : KeywordExtractor.t) text title x :
  In x (weighted this text title) -> array_index x = None.
Proof.
  rewrite weighted_eq. cbv zeta. rewrite !in_app_iff. intros H.
  apply array_index_None.
  assert (Hg : forall txt, In x (extractGeneralKeywords this txt) ->
                           exists c, In c x /\ not_digit c).
  { intros txt Hx. apply general_keyword in Hx.
    destruct Hx as (_ & c & t & -> & Hc). exists c. split; [now left|].
    unfold not_digit, is_hangul, is_upper in *. destruct Hc; ranges. }
  assert (Hp : In x (extractProperNouns text) -> exists c, In c x /\ not_digit c).
  { intros Hx. pose proof (proper_noun text x Hx) as Hl.
    apply proper_noun_chars in Hx. destruct x as [|c t]; [simpl in Hl; lia|].
    exists c. split; [now left | now inversion Hx]. }
  assert (Hn : In x (extractNumbers text) -> exists c, In c x /\ not_digit c).
  { intros Hx. apply number_token_last in Hx. destruct Hx as (t & c & -> & Hc).
    exists c. split; [|exact Hc]. apply in_or_app. right. now left. }
  destruct H as [[H | [H | H]] | [[H | H] | [H | H]]]; eauto.
Qed.

(** ** Ranking *)

Lemma FOP_impl_In (A : Type) (R R' : A -> A -> Prop) (l : list A) :
  (forall a b, In a l -> In b l -> R a b -> R' a b) ->
  ForallOrdPairs R l -> ForallOrdPairs R' l.
Proof.
  intros H Hl. induction Hl as [|a l Ha Hl IH]; constructor.
  - rewrite Forall_forall in *. intros b Hb.
    apply H; [now left | now right | now apply Ha].
  - apply IH. intros x y Hx Hy. apply H; now right.
Qed.

Lemma FOP_snoc (A : Type) (R : A -> A -> Prop) (l : list A) (k : A) :
  ForallOrdPairs R l -> Forall (fun a => R a k) l ->
  ForallOrdPairs R (l ++ [k]).
Proof.
  intros Hl Hk. induction Hl as [|a l Ha Hl IH]; simpl.
  - constructor; constructor.
  - inversion Hk; subst. constructor; [|now apply IH].
    apply Forall_app. split; [exact Ha | now constructor].
Qed.

Lemma FOP_map (A B : Type) (f : A -> B) (R : B -> B -> Prop) (l : list A) :
  ForallOrdPairs (fun x y => R (f x) (f y)) l -> ForallOrdPairs R (map f l).
Proof.
  induction 1 as [|a l Ha Hl IH]; simpl; constructor; [|exact IH].
  rewrite Forall_forall in *. intros b Hb. apply in_map_iff in Hb.
  destruct Hb as (x & <- & Hx). now apply Ha.
Qed.

Lemma FOP_firstn (A : Type) (R : A -> A -> Prop) (n : nat) (l : list A) :
  ForallOrdPairs R l -> ForallOrdPairs R (firstn n l).
Proof.
  intros H. revert n. induction H as [|a l Ha Hl IH]; intros [|n]; simpl;
    try constructor; [|apply IH].
  rewrite Forall_forall in *. intros b Hb. apply Ha.
  now apply firstn_In_incl in Hb.
Qed.

Lemma FOP_nth (A : Type) (R : A -> A -> Prop) (l : list A) :
  ForallOrdPairs R l ->
  forall i j a b, i < j -> nth_error l i = Some a -> nth_error l j = Some b ->
                  R a b.
Proof.
  induction 1 as [|x l Hx Hl IH]; intros i j a b Hij Hi Hj.
  - destruct i; discriminate.
  - destruct j as [|j]; [lia|]. simpl in Hj. destruct i as [|i].
    + simpl in Hi. inversion Hi; subst. rewrite Forall_forall in Hx.
      apply Hx. eapply nth_error_In. exact Hj.
    + simpl in Hi. apply (IH i j); [lia | assumption | assumption].
Qed.

Section Ranking.
Variable A : Type.
Variable comparefn : A -> A -> option Z.
Variable w : A -> Z.
Variable R : A -> A -> Prop.

Lemma insert_ranked (x : A) (l : list A) :
  (forall y, In y l -> SortCompare comparefn x y = (w y - w x)%Z) ->
  Forall (R x) l ->
  ForallOrdPairs (ranked w R) l ->
  ForallOrdPairs (ranked w R) (insert comparefn x l).
Proof.
  intros Hc Hx Hl. induction Hl as [|y l Hy Hl IH]; simpl.
  - constructor; constructor.
  - inversion Hx as [|? ? Hxy Hxl]; subst.
    rewrite (Hc y) by now left.
    destruct (w y - w x <=? 0)%Z eqn:E.
    + apply Z.leb_le in E. constructor; [|now constructor].
      constructor.
      * split; [lia | intros _; exact Hxy].
      * rewrite Forall_forall in *. intros z Hz.
        destruct (Hy z Hz) as (Hw & _). split; [lia | intros _; now apply Hxl].
    + apply Z.leb_gt in E. constructor.
      * eapply Permutation_Forall;
          [symmetry; apply insert_Permutation|].
        constructor; [split; [lia | intros; lia] | exact Hy].
      * apply IH; [|exact Hxl]. intros z Hz. apply Hc. now right.
Qed.

(** With a comparator that subtracts weights, [sort] puts larger weights
    first and keeps the order [R] of the input among equal weights. *)
Lemma sort_ranked (l : list A) :
  (forall x y, In x l -> In y l -> SortCompare comparefn x y = (w y - w x)%Z) ->
  ForallOrdPairs R l ->
  ForallOrdPairs (ranked w R) (sort comparefn l).
Proof.
  intros Hc Hl. induction Hl as [|x l Hx Hl IH]; simpl; [constructor|].
  apply insert_ranked.
  - intros y Hy. apply Hc; [now left | right].
    eapply Permutation_in; [apply sort_Permutation | exact Hy].
  - eapply Permutation_Forall; [symmetry; apply sort_Permutation | exact Hx].
  - apply IH. intros a b Ha Hb. apply Hc; now right.
Qed.
End Ranking.

(** ** The frequency object in first-seen order *)

Lemma put_keys (o : object) k v :
  map fst (put o k v)
  = if has (map fst o) k then map fst o else map fst o ++ [k].
Proof.
  induction o as [|[k' v'] o IH]; simpl; [reflexivity|].
  unfold has in *. simpl. destruct (eqb k k'); simpl; [reflexivity|].
  rewrite IH. now destruct (existsb (eqb k) (map fst o)).
Qed.

Lemma own_In (o : object) k v :
  NoDup (map fst o) -> In (k, v) o -> own o k = Some v.
Proof.
  induction o as [|[k' v'] o IH]; simpl; intros Hd Hin; [contradiction|].
  inversion Hd as [|? ? Hn Hd']; subst. destruct Hin as [E | Hin].
  - inversion E; subst. now rewrite eqb_refl.
  - destruct (eqb k k') eqn:E; [|now apply IH].
    apply eqb_eq in E. subst k'. exfalso. apply Hn.
    apply in_map_iff. now exists (k, v).
Qed.

Lemma index_of_app (x : str) (p q : list str) :
  In x p -> index_of x (p ++ q) = index_of x p.
Proof.
  induction p as [|y p IH]; simpl; [contradiction|].
  destruct (eqb x y) eqn:E; [reflexivity|]. intros [-> | H].
  - rewrite eqb_refl in E. discriminate.
  - f_equal. now apply IH.
Qed.

Lemma index_of_lt (x : str) (p : list str) : In x p -> index_of x p < length p.
Proof.
  induction p as [|y p IH]; simpl; [contradiction|].
  destruct (eqb x y) eqn:E; [lia|]. intros [-> | H].
  - rewrite eqb_refl in E. discriminate.
  - apply IH in H. lia.
Qed.

Lemma index_of_new (x : str) (p q : list str) :
  ~ In x p -> index_of x (p ++ x :: q) = length p.
Proof.
  induction p as [|y p IH]; simpl; intros H.
  - now rewrite eqb_refl.
  - destruct (eqb x y) eqn:E.
    + apply eqb_eq in E. subst. tauto.
    + f_equal. apply IH. tauto.
Qed.

Section FirstSeen.
Let step (freq : object) (keyword : str) : object :=
  set freq keyword (or_zero_plus_one (get freq keyword)).

Let first_seen (p : list str) (a b : str) : Prop := index_of a p < index_of b p.

(** The keys are the keywords seen so far, in the order in which they
    were first seen. *)
Lemma count_keys_order (keywords : list str) :
  forall o p,
    (forall k, In k keywords -> has Object_prototype k = false) ->
    (forall k, In k (map fst o) <-> In k p) ->
    ForallOrdPairs (first_seen (p ++ keywords)) (map fst o) ->
    ForallOrdPairs (first_seen (p ++ keywords))
                   (map fst (fold_left step keywords o)).
Proof.
  induction keywords as [|k l IH]; intros o p Hk Ho Hf; simpl; [exact Hf|].
  replace (p ++ k :: l) with ((p ++ [k]) ++ l) in *
    by now rewrite <- app_assoc.
  assert (E : eqb k (u "__proto__") = false).
  { apply eqb_neq. intros ->. specialize (Hk _ (or_introl eq_refl)).
    vm_compute in Hk. discriminate. }
  assert (Hkeys : map fst (step o k)
                  = if has (map fst o) k then map fst o else map fst o ++ [k]).
  { unfold step, set. rewrite E. apply put_keys. }
  apply IH.
  - intros k' Hk'. apply Hk. now right.
  - intros k'. rewrite Hkeys, in_app_iff. simpl.
    destruct (has (map fst o) k) eqn:Eh.
    + apply has_In in Eh. rewrite Ho in *. intuition (subst; auto).
    + rewrite in_app_iff, Ho. simpl. tauto.
  - rewrite Hkeys. destruct (has (map fst o) k) eqn:Eh; [exact Hf|].
    apply FOP_snoc; [exact Hf|].
    apply Forall_forall. intros a Ha. unfold first_seen.
    assert (Hn : ~ In k p).
    { rewrite <- Ho. intros Hin. apply has_In in Hin. congruence. }
    apply Ho in Ha.
    rewrite <- !app_assoc. simpl.
    rewrite (index_of_app a p (k :: l) Ha), (index_of_new k p l Hn).
    now apply index_of_lt.
Qed.
End FirstSeen.

Lemma countFrequency_order (keywords : list str) :
  (forall k, In k keywords -> has Object_prototype k = false) ->
  ForallOrdPairs (fun a b => index_of a keywords < index_of b keywords)
                 (map fst (countFrequency keywords)).
Proof.
  intros H. apply (count_keys_order keywords [] [] H).
  - simpl. tauto.
  - constructor.
Qed.

Lemma countFrequency_values (keywords : list str) k v :
  (forall k, In k keywords -> has Object_prototype k = false) ->
  In (k, v) (countFrequency keywords) ->
  v = Number (count_occ (list_eq_dec N.eq_dec) keywords k).
Proof.
  intros H Hin.
  assert (Hk : In k keywords).
  { apply countFrequency_keys_incl. apply in_map_iff. now exists (k, v). }
  pose proof (countFrequency_get keywords k (H k Hk) Hk) as Hg.
  unfold get in Hg.
  rewrite (own_In _ k v (countFrequency_keys_NoDup keywords) Hin) in Hg.
  exact Hg.
Qed.

Lemma entries_named (o : object) :
  (forall k, In k (map fst o) -> array_index k = None) -> entries o = o.
Proof.
  intros H. unfold entries.
  assert (E1 : indexed o = []).
  { unfold indexed. induction o as [|kv o IH]; simpl; [reflexivity|].
    rewrite (H (fst kv)) by now left. apply IH. intros k Hk. apply H. now right. }
  assert (E2 : named o = o).
  { clear E1. unfold named. induction o as [|kv o IH]; simpl; [reflexivity|].
    rewrite (H (fst kv)) by now left. cbv iota. f_equal. apply IH.
    intros k Hk. apply H. now right. }
  now rewrite E1, E2.
Qed.

(** Apart from keywords that [Object.prototype] names, the ranking is
    the one C4 states: in the sequence returned by [extractKeywords] an
    earlier entry occurs at least as often in the weighted sequence as a
    later one, and when both occur equally often the earlier one is first
    seen before the later one. *)
Lemma extractKeywords_ranked (this : KeywordExtractor.t) (text : str)
    (title : option str) :
  let keywords := weighted this text title in
  let count := count_occ (list_eq_dec N.eq_dec) keywords in
  (forall k, In k keywords -> has Object_prototype k = false) ->
  forall i j a b,
    i < j ->
    nth_error (extractKeywords this text title) i = Some a ->
    nth_error (extractKeywords this text title) j = Some b ->
    count b <= count a
    /\ (count a = count b -> index_of a keywords < index_of b keywords).
Proof.
  intros keywords count Hk i j a b Hij Ha Hb.
  set (w := fun e : str * value => Z.of_nat (count (fst e))).
  set (R := fun x y : str * value =>
              index_of (fst x) keywords < index_of (fst y) keywords).
  assert (Hs : ForallOrdPairs (ranked w R)
                 (sort (fun a b => minus (snd b) (snd a))
                       (entries (countFrequency keywords)))).
  { rewrite entries_named.
    - apply sort_ranked.
      + intros [k1 v1] [k2 v2] H1 H2.
        apply (countFrequency_values keywords _ _ Hk) in H1.
        apply (countFrequency_values keywords _ _ Hk) in H2.
        subst v1 v2. reflexivity.
      + pose proof (countFrequency_order keywords Hk) as Ho.
        clear -Ho. unfold R. induction (countFrequency keywords) as [|e o IH];
          simpl in *; [constructor|].
        inversion Ho as [|? ? He Ho']; subst. constructor; [|now apply IH].
        rewrite Forall_forall in *. intros y Hy. apply He.
        apply in_map_iff. now exists y.
    - intros k Hin. apply countFrequency_keys_incl in Hin.
      exact (weighted_not_index this text title k Hin). }
  unfold extractKeywords, getTopKeywords in Ha, Hb. fold keywords in Ha, Hb.
  destruct (slice0_firstn _ (map fst (sort (fun a b => minus (snd b) (snd a))
              (entries (countFrequency keywords)))) (maxTags this)) as (n & E).
  rewrite E in Ha, Hb.
  assert (Hout : ForallOrdPairs
            (fun x y => (Z.of_nat (count y) <= Z.of_nat (count x))%Z
                        /\ (Z.of_nat (count x) = Z.of_nat (count y) ->
                            index_of x keywords < index_of y keywords))
            (firstn n (map fst (sort (fun a b => minus (snd b) (snd a))
                                     (entries (countFrequency keywords)))))).
  { apply FOP_firstn, FOP_map. exact Hs. }
  destruct (FOP_nth _ _ _ Hout i j a b Hij Ha Hb) as (H1 & H2).
  split; [lia | intros Heq; apply H2; lia].
Qed.

(** ** The refiner *)

Section Refiner.
Variable fetch : request -> completion response.
Variable JSON_parse : option json -> completion json.
Variable settings : AIServiceSettings.
Variable tags : list str.
Variable noteContent : str.

Lemma parse_tags_Normal (content : option json) :
  (forall l, JSON_parse content <> Normal (JArray l)) ->
  quotedIn content = [] ->
  try_catch (parse_tags JSON_parse tags content) (fun _ => Normal tags)
  = Normal tags.
Proof.
  intros Hp Hq. unfold parse_tags.
  destruct (JSON_parse content) as [v | e] eqn:E.
  - destruct v; try reflexivity. now destruct (Hp l).
  - destruct content as [[ | | | c | | ]|]; try reflexivity.
    simpl in Hq. now rewrite Hq.
Qed.

(** No completion of the refiner is a rejection. *)
Lemma refineTags_resolves :
  exists out, refineTags fetch JSON_parse settings tags noteContent = Normal out.
Proof.
  unfold refineTags.
  destruct (negb (useAI settings) || _); [eauto|].
  destruct (bind _ _); simpl; eauto.
Qed.
End Refiner.

(* ================================================================= *)
(** * The claims *)

(** C1, as stated, fails: a [maxTags] of 0 is not rejected.  The
    constructor completes normally, with an extractor that holds 0. *)
Lemma constructor_accepts_zero :
  (forall e, constructor (Some 0%Z) <> Throw e)
  /\ exists this, constructor (Some 0%Z) = Normal this /\ maxTags this = 0%Z.
Proof.
  split.
  - intros e H. discriminate H.
  - exists (init 0). split; reflexivity.
Qed.

(** C2 fails on the code: the proper-noun mode does not consult the
    stopword lists that the general mode filters with.  The text [THE]
    yields the tag [THE], which the Latin list holds in lower case and the
    general mode drops; in a note titled [Memo] the text [READ THE MANUAL]
    yields it too; and the company name of the last text is an entry of
    the Hangul list. *)
Theorem stopword_reaches_output :
  (extractKeywords (init 10) (u "THE") None = [u "THE"]
   /\ has (stopwordsEn (init 10)) (toLowerCase (u "THE")) = true
   /\ extractGeneralKeywords (init 10) (u "THE") = []
   /\ extractProperNouns (u "THE") = [u "THE"])
  /\ extractKeywords (init 10) (u "READ THE MANUAL") (Some (u "Memo"))
     = map u ["Memo"; "READ"; "MANUAL"; "THE"]%string
  /\ (extractKeywords (init 10) (u "주식회사 관계") None
      = [u "관계"; u "주식회사"]
      /\ has (stopwordsKo (init 10)) (u "관계") = true).
Proof. vm_compute. repeat split. Qed.

(** C3, as stated, fails: the Hangul word of length 2 below is stripped
    to a single syllable, and the one of length 3 to nothing. *)
Lemma cleanKoreanWord_below_two :
  Forall is_hangul (u "이는") /\ 2 <= length (u "이는")
  /\ cleanKoreanWord (init 10) (u "이는") = u "이"
  /\ length (cleanKoreanWord (init 10) (u "이는")) < 2
  /\ cleanKoreanWord (init 10) (u "에서는") = [].
Proof.
  split; [repeat constructor|].
  vm_compute. repeat split; repeat constructor.
Qed.

(** C3, amended: the length is tested before a pass, on the word as it
    is, not on what the pass would leave.  A word shorter than 2 is
    returned as it is, without a pass; so is a word of length 2 or more
    that a pass leaves unchanged (it ends in no listed suffix); any other
    word undergoes a pass, and the stripper goes on with what is left as
    it does from the start.  Hence the result is a prefix of the word that
    is shorter than 2 or that a further pass leaves unchanged, and it can
    be shorter than 2.  [extractGeneralKeywords] discards such results with
    its own length check: each of its keywords has length 2 or more. *)
Theorem cleanKoreanWord_result (maxTags : Z) (word : str) :
  let this := init maxTags in
  let pass := fun w => replace_first w (suffixPattern this) in
  let r := cleanKoreanWord this word in
  (length word < 2 -> r = word)
  /\ (2 <= length word -> pass word = word -> r = word)
  /\ (2 <= length word -> pass word <> word ->
      r = cleanKoreanWord this (pass word))
  /\ (exists rest, word = r ++ rest)
  /\ (length r < 2 \/ pass r = r)
  /\ forall text,
       Forall (fun keyword => 2 <= length keyword)
              (extractGeneralKeywords this text).
Proof.
  intros this pass r. repeat split.
  - apply cleanLoop_short.
  - intros _ H. apply cleanLoop_fixed. now right.
  - apply cleanLoop_again.
  - apply cleanLoop_prefix.
  - apply cleanLoop_stops.
  - intros text. apply Forall_forall. intros x H.
    now apply general_keyword in H.
Qed.

(** C4 fails on the code: the frequency object is a plain [{}], so the
    first read of a keyword that [Object.prototype] defines finds an
    inherited function, [+ 1] makes a string of it, and the comparator of
    the sort yields [NaN] for it.  Below, [constructor] occurs twice in
    the counted sequence and [NASA] three times, and [constructor] is
    returned first; so it is in a note titled [Memo]. *)
Theorem inherited_name_outranks :
  let text := u "㈜constructor, NASA" in
  let keywords := weighted (init 10) text None in
  keywords = map u ["constructor"; "NASA"; "constructor"; "NASA"; "NASA"]%string
  /\ count_occ (list_eq_dec N.eq_dec) keywords (u "constructor") = 2
  /\ count_occ (list_eq_dec N.eq_dec) keywords (u "NASA") = 3
  /\ countFrequency keywords = [(u "constructor", Text); (u "NASA", Number 3)]
  /\ extractKeywords (init 10) text None = [u "constructor"; u "NASA"]
  /\ extractKeywords (init 10) text (Some (u "Memo"))
     = map u ["Memo"; "constructor"; "NASA"]%string.
Proof. vm_compute. repeat split. Qed.

(** C5: an extractor constructed with a positive [maxTags = N] returns at
    most [N] keywords, for every text and title. *)
Theorem extractKeywords_at_most_maxTags (N : Z) (this : KeywordExtractor.t)
    (text : str) (title : option str) :
  (0 < N)%Z -> constructor (Some N) = Normal this ->
  (Z.of_nat (length (extractKeywords this text title)) <= N)%Z.
Proof.
  intros HN Hc. inversion Hc; subst this; clear Hc.
  unfold extractKeywords, getTopKeywords. now apply slice0_length.
Qed.

(** C5 at a concrete input: four acronyms and [maxTags = 2]. *)
Lemma extractKeywords_at_most_maxTags_witness :
  (0 < 2)%Z /\ constructor (Some 2%Z) = Normal (init 2)
  /\ (Z.of_nat (length (extractKeywords (init 2) (u "AAA BBB CCC DDD") None))
      <= 2)%Z.
Proof.
  split; [lia|]. split; [reflexivity|].
  apply (extractKeywords_at_most_maxTags 2 (init 2)); [lia | reflexivity].
Defined.

(** C6: the sequence returned by [extractKeywords] holds no string
    twice, for every extractor, text and title. *)
Theorem extractKeywords_NoDup (this : KeywordExtractor.t) (text : str)
    (title : option str) :
  NoDup (extractKeywords this text title).
Proof.
  unfold extractKeywords. apply getTopKeywords_NoDup.
  apply countFrequency_keys_NoDup.
Qed.

(** C7: for every text and title, the sequence that is counted is the
    title's general keywords three times, then the text's proper nouns
    twice, then the text's general keywords, then its numeric and date
    tokens, and the ranker is fed the counts of this sequence; and a term
    that occurs among the title's keywords and nowhere else is counted 3
    times its number of occurrences there. *)
Theorem title_term_weight (this : KeywordExtractor.t) (text : str)
    (title : option str) :
  let titleKeywords := extractGeneralKeywords this (given title) in
  let properNouns := extractProperNouns text in
  let bodyKeywords := extractGeneralKeywords this text in
  let numbers := extractNumbers text in
  weighted this text title
  = (titleKeywords ++ titleKeywords ++ titleKeywords)
    ++ (properNouns ++ properNouns) ++ bodyKeywords ++ numbers
  /\ extractKeywords this text title
     = getTopKeywords (countFrequency (weighted this text title))
                      (maxTags this)
  /\ forall term,
       In term titleKeywords ->
       ~ In term properNouns -> ~ In term bodyKeywords -> ~ In term numbers ->
       get (countFrequency (weighted this text title)) term
       = Number (3 * count_occ (list_eq_dec N.eq_dec) titleKeywords term).
Proof.
  intros tk pn body numbers.
  split; [apply weighted_eq|]. split; [reflexivity|].
  intros term Ht Hp Hb Hn.
  rewrite countFrequency_get.
  - f_equal. rewrite weighted_eq. cbv zeta. fold tk pn body numbers.
    rewrite !count_occ_app.
    rewrite (proj1 (count_occ_not_In _ pn term) Hp).
    rewrite (proj1 (count_occ_not_In _ body term) Hb).
    rewrite (proj1 (count_occ_not_In _ numbers term) Hn).
    unfold str, char. lia.
  - exact (general_keyword_own this (given title) term Ht).
  - rewrite weighted_eq. cbv zeta. rewrite !in_app_iff. auto.
Qed.

(** C7 at a concrete input: [Apple] occurs once in the title and not in
    the text, and is counted 3 times. *)
Lemma title_term_weight_witness :
  let this := init 10 in
  let text := u "NASA launch" in
  let title := Some (u "Apple News") in
  let term := u "Apple" in
  weighted this text title = map u ["Apple"; "News"; "Apple"; "News";
                                    "Apple"; "News"; "NASA"; "NASA";
                                    "NASA"]%string
  /\ In term (extractGeneralKeywords this (given title))
  /\ ~ In term (extractProperNouns text)
  /\ ~ In term (extractGeneralKeywords this text)
  /\ ~ In term (extractNumbers text)
  /\ get (countFrequency (weighted this text title)) term = Number 3.
Proof.
  intros this text title term.
  assert (H1 : In term (extractGeneralKeywords this (given title)))
    by (vm_compute; auto).
  assert (H2 : ~ In term (extractProperNouns text))
    by (intros H; apply has_In in H; vm_compute in H; discriminate H).
  assert (H3 : ~ In term (extractGeneralKeywords this text))
    by (intros H; apply has_In in H; vm_compute in H; discriminate H).
  assert (H4 : ~ In term (extractNumbers text))
    by (intros H; apply has_In in H; vm_compute in H; discriminate H).
  split.
  { rewrite (proj1 (title_term_weight this text title)).
    vm_compute. reflexivity. }
  split; [exact H1|]. split; [exact H2|]. split; [exact H3|].
  split; [exact H4|].
  exact (proj2 (proj2 (title_term_weight this text title)) term H1 H2 H3 H4).
Defined.

(** C8: stripping is idempotent.  For every extractor and every word,
    [cleanKoreanWord] applied to its own result returns that result. *)
Theorem cleanKoreanWord_idempotent (this : KeywordExtractor.t) (word : str) :
  cleanKoreanWord this (cleanKoreanWord this word) = cleanKoreanWord this word.
Proof.
  unfold cleanKoreanWord at 1. apply cleanLoop_fixed. apply cleanLoop_stops.
Qed.

(** C9: the refiner returns the tags it was given, as a normal result and
    not as an error, whenever refinement is switched off, the key is
    absent, the request fails, the response is not a success, its body or
    message content cannot be read, or the content neither parses as an
    array nor holds a quoted substring. *)
Theorem refineTags_falls_back
    (fetch : request -> completion response)
    (JSON_parse : option json -> completion json)
    (settings : AIServiceSettings) (tags : list str) (noteContent : str) :
  fails fetch JSON_parse settings tags noteContent ->
  refineTags fetch JSON_parse settings tags noteContent = Normal tags.
Proof.
  unfold fails, refineTags. intros H.
  destruct (negb (useAI settings)
            || match openaiApiKey settings with [] => true | _ => false end)
    eqn:E; [reflexivity|].
  apply orb_false_iff in E. destruct E as (E1 & E2).
  destruct H as [H | [H | H]].
  - rewrite H in E1. discriminate.
  - rewrite H in E2. discriminate.
  - destruct (fetch (build_request settings tags noteContent)) as [r | e];
      [|reflexivity].
    simpl. destruct (ok r); simpl; [|reflexivity].
    destruct H as [H | H]; [discriminate|].
    destruct (json_body r) as [data | e]; [|reflexivity].
    simpl. destruct (message_content data) as [content | e]; [|reflexivity].
    simpl. destruct H as (Hp & Hq). now apply parse_tags_Normal.
Qed.

(** C9 at a concrete input: a success response whose message content is
    neither JSON nor holds a quoted substring. *)
Lemma refineTags_falls_back_witness :
  let fetch := fun _ : request =>
    Normal {| ok := true; statusText := u "OK";
              json_body := Normal (JObject [(u "choices", JArray [JObject
                [(u "message", JObject
                   [(u "content", JString (u "no tags here"))])]])]) |} in
  let JSON_parse := fun _ : option json => @Throw json SyntaxError in
  let settings := {| openaiApiKey := u "sk-test"; model := u "gpt-4";
                     useAI := true |} in
  let tags := [u "삼성전자"; u "NASA"] in
  fails fetch JSON_parse settings tags (u "note")
  /\ refineTags fetch JSON_parse settings tags (u "note") = Normal tags.
Proof.
  intros fetch JSON_parse settings tags.
  assert (H : fails fetch JSON_parse settings tags (u "note")).
  { right. right. vm_compute. right. split; [|reflexivity].
    intros l E. discriminate E. }
  split; [exact H|].
  exact (refineTags_falls_back fetch JSON_parse settings tags (u "note") H).
Defined.

(** C10: every string returned by [extractKeywords] has length 2 or
    more, for every extractor, text and title, and so has every candidate
    of each extraction mode. *)
Theorem extractKeywords_length (this : KeywordExtractor.t) (text : str)
    (title : option str) :
  Forall (fun tag => 2 <= length tag) (extractGeneralKeywords this text)
  /\ Forall (fun tag => 2 <= length tag) (extractProperNouns text)
  /\ Forall (fun tag => 2 <= length tag) (extractNumbers text)
  /\ Forall (fun tag => 2 <= length tag) (extractKeywords this text title).
Proof.
  repeat split; apply Forall_forall; intros x H.
  - now apply general_keyword in H.
  - now apply proper_noun in H.
  - now apply number_token in H.
  - unfold extractKeywords in H.
    apply getTopKeywords_incl, countFrequency_keys_incl in H.
    exact (weighted_length this text title x H).
Qed.

(* ================================================================= *)
(** * Further properties of the extractor *)

(** ** What a group captures *)

Section Captured.
Variable s : str.

Lemma group_captured_Seq (r1 r2 : regex) (a b c : state) :
  fst a <= fst b -> fst b <= fst c ->
  group_captured s r1 a b -> group_captured s r2 b c ->
  group_captured s (Seq r1 r2) a c.
Proof.
  unfold group_captured. simpl.
  intros Hab Hbc [E1 | (gb & ge & E1 & ? & ? & ? & ?)]
         [E2 | (gb' & ge' & E2 & ? & ? & ? & ?)].
  - left. congruence.
  - right. exists gb', ge'. repeat split; auto; lia.
  - right. exists gb, ge. rewrite E2. repeat split; auto; lia.
  - right. exists gb', ge'. repeat split; auto; lia.
Qed.

Lemma repeat_ends_captured (r1 : regex) (lo0 : nat) (hi0 : option nat) :
  (forall st st', In st' (ends s r1 st) -> fst st <= length s ->
     group_captured s r1 st st') ->
  forall room lo hi st st',
    In st' (repeat_ends (ends s r1) room lo hi st) -> fst st <= length s ->
    group_captured s (Rep lo0 hi0 r1) st st'.
Proof.
  intros Hm. induction room as [|room IH]; intros lo hi st st' Hin Hst;
    simpl in Hin; [contradiction|].
  apply in_app_or in Hin. destruct Hin as [Hin | Hin].
  - assert (Hit : In st' (flat_map (fun st1 =>
               if fst st <? fst st1
               then repeat_ends (ends s r1) room (pred lo) (option_map pred hi) st1
               else []) (ends s r1 st))).
    { destruct hi as [[|h]|]; [contradiction | exact Hin | exact Hin]. }
    clear Hin. apply in_flat_map in Hit. destruct Hit as (st1 & H1 & H2).
    destruct (ends_sound s r1 _ _ H1 Hst) as (Ha & Hb & _).
    destruct (fst st <? fst st1); [|contradiction].
    pose proof (Hm _ _ H1 Hst) as Hg1.
    pose proof (IH _ _ _ _ H2 Hb) as Hg2.
    destruct (repeat_ends_sound s (ends s r1) (shape r1) (ends_sound s r1)
                _ _ _ _ _ H2 Hb) as (Hc & _).
    unfold group_captured in *. simpl in *.
    destruct Hg1 as [E1 | (gb & ge & E1 & ? & ? & ? & ?)];
      destruct Hg2 as [E2 | (gb' & ge' & E2 & ? & ? & ? & ?)].
    + left. congruence.
    + right. exists gb', ge'. repeat split; auto; lia.
    + right. exists gb, ge. rewrite E2. repeat split; auto; lia.
    + right. exists gb', ge'. repeat split; auto; lia.
  - destruct (lo =? 0); [|contradiction]. destruct Hin as [<- | []]. now left.
Qed.

Lemma ends_captured (r : regex) :
  forall st st', In st' (ends s r st) -> fst st <= length s ->
                 group_captured s r st st'.
Proof.
  induction r as [ | C | r1 IH1 r2 IH2 | r1 IH1 r2 IH2 | lo hi r1 IH1
                 | r1 IH1 | | ]; intros st st' Hin Hst;
    [simpl in Hin .. | idtac | simpl in Hin | simpl in Hin | simpl in Hin].
  - destruct Hin as [<- | []]. now left.
  - destruct (nth_error s (fst st)) as [c|]; [|contradiction].
    destruct (in_class C c); [|contradiction]. destruct Hin as [<- | []].
    now left.
  - apply in_flat_map in Hin. destruct Hin as (st1 & H1 & H2).
    destruct (ends_sound s r1 _ _ H1 Hst) as (Ha & Hb & _).
    destruct (ends_sound s r2 _ _ H2 Hb) as (Hc & _).
    apply (group_captured_Seq r1 r2 st st1 st'); auto.
  - apply in_app_or in Hin. unfold group_captured. simpl.
    destruct Hin as [Hin | Hin];
      [destruct (IH1 _ _ Hin Hst) as [E | (gb & ge & E & ? & ? & ? & ?)]
      |destruct (IH2 _ _ Hin Hst) as [E | (gb & ge & E & ? & ? & ? & ?)]];
      try (now left); right; exists gb, ge; repeat split; auto.
  - exact (repeat_ends_captured r1 lo hi IH1 _ lo hi st st' Hin Hst).
  - apply in_map_iff in Hin. destruct Hin as (st1 & <- & H1).
    destruct (ends_sound s r1 _ _ H1 Hst) as (Ha & Hb & Hs).
    right. exists (fst st), (fst st1). simpl. repeat split; auto.
  - destruct (word_boundary s (fst st)); [|contradiction].
    destruct Hin as [<- | []]. now left.
  - destruct (fst st =? length s); [|contradiction].
    destruct Hin as [<- | []]. now left.
Qed.

(** What [captures] returns is empty or a word of the group. *)
Lemma captures_captured (r : regex) (g : str) :
  In g (captures s r) -> g = [] \/ captured r g.
Proof.
  unfold captures. intros H. apply in_map_iff in H. destruct H as (f & <- & Hf).
  apply matches_from_sound in Hf. destruct Hf as (Hbe & He & _ & Hin).
  destruct (ends_captured r _ _ Hin) as [E | (gb & ge & E & _ & _ & _ & Hc)];
    simpl in *; [lia | |].
  - rewrite E. now left.
  - rewrite E. now right.
Qed.
End Captured.

(** ** What keywords are made of *)

Lemma covers_sound (m l : list (N * N)) :
  covers m l = true ->
  forall c, in_ranges l c = true -> in_ranges m c = true.
Proof.
  unfold covers, in_ranges. intros H c Hc.
  rewrite forallb_forall in H. apply existsb_exists in Hc.
  destruct Hc as (r & Hr & Hc). specialize (H r Hr).
  apply existsb_exists in H. destruct H as (r' & Hr' & H).
  apply existsb_exists. exists r'. split; [exact Hr'|].
  rewrite !andb_true_iff, !N.leb_le in *. lia.
Qed.

Lemma apart_sound (l m : list (N * N)) :
  apart l m = true ->
  forall c, in_ranges l c = true -> in_ranges m c = false.
Proof.
  unfold apart, in_ranges. intros H c Hc.
  rewrite forallb_forall in H. apply existsb_exists in Hc.
  destruct Hc as (r & Hr & Hc). specialize (H r Hr).
  rewrite forallb_forall in H.
  apply not_true_iff_false. intros Hm. apply existsb_exists in Hm.
  destruct Hm as (r' & Hr' & Hm). specialize (H r' Hr').
  rewrite !andb_true_iff, !N.leb_le in *.
  rewrite orb_true_iff, !N.ltb_lt in H. lia.
Qed.

(** Closes a goal on the class of a code unit from the hypothesis that it
    lies in a class, by comparing the ranges. *)
Ltac tag_classes :=
  unfold tag_char, tag_ranges, no_starter, starters, is_hangul, is_upper,
    not_space, not_digit, hangulOrLetter in *;
  match goal with
  | H : in_class (Ranges ?l) ?c = true |- in_ranges ?m ?c = true =>
    exact (covers_sound m l ltac:(vm_compute; reflexivity) c H)
  | H : in_ranges ?l ?c = true |- in_ranges ?m ?c = true =>
    exact (covers_sound m l ltac:(vm_compute; reflexivity) c H)
  | H : in_class (Ranges ?l) ?c = true |- in_ranges ?m ?c = false =>
    exact (apart_sound l m ltac:(vm_compute; reflexivity) c H)
  | H : in_ranges ?l ?c = true |- in_ranges ?m ?c = false =>
    exact (apart_sound l m ltac:(vm_compute; reflexivity) c H)
  end.

Lemma patterns_tag_chars :
  every tag_char koPattern /\ every tag_char enPattern
  /\ every tag_char capitalizedPattern /\ every tag_char acronymPattern
  /\ every tag_char moneyPattern /\ every tag_char datePattern
  /\ every tag_char largeNumPattern.
Proof. simpl. repeat split; intros; tag_classes. Qed.

Lemma companyPattern_captured (w : str) :
  captured companyPattern w -> Forall tag_char w.
Proof.
  intros H. simpl in H.
  assert (Hs : shape (Seq (plus (Chr hangulOrLetter))
                          (opt (Seq (plus (Chr (Ranges space)))
                                    (plus (Chr hangulOrLetter))))) w) by tauto.
  revert Hs. apply shape_every. simpl. repeat split; intros; tag_classes.
Qed.

Section KeywordChars.
Variable this : KeywordExtractor.t.
Variable text : str.

Lemma general_keyword_chars (P : char -> Prop) x :
  every P koPattern -> every P enPattern ->
  In x (extractGeneralKeywords this text) -> Forall P x.
Proof.
  intros Hko Hen. unfold extractGeneralKeywords. intros H.
  apply in_app_or in H. destruct H as [H | H].
  - apply in_flat_map in H. destruct H as (word & Hw & Hx).
    destruct ((2 <=? length (cleanKoreanWord this word))
              && negb (has (stopwordsKo this) (cleanKoreanWord this word)));
      [|contradiction].
    destruct Hx as [<- | []]. apply cleanLoop_Forall.
    exact (shape_every P koPattern Hko _ (matchAll_shape _ _ _ Hw)).
  - apply filter_In in H. destruct H as (H & _).
    exact (shape_every P enPattern Hen _ (matchAll_shape _ _ _ H)).
Qed.

Lemma proper_noun_tag_chars x :
  In x (extractProperNouns text) -> Forall tag_char x.
Proof.
  unfold extractProperNouns. intros H. apply filter_In in H.
  destruct H as (H & _). apply in_map_iff in H. destruct H as (y & <- & H).
  apply trim_Forall. apply in_app_or in H. destruct H as [H | H].
  - apply in_flat_map in H. destruct H as (g & Hg & Hy).
    destruct (2 <=? length (trim g)); [|contradiction].
    destruct Hy as [<- | []]. apply trim_Forall.
    destruct (captures_captured text companyPattern g Hg) as [-> | Hc];
      [constructor | now apply companyPattern_captured].
  - apply in_app_or in H. destruct H as [H | H]; apply matchAll_shape in H.
    + exact (shape_every _ _ (proj1 (proj2 (proj2 patterns_tag_chars))) _ H).
    + exact (shape_every _ _
               (proj1 (proj2 (proj2 (proj2 patterns_tag_chars)))) _ H).
Qed.

Lemma number_token_tag_chars x :
  In x (extractNumbers text) -> Forall tag_char x.
Proof.
  unfold extractNumbers. intros H.
  destruct patterns_tag_chars as (_ & _ & _ & _ & Hm & Hd & Hl).
  apply in_app_or in H. destruct H as [H | H];
    [|apply in_app_or in H; destruct H as [H | H]];
    apply matchAll_shape in H; revert H; now apply shape_every.
Qed.

Lemma proper_noun_trimmed x : In x (extractProperNouns text) -> trim x = x.
Proof.
  unfold extractProperNouns. intros H. apply filter_In in H.
  destruct H as (H & _). apply in_map_iff in H. destruct H as (y & <- & _).
  apply trim_idempotent.
Qed.

Lemma number_token_trimmed x : In x (extractNumbers text) -> trim x = x.
Proof.
  unfold extractNumbers. intros H.
  assert (Hf : first_in not_space moneyPattern /\ first_in not_space datePattern
               /\ first_in not_space largeNumPattern).
  { simpl. repeat split; intros; try discriminate; tag_classes. }
  assert (Hl : last_in not_space moneyPattern /\ last_in not_space datePattern
               /\ last_in not_space largeNumPattern).
  { simpl. repeat split; intros; try discriminate; tag_classes. }
  destruct Hf as (Hf1 & Hf2 & Hf3). destruct Hl as (Hl1 & Hl2 & Hl3).
  apply in_app_or in H. destruct H as [H | H];
    [|apply in_app_or in H; destruct H as [H | H]];
    apply matchAll_shape in H; apply trim_word; intros c t E.
  - exact (shape_first _ _ Hf1 _ c t H E).
  - exact (shape_last _ _ Hl1 _ c t H E).
  - exact (shape_first _ _ Hf2 _ c t H E).
  - exact (shape_last _ _ Hl2 _ c t H E).
  - exact (shape_first _ _ Hf3 _ c t H E).
  - exact (shape_last _ _ Hl3 _ c t H E).
Qed.
End KeywordChars.

Lemma general_keyword_trimmed (this : KeywordExtractor.t) (text x : str) :
  In x (extractGeneralKeywords this text) -> trim x = x.
Proof.
  intros H.
  assert (Hall : Forall not_space x).
  { revert H. apply general_keyword_chars; simpl; repeat split; intros;
      tag_classes. }
  destruct (Forall_head_last _ _ Hall) as (Hh & Hl). now apply trim_word.
Qed.

Lemma weighted_cases (this : KeywordExtractor.t) text title x :
  In x (weighted this text title) ->
  In x (extractGeneralKeywords this (given title))
  \/ In x (extractProperNouns text)
  \/ In x (extractGeneralKeywords this text)
  \/ In x (extractNumbers text).
Proof.
  rewrite weighted_eq. cbv zeta. rewrite !in_app_iff. tauto.
Qed.

Lemma weighted_tag_chars (this : KeywordExtractor.t) text title x :
  In x (weighted this text title) -> Forall tag_char x.
Proof.
  intros H. destruct patterns_tag_chars as (Hko & Hen & _).
  destruct (weighted_cases _ _ _ _ H) as [H1 | [H1 | [H1 | H1]]].
  - revert H1. now apply general_keyword_chars.
  - now apply proper_noun_tag_chars in H1.
  - revert H1. now apply general_keyword_chars.
  - now apply number_token_tag_chars in H1.
Qed.

Lemma weighted_not_proto (this : KeywordExtractor.t) text title x :
  In x (weighted this text title) -> x <> u "__proto__".
Proof.
  intros H E. apply weighted_tag_chars in H. rewrite E in H.
  inversion H as [|c t Hc _]; subst. unfold tag_char in Hc.
  vm_compute in Hc. discriminate.
Qed.

(** ** Counting and the size of the result *)

Section Complete.
Let step (freq : object) (keyword : str) : object :=
  set freq keyword (or_zero_plus_one (get freq keyword)).

Lemma count_keys_complete (keywords : list str) :
  (forall k, In k keywords -> k <> u "__proto__") ->
  forall o k, In k (map fst o) \/ In k keywords ->
              In k (map fst (fold_left step keywords o)).
Proof.
  induction keywords as [|k0 l IH]; intros Hp o k H; simpl.
  - destruct H as [H | []]. exact H.
  - apply IH; [intros k' Hk'; apply Hp; now right|].
    assert (E : eqb k0 (u "__proto__") = false).
    { apply eqb_neq. apply Hp. now left. }
    unfold step, set. rewrite E, put_keys.
    destruct (has (map fst o) k0) eqn:Eh.
    + apply has_In in Eh. destruct H as [H | [<- | H]]; auto.
    + rewrite in_app_iff. simpl. destruct H as [H | [<- | H]]; auto.
Qed.
End Complete.

Lemma countFrequency_distinct (keywords : list str) :
  (forall k, In k keywords -> k <> u "__proto__") ->
  Permutation (map fst (countFrequency keywords)) (distinct keywords).
Proof.
  intros Hp. apply NoDup_Permutation.
  - apply countFrequency_keys_NoDup.
  - apply NoDup_nodup.
  - intros k. unfold distinct. rewrite nodup_In. split.
    + apply countFrequency_keys_incl.
    + intros H. apply (count_keys_complete keywords Hp []). now right.
Qed.

Lemma getTopKeywords_length (freq : object) (topN : Z) :
  length (getTopKeywords freq topN)
  = Z.to_nat (if (topN <? 0)%Z
              then Z.max (Z.of_nat (length freq) + topN) 0
              else Z.min topN (Z.of_nat (length freq))).
Proof.
  unfold getTopKeywords, slice0.
  rewrite length_firstn, length_map.
  rewrite (Permutation_length (sort_Permutation _ _ _)).
  rewrite (Permutation_length (entries_Permutation freq)).
  destruct (topN <? 0)%Z eqn:E; [apply Z.ltb_lt in E | apply Z.ltb_ge in E]; lia.
Qed.

(** ** The limit that the constructor stores *)

(** C1, amended: the constructor checks nothing.  Whatever [maxTags] it is
    given, positive or not, it completes normally with an extractor that
    holds this very value (10 when none is given), and the value is not
    clamped afterwards: it reaches [slice(0, maxTags)] as it is.  An
    extractor constructed with 0 returns no keyword, for every text and
    title; one constructed with a negative value [-k] returns the ranking
    of the distinct candidates (what an extractor whose limit is their
    number returns) without its last [k] entries, nothing when there are
    no more than [k]. *)
Theorem constructor_stores_maxTags (n : option Z) :
  let m := match n with Some m => m | None => 10%Z end in
  exists this,
    constructor n = Normal this
    /\ maxTags this = m
    /\ forall text title,
         let d := Z.of_nat (length (distinct (weighted this text title))) in
         ((m = 0)%Z -> extractKeywords this text title = [])
         /\ ((m < 0)%Z ->
             extractKeywords this text title
             = firstn (Z.to_nat (Z.max (d + m) 0))
                      (extractKeywords (init d) text title)
             /\ length (extractKeywords (init d) text title) = Z.to_nat d).
Proof.
  intros m. exists (init m). split; [now destruct n|]. split; [reflexivity|].
  clearbody m. intros text title d.
  assert (Hd : (0 <= d)%Z) by (unfold d; lia).
  assert (E : Z.of_nat (length (map fst
                 (sort (fun a b => minus (snd b) (snd a))
                       (entries (countFrequency (weighted (init m) text title))))))
              = d).
  { rewrite length_map.
    rewrite (Permutation_length (sort_Permutation _ _ _)).
    rewrite (Permutation_length (entries_Permutation _)).
    rewrite <- (length_map fst). unfold d. f_equal.
    apply Permutation_length, countFrequency_distinct.
    intros k. apply weighted_not_proto. }
  clearbody d. split.
  - intros ->. unfold extractKeywords, getTopKeywords, slice0.
    cbn [maxTags init]. rewrite E.
    replace (Z.min 0 d) with 0%Z by lia. reflexivity.
  - intros Hm.
    unfold extractKeywords.
    change (weighted (init d) text title) with (weighted (init m) text title).
    unfold getTopKeywords, slice0. cbn [maxTags init]. rewrite E.
    replace (m <? 0)%Z with true by (symmetry; apply Z.ltb_lt; lia).
    replace (d <? 0)%Z with false by (symmetry; apply Z.ltb_ge; lia).
    rewrite Z.min_id. split.
    + f_equal. rewrite firstn_all2; [reflexivity|]. lia.
    + rewrite firstn_all2 by lia. lia.
Qed.

(** X1: the number of keywords returned is the number of distinct
    candidates cut to [maxTags]: for [maxTags >= 0] the smaller of the two;
    for a negative [maxTags = -k] all but [k] of them (none when there are
    no more than [k]). *)
Theorem extractKeywords_count (this : KeywordExtractor.t) (text : str)
    (title : option str) :
  let d := Z.of_nat (length (distinct (weighted this text title))) in
  length (extractKeywords this text title)
  = Z.to_nat (if (maxTags this <? 0)%Z
              then Z.max (d + maxTags this) 0
              else Z.min (maxTags this) d).
Proof.
  intros d. unfold extractKeywords. rewrite getTopKeywords_length.
  assert (E : length (countFrequency (weighted this text title))
              = length (distinct (weighted this text title))).
  { rewrite <- (length_map fst). apply Permutation_length.
    apply countFrequency_distinct. intros k. apply weighted_not_proto. }
  rewrite E. reflexivity.
Qed.

(** X2: the extractor invents nothing.  Every keyword it returns is a
    general keyword of the title or of the text, a proper noun of the text
    or a numeric or date token of the text. *)
Theorem extractKeywords_candidates (this : KeywordExtractor.t) (text : str)
    (title : option str) :
  incl (extractKeywords this text title)
       (extractGeneralKeywords this (given title)
        ++ extractProperNouns text
        ++ extractGeneralKeywords this text
        ++ extractNumbers text).
Proof.
  intros x H. unfold extractKeywords in H.
  apply getTopKeywords_incl, countFrequency_keys_incl, weighted_cases in H.
  rewrite !in_app_iff. exact H.
Qed.

(** X3: a keyword holds only Hangul syllables, ASCII letters and digits,
    commas and white space, and neither begins nor ends with white
    space. *)
Theorem extractKeywords_tag_chars (this : KeywordExtractor.t) (text : str)
    (title : option str) :
  Forall (fun tag => Forall tag_char tag /\ trim tag = tag)
         (extractKeywords this text title).
Proof.
  apply Forall_forall. intros x H. unfold extractKeywords in H.
  apply getTopKeywords_incl, countFrequency_keys_incl in H. split.
  - exact (weighted_tag_chars this text title x H).
  - destruct (weighted_cases _ _ _ _ H) as [H1 | [H1 | [H1 | H1]]].
    + exact (general_keyword_trimmed _ _ _ H1).
    + exact (proper_noun_trimmed _ _ H1).
    + exact (general_keyword_trimmed _ _ _ H1).
    + exact (number_token_trimmed _ _ H1).
Qed.

(** ** Texts without candidates *)

Lemma substring_incl (s : str) (b e : nat) (c : char) :
  In c (substring s b e) -> In c s.
Proof.
  unfold substring. intros H.
  apply firstn_In_incl, skipn_In_incl in H. exact H.
Qed.

(** A pattern finds nothing in a text that holds none of the code units
    its matches begin with. *)
Lemma matches_none (P : char -> Prop) (s : str) (r : regex) :
  first_in P r -> 0 < min_len r -> Forall (fun c => ~ P c) s ->
  matches s r = [].
Proof.
  intros Hf Hm Hs. unfold matches. simpl.
  destruct (exec s r 0) as [f|] eqn:E; [|reflexivity]. exfalso.
  destruct (exec_sound s r 0 f E) as (_ & _ & _ & Hsh & _).
  pose proof (shape_min_len _ _ Hsh) as Hl.
  destruct (nonempty_head (matched s f)) as (c & t & Ec); [lia|].
  pose proof (shape_first P r Hf _ c t Hsh Ec) as Hc.
  rewrite Forall_forall in Hs. apply (Hs c); [|exact Hc].
  apply (substring_incl s (m_begin f) (m_end f)).
  unfold matched in Ec. rewrite Ec. now left.
Qed.

Lemma patterns_starters :
  let P := fun c => in_ranges starters c = true in
  first_in P koPattern /\ first_in P enPattern /\ first_in P companyPattern
  /\ first_in P capitalizedPattern /\ first_in P acronymPattern
  /\ first_in P moneyPattern /\ first_in P datePattern
  /\ first_in P largeNumPattern.
Proof. simpl. repeat split; intros; try discriminate; tag_classes. Qed.

Lemma no_starter_matches (s : str) :
  Forall no_starter s ->
  matches s koPattern = [] /\ matches s enPattern = []
  /\ matches s companyPattern = [] /\ matches s capitalizedPattern = []
  /\ matches s acronymPattern = [] /\ matches s moneyPattern = []
  /\ matches s datePattern = [] /\ matches s largeNumPattern = [].
Proof.
  intros H.
  assert (Hs : Forall (fun c => ~ in_ranges starters c = true) s).
  { eapply Forall_impl; [|exact H]. unfold no_starter. intros c Hc. congruence. }
  destruct patterns_starters as (H1 & H2 & H3 & H4 & H5 & H6 & H7 & H8).
  repeat split;
    (eapply matches_none; [eassumption | vm_compute; lia | exact Hs]).
Qed.

Lemma no_starter_candidates (this : KeywordExtractor.t) (s : str) :
  Forall no_starter s ->
  extractGeneralKeywords this s = [] /\ extractProperNouns s = []
  /\ extractNumbers s = [].
Proof.
  intros H.
  destruct (no_starter_matches s H) as (H1 & H2 & H3 & H4 & H5 & H6 & H7 & H8).
  unfold extractGeneralKeywords, extractProperNouns, extractNumbers,
    matchAll, captures.
  rewrite H1, H2, H3, H4, H5, H6, H7, H8. repeat split.
Qed.

Lemma Forall_forallb (A : Type) (f : A -> bool) (l : list A) :
  forallb f l = true -> Forall (fun x => f x = true) l.
Proof. intros H. apply Forall_forall. now apply forallb_forall. Qed.

Lemma no_starter_forallb (s : str) :
  forallb (fun c => negb (in_ranges starters c)) s = true ->
  Forall no_starter s.
Proof.
  intros H. apply Forall_forallb in H. eapply Forall_impl; [|exact H].
  intros c Hc. now apply negb_true_iff in Hc.
Qed.

(** X4: a text and a title that hold no Hangul syllable, no capital
    letter, no digit and no company marker give no keyword at all (so
    does the empty text with the empty title). *)
Theorem extractKeywords_nothing (this : KeywordExtractor.t) (text : str)
    (title : option str) :
  Forall no_starter text -> Forall no_starter (given title) ->
  extractKeywords this text title = [].
Proof.
  intros Ht Hti. unfold extractKeywords.
  assert (E : weighted this text title = []).
  { rewrite weighted_eq. cbv zeta.
    destruct (no_starter_candidates this text Ht) as (-> & -> & ->).
    destruct (no_starter_candidates this (given title) Hti) as (-> & _).
    reflexivity. }
  rewrite E. unfold getTopKeywords, slice0. simpl. apply firstn_nil.
Qed.

(** X4 at a concrete input: a line in small letters. *)
Lemma extractKeywords_nothing_witness :
  Forall no_starter (u "notes on the meeting, see below.")
  /\ Forall no_starter (given (Some (u "untitled")))
  /\ extractKeywords (init 10) (u "notes on the meeting, see below.")
       (Some (u "untitled")) = [].
Proof.
  assert (H1 : Forall no_starter (u "notes on the meeting, see below."))
    by (apply no_starter_forallb; vm_compute; reflexivity).
  assert (H2 : Forall no_starter (given (Some (u "untitled"))))
    by (apply no_starter_forallb; vm_compute; reflexivity).
  split; [exact H1|]. split; [exact H2|].
  exact (extractKeywords_nothing (init 10) _ _ H1 H2).
Defined.

(** ** General keywords and the stopword lists *)

Lemma stopwords_scripts (n : Z) :
  Forall (fun w => forallb (in_ranges hangul) w = true) (stopwordsKo (init n))
  /\ Forall (fun w => forallb (in_ranges lower) w = true) (stopwordsEn (init n)).
Proof.
  split; apply Forall_forallb.
  - change (forallb (fun w => forallb (in_ranges hangul) w)
                    (stopwordsKo (init n)) = true).
    vm_compute. reflexivity.
  - change (forallb (fun w => forallb (in_ranges lower) w)
                    (stopwordsEn (init n)) = true).
    vm_compute. reflexivity.
Qed.

Lemma toLowerCase_hangul (x : str) : Forall is_hangul x -> toLowerCase x = x.
Proof.
  induction 1 as [|c x Hc _ IH]; simpl; [reflexivity|].
  rewrite IH. f_equal.
  replace (in_ranges upper c) with false; [reflexivity|].
  symmetry. unfold is_hangul in Hc. tag_classes.
Qed.

(** X5: no general keyword is on a stopword list, whichever mode found
    it: it is not an entry of the Hangul list and its lower-case form is
    not an entry of the Latin list.  This holds for the keywords of the
    title and for the general keywords of the text. *)
Theorem extractGeneralKeywords_no_stopword (n : Z) (text : str) :
  Forall (fun tag => has (stopwordsKo (init n)) tag = false
                     /\ has (stopwordsEn (init n)) (toLowerCase tag) = false)
         (extractGeneralKeywords (init n) text).
Proof.
  apply Forall_forall. intros x H.
  destruct (stopwords_scripts n) as (Hko & Hen).
  rewrite Forall_forall in Hko, Hen.
  unfold extractGeneralKeywords in H. apply in_app_or in H.
  destruct H as [H | H].
  - apply in_flat_map in H. destruct H as (word & Hw & Hx).
    destruct ((2 <=? length (cleanKoreanWord (init n) word))
              && negb (has (stopwordsKo (init n)) (cleanKoreanWord (init n) word)))
      eqn:E; [|contradiction].
    destruct Hx as [<- | []]. apply andb_true_iff in E. destruct E as (El & E).
    apply negb_true_iff in E. split; [exact E|].
    assert (Hall : Forall is_hangul (cleanKoreanWord (init n) word)).
    { apply cleanLoop_Forall.
      exact (shape_every is_hangul koPattern koPattern_every _
               (matchAll_shape _ _ _ Hw)). }
    rewrite (toLowerCase_hangul _ Hall).
    apply not_true_iff_false. intros Hin. apply has_In in Hin.
    apply Hen in Hin. apply Nat.leb_le in El.
    destruct (cleanKoreanWord (init n) word) as [|c t]; [simpl in El; lia|].
    inversion Hall as [|? ? Hc _]; subst. simpl in Hin.
    apply andb_true_iff in Hin. destruct Hin as (Hd & _).
    unfold is_hangul in Hc. ranges_hyp Hc. ranges_hyp Hd. lia.
  - apply filter_In in H. destruct H as (H & E).
    apply negb_true_iff in E. split; [|exact E].
    apply matchAll_shape in H.
    pose proof (shape_min_len _ _ H) as Hl.
    change (min_len enPattern) with 2 in Hl.
    destruct (nonempty_head x) as (c & t & ->); [lia|].
    pose proof (shape_first is_upper enPattern enPattern_first _ c t H eq_refl)
      as Hc.
    apply not_true_iff_false. intros Hin. apply has_In in Hin.
    apply Hko in Hin. simpl in Hin.
    apply andb_true_iff in Hin. destruct Hin as (Hd & _).
    unfold is_upper in Hc. ranges_hyp Hc. ranges_hyp Hd. lia.
Qed.

(** ** Ranking *)

(** X6: when no candidate is a property name of [Object.prototype], the
    keywords are returned by falling number of occurrences in the weighted
    sequence, and candidates that occur equally often come in the order in
    which they first occur there. *)
Theorem extractKeywords_ranking (this : KeywordExtractor.t) (text : str)
    (title : option str) (i j : nat) (a b : str) :
  let keywords := weighted this text title in
  let count := count_occ (list_eq_dec N.eq_dec) keywords in
  (forall k, In k keywords -> has Object_prototype k = false) ->
  i < j ->
  nth_error (extractKeywords this text title) i = Some a ->
  nth_error (extractKeywords this text title) j = Some b ->
  count b <= count a
  /\ (count a = count b -> index_of a keywords < index_of b keywords).
Proof.
  intros keywords count Hk Hij Ha Hb.
  exact (extractKeywords_ranked this text title Hk i j a b Hij Ha Hb).
Qed.

(** X6 at a concrete input: [Apple] (5 occurrences) comes before [News]
    (3 occurrences). *)
Lemma extractKeywords_ranking_witness :
  let this := init 10 in
  let text := u "Apple Inc. announced new iPhone. Apple stock rose." in
  let title := Some (u "Apple News") in
  let keywords := weighted this text title in
  let count := count_occ (list_eq_dec N.eq_dec) keywords in
  (forall k, In k keywords -> has Object_prototype k = false)
  /\ 0 < 1
  /\ nth_error (extractKeywords this text title) 0 = Some (u "Apple")
  /\ nth_error (extractKeywords this text title) 1 = Some (u "News")
  /\ (count (u "News") <= count (u "Apple")
      /\ (count (u "Apple") = count (u "News") ->
          index_of (u "Apple") keywords < index_of (u "News") keywords)).
Proof.
  intros this text title keywords count.
  assert (H1 : forall k, In k keywords -> has Object_prototype k = false).
  { assert (E : forallb (fun k => negb (has Object_prototype k)) keywords = true)
      by (vm_compute; reflexivity).
    rewrite forallb_forall in E. intros k Hk. now apply negb_true_iff, E. }
  assert (H2 : 0 < 1) by lia.
  assert (H3 : nth_error (extractKeywords this text title) 0 = Some (u "Apple"))
    by (vm_compute; reflexivity).
  assert (H4 : nth_error (extractKeywords this text title) 1 = Some (u "News"))
    by (vm_compute; reflexivity).
  split; [exact H1|]. split; [exact H2|]. split; [exact H3|].
  split; [exact H4|].
  exact (extractKeywords_ranking this text title 0 1 (u "Apple") (u "News")
           H1 H2 H3 H4).
Defined.

(* ================================================================= *)
(** * Properties of the plugin *)

(** ** Splitting, joining and sets *)

Lemma split_nonempty (sep : char) (s : str) : split sep s <> [].
Proof.
  induction s as [|c s IH]; simpl; [discriminate|].
  destruct (N.eqb c sep); [discriminate|].
  destruct (split sep s); [contradiction | discriminate].
Qed.

Lemma join_cons (sep x : str) (l : list str) :
  l <> [] -> join sep (x :: l) = x ++ sep ++ join sep l.
Proof. destruct l; [contradiction | reflexivity]. Qed.

Lemma join_split (sep : char) (s : str) : join [sep] (split sep s) = s.
Proof.
  induction s as [|c s IH]; [reflexivity|]. simpl.
  pose proof (split_nonempty sep s) as Hn.
  destruct (N.eqb c sep) eqn:E.
  - apply N.eqb_eq in E. subst c. rewrite join_cons by exact Hn.
    simpl. now rewrite IH.
  - destruct (split sep s) as [|piece pieces]; [contradiction|].
    destruct pieces as [|p2 pieces]; simpl in *; now rewrite <- IH.
Qed.

Lemma split_pieces (sep : char) (s : str) :
  Forall (Forall (fun c => c <> sep)) (split sep s).
Proof.
  induction s as [|c s IH]; simpl; [repeat constructor|].
  destruct (N.eqb c sep) eqn:E; [now constructor|].
  apply N.eqb_neq in E.
  destruct (split sep s) as [|piece pieces]; [repeat constructor; exact E|].
  inversion IH; subst. constructor; [now constructor | assumption].
Qed.

Lemma split_piece (sep : char) (w : str) :
  Forall (fun c => c <> sep) w -> split sep w = [w].
Proof.
  induction 1 as [|c w Hc _ IH]; simpl; [reflexivity|].
  apply N.eqb_neq in Hc. now rewrite Hc, IH.
Qed.

Lemma split_app (sep : char) (w s : str) :
  Forall (fun c => c <> sep) w ->
  split sep (w ++ sep :: s) = w :: split sep s.
Proof.
  induction 1 as [|c w Hc _ IH]; simpl.
  - now rewrite N.eqb_refl.
  - apply N.eqb_neq in Hc. now rewrite Hc, IH.
Qed.

(** Splitting what was joined gives the pieces back, when no piece holds
    the separator. *)
Lemma split_join (sep : char) (l : list str) :
  l <> [] -> Forall (Forall (fun c => c <> sep)) l ->
  split sep (join [sep] l) = l.
Proof.
  intros Hn Hl. induction Hl as [|w l Hw Hl IH]; [contradiction|].
  destruct l as [|w2 l].
  - simpl. now apply split_piece.
  - rewrite join_cons by discriminate. simpl app.
    rewrite split_app by exact Hw. f_equal. apply IH. discriminate.
Qed.

Section SetOf.
Let add (set : list str) (x : str) : list str :=
  if has set x then set else set ++ [x].

Lemma setOf_fold (l : list str) :
  forall set, NoDup set ->
    NoDup (fold_left add l set)
    /\ (forall x, In x (fold_left add l set) <-> In x set \/ In x l).
Proof.
  induction l as [|y l IH]; intros set Hd; simpl.
  - split; [exact Hd | intros x; tauto].
  - assert (Hd' : NoDup (add set y)).
    { unfold add. destruct (has set y) eqn:E; [exact Hd|].
      apply NoDup_app; [exact Hd | repeat constructor; intros [] |].
      intros a Ha [<- | []]. apply has_In in Ha. congruence. }
    destruct (IH _ Hd') as (H1 & H2). split; [exact H1|].
    intros x. rewrite H2. unfold add.
    destruct (has set y) eqn:E.
    + apply has_In in E. intuition (subst; auto).
    + rewrite in_app_iff. simpl. tauto.
Qed.
End SetOf.

Lemma setOf_spec (l : list str) :
  NoDup (setOf l) /\ (forall x, In x (setOf l) <-> In x l).
Proof.
  destruct (setOf_fold l [] (NoDup_nil _)) as (H1 & H2).
  split; [exact H1|]. intros x. unfold setOf. rewrite H2. simpl. tauto.
Qed.

Lemma startsWith_prefix (s p : str) :
  startsWith s p = true <-> exists rest, s = p ++ rest.
Proof.
  revert p. induction s as [|d s IH]; intros [|c p]; simpl.
  - split; [intros _; now exists [] | reflexivity].
  - split; [discriminate | intros (rest & E); discriminate].
  - split; [intros _; now exists (d :: s) | reflexivity].
  - rewrite andb_true_iff, N.eqb_eq, IH. split.
    + intros (-> & rest & ->). now exists rest.
    + intros (rest & E). inversion E; subst.
      split; [reflexivity | now exists rest].
Qed.

(** ** Excluded folders *)

Lemma parseExcludeFolders_In (value f : str) :
  In f (parseExcludeFolders value) <->
  exists line, In line (split 10%N value) /\ f = trim line /\ f <> [].
Proof.
  unfold parseExcludeFolders. rewrite filter_In, in_map_iff. split.
  - intros ((line & <- & Hl) & Hn). exists line. repeat split; auto.
    intros E. rewrite E in Hn. discriminate.
  - intros (line & Hl & -> & Hn). split; [now exists line|].
    destruct (trim line); [contradiction | reflexivity].
Qed.

(** A stored folder is not empty, holds no line break, and neither begins
    nor ends with white space. *)
Lemma parseExcludeFolders_entry (value f : str) :
  In f (parseExcludeFolders value) ->
  f <> [] /\ Forall (fun c => c <> 10%N) f /\ trim f = f.
Proof.
  intros H. apply parseExcludeFolders_In in H.
  destruct H as (line & Hl & -> & Hn). split; [exact Hn|]. split.
  - apply trim_Forall. pose proof (split_pieces 10%N value) as Hp.
    rewrite Forall_forall in Hp. now apply Hp.
  - apply trim_idempotent.
Qed.

(** X7: after the text area of the excluded folders is changed, a file is
    excluded exactly when its path begins with one of the lines of the
    text, trimmed and not blank; a line is compared as a plain prefix of
    the path. *)
Theorem excluded_by_lines (parseInt : str -> number)
    (saveData : TagGeneratorSettings -> completion unit)
    (value : str) (this : plugin) (file : TFile) :
  isFileExcluded (onChange parseInt saveData (ChangeExcludeFolders value) this)
                 file = true
  <-> exists line rest,
        In line (split 10%N value) /\ trim line <> []
        /\ path file = trim line ++ rest.
Proof.
  assert (E : s_excludeFolders
                (settings (onChange parseInt saveData
                             (ChangeExcludeFolders value) this))
              = parseExcludeFolders value).
  { simpl. unfold saveSettings. now destruct (saveData _). }
  unfold isFileExcluded. rewrite E, existsb_exists. split.
  - intros (f & Hf & Hs). apply parseExcludeFolders_In in Hf.
    destruct Hf as (line & Hl & -> & Hn).
    apply startsWith_prefix in Hs. destruct Hs as (rest & Hs).
    now exists line, rest.
  - intros (line & rest & Hl & Hn & Hp). exists (trim line). split.
    + apply parseExcludeFolders_In. now exists line.
    + apply startsWith_prefix. now exists rest.
Qed.

Lemma map_fixed (A : Type) (f : A -> A) (l : list A) :
  Forall (fun x => f x = x) l -> map f l = l.
Proof. induction 1 as [|x l Hx _ IH]; simpl; congruence. Qed.

Lemma filter_all (A : Type) (f : A -> bool) (l : list A) :
  Forall (fun x => f x = true) l -> filter f l = l.
Proof. induction 1 as [|x l Hx _ IH]; simpl; [reflexivity|]. now rewrite Hx, IH. Qed.

(** X8: the settings tab shows the stored folders joined by line breaks;
    reading that text back gives the stored folders again. *)
Theorem parseExcludeFolders_shown (value : str) :
  let stored := parseExcludeFolders value in
  parseExcludeFolders (join newline stored) = stored.
Proof.
  intros stored.
  assert (H : Forall (fun f => f <> [] /\ Forall (fun c => c <> 10%N) f
                               /\ trim f = f) stored).
  { apply Forall_forall. intros f. apply parseExcludeFolders_entry. }
  clearbody stored. unfold parseExcludeFolders.
  destruct stored as [|f l]; [reflexivity|].
  change newline with [10%N]. rewrite split_join.
  - rewrite map_fixed.
    + apply filter_all. eapply Forall_impl; [|exact H].
      intros x (Hx & _). destruct x; [contradiction | reflexivity].
    + eapply Forall_impl; [|exact H]. intros x (_ & _ & Hx). exact Hx.
  - discriminate.
  - eapply Forall_impl; [|exact H]. intros x (_ & Hx & _). exact Hx.
Qed.

(** ** Replacing *)

Lemma GetSubstitution_nil (matched before after : str)
    (captures : list (option str)) :
  GetSubstitution matched before after captures [] = [].
Proof. reflexivity. Qed.

Lemma GetSubstitution_group (matched before after : str) (g : option str) :
  GetSubstitution matched before after [g] (u "$1")
  = match g with Some w => w | None => [] end.
Proof. destruct g; reflexivity. Qed.

(** The two templates of [extractBodyText] put nothing into the text that
    was not in it. *)
Lemma substitution_incl (s : str) (p : pattern) (f : found) (template : str) :
  template = [] \/ (template = u "$1" /\ groups p = 1) ->
  forall c, In c (substitution s p f template) -> In c s.
Proof.
  unfold substitution. intros [-> | (-> & ->)] c.
  - rewrite GetSubstitution_nil. intros [].
  - rewrite GetSubstitution_group. unfold group1.
    destruct (m_group f) as [[b e]|]; [apply substring_incl | intros []].
Qed.

Lemma replace_spans_incl (s : str) (p : pattern) (template : str) :
  template = [] \/ (template = u "$1" /\ groups p = 1) ->
  forall l pos c, In c (replace_spans s p template pos l) -> In c s.
Proof.
  intros Ht. induction l as [|f l IH]; intros pos c; simpl.
  - apply skipn_In_incl.
  - rewrite !in_app_iff. intros [H | [H | H]].
    + now apply substring_incl in H.
    + now apply (substitution_incl s p f template Ht).
    + now apply IH in H.
Qed.

Lemma replaceAll_incl (s : str) (p : pattern) (template : str) :
  template = [] \/ (template = u "$1" /\ groups p = 1) ->
  forall c, In c (replaceAll s p template) -> In c s.
Proof. intros Ht c. apply replace_spans_incl. exact Ht. Qed.

Lemma replace_incl (s : str) (p : pattern) :
  forall c, In c (replace s p []) -> In c s.
Proof.
  intros c. unfold replace. destruct (pexec s p 0) as [f|]; [|auto].
  rewrite !in_app_iff. intros [H | [H | H]].
  - now apply firstn_In_incl in H.
  - now apply (substitution_incl s p f [] (or_introl eq_refl)).
  - now apply skipn_In_incl in H.
Qed.

Lemma pexec_from_from (s : str) (p : pattern) :
  forall n i f, pexec_from s p n i = Some f -> i <= m_begin f.
Proof.
  induction n as [|n IH]; intros i f H; simpl in H; [discriminate|].
  destruct (pends s p (i, None)) as [|st l].
  - apply IH in H. lia.
  - inversion H; subst. simpl. lia.
Qed.

Lemma skipn_head (s : str) (i : nat) (c : char) :
  nth_error s i = Some c -> skipn i s = c :: skipn (S i) s.
Proof.
  revert i. induction s as [|x s IH]; intros [|i] Hc; simpl in *;
    try discriminate.
  - now inversion Hc.
  - now apply IH.
Qed.

Lemma substring_head (s : str) (i b : nat) (c : char) :
  nth_error s i = Some c -> i < b ->
  substring s i b = c :: substring s (S i) b.
Proof.
  intros Hc Hb. unfold substring. rewrite (skipn_head s i c Hc).
  replace (b - i) with (S (b - S i)) by lia. reflexivity.
Qed.

(** Removing every code unit of a class is filtering them out. *)
Section RemoveClass.
Variable s : str.
Variable C : cclass.
Let p := Plain (Chr C).
Let keep := fun c => negb (in_class C c).

Lemma remove_class_from :
  forall k i rounds, length s - i = k -> i <= length s -> k < rounds ->
    replace_spans s p [] i (pmatches_from s p rounds i)
    = filter keep (skipn i s).
Proof.
  induction k as [|k IH]; intros i rounds Hk Hi Hr.
  - destruct rounds as [|rounds]; [lia|].
    assert (E : i = length s) by lia. subst i.
    assert (Hn : nth_error s (length s) = None)
      by (apply nth_error_None; lia).
    simpl. unfold pexec.
    replace (S (length s) - length s) with 1 by lia. simpl.
    rewrite Hn. simpl. now rewrite skipn_all.
  - destruct rounds as [|rounds]; [lia|].
    destruct (nth_error s i) as [c|] eqn:Ec;
      [|apply nth_error_None in Ec; lia].
    rewrite (skipn_head s i c Ec).
    assert (En : S (length s) - i = S (length s - i)) by lia.
    assert (Hstep : forall f,
              pexec s p i = Some f ->
              pmatches_from s p (S rounds) i
              = f :: pmatches_from s p rounds
                       (if m_begin f <? m_end f then m_end f else S (m_end f))).
    { intros f Ef. cbn [pmatches_from]. now rewrite Ef. }
    destruct (in_class C c) eqn:EC.
    + assert (Ex : pexec s p i
                   = Some {| m_begin := i; m_end := S i; m_group := None |}).
      { unfold pexec. rewrite En. cbn [pexec_from pends p ends fst snd].
        now rewrite Ec, EC. }
      rewrite (Hstep _ Ex). cbn [m_begin m_end replace_spans].
      replace (i <? S i) with true by (symmetry; apply Nat.ltb_lt; lia).
      unfold substitution. rewrite GetSubstitution_nil, substring_refl.
      cbn [app filter]. unfold keep at 1. rewrite EC. cbn [negb].
      apply IH; lia.
    + assert (Ex : pexec s p i = pexec s p (S i)).
      { unfold pexec. rewrite En. cbn [pexec_from pends p ends fst snd].
        rewrite Ec, EC. reflexivity. }
      assert (Em : pmatches_from s p (S rounds) i
                   = pmatches_from s p (S rounds) (S i)).
      { cbn [pmatches_from]. now rewrite Ex. }
      rewrite Em. cbn [filter]. unfold keep at 1. rewrite EC. cbn [negb].
      rewrite <- (IH (S i) (S rounds)) by lia.
      destruct (pmatches_from s p (S rounds) (S i)) as [|f l] eqn:El.
      * cbn [replace_spans]. apply (skipn_head s i c Ec).
      * assert (Hb : S i <= m_begin f).
        { cbn [pmatches_from] in El.
          destruct (pexec s p (S i)) as [g|] eqn:Eg; [|discriminate].
          inversion El; subst. apply (pexec_from_from s p _ _ _ Eg). }
        cbn [replace_spans].
        rewrite (substring_head s i (m_begin f) c Ec) by lia.
        reflexivity.
Qed.

Lemma remove_class : replaceAll s p [] = filter keep s.
Proof.
  unfold replaceAll, pmatches.
  apply (remove_class_from (length s) 0 (S (length s))); lia.
Qed.
End RemoveClass.

(** ** Literals and anchors *)

Lemma startsWith_nil (s : str) : startsWith s [] = true.
Proof. now destruct s. Qed.

Lemma one_class (c d : char) : in_class (Ranges [(c, c)]) d = N.eqb c d.
Proof.
  unfold in_class, in_ranges. simpl. rewrite orb_false_r.
  destruct (N.eqb c d) eqn:E.
  - apply N.eqb_eq in E. subst. now rewrite N.leb_refl.
  - apply N.eqb_neq in E. apply andb_false_iff.
    destruct (N.leb_spec c d); [right; apply N.leb_gt; lia | now left].
Qed.

(** A literal matches where the text continues with it, and only there. *)
Lemma ends_lit (s w : str) :
  forall st, ends s (lit w) st
             = if startsWith (skipn (fst st) s) w
               then [(fst st + length w, snd st)] else [].
Proof.
  induction w as [|c w IH]; intros [i cap].
  - cbn [lit fold_right ends fst snd length]. rewrite startsWith_nil.
    now rewrite Nat.add_0_r.
  - change (lit (c :: w)) with (Seq (one c) (lit w)).
    cbn [ends fst snd]. unfold one at 1. cbn [ends fst snd].
    destruct (nth_error s i) as [d|] eqn:E.
    + rewrite (skipn_head s i d E), one_class. cbn [startsWith].
      destruct (N.eqb c d); cbn [flat_map andb]; [|reflexivity].
      rewrite IH, app_nil_r. cbn [fst snd length].
      destruct (startsWith (skipn (S i) s) w); [|reflexivity].
      do 2 f_equal. lia.
    + apply nth_error_None in E. rewrite skipn_all2 by exact E. reflexivity.
Qed.

Lemma pexec_from_none (s : str) (p : pattern) :
  (forall i, pends s p (i, None) = []) ->
  forall n i, pexec_from s p n i = None.
Proof.
  intros H. induction n as [|n IH]; intros i; simpl; [reflexivity|].
  now rewrite H.
Qed.

Lemma pexec_none_replaceAll (s : str) (p : pattern) (template : str) :
  pexec s p 0 = None -> replaceAll s p template = s.
Proof.
  intros H. unfold replaceAll, pmatches. cbn [pmatches_from]. now rewrite H.
Qed.

Lemma pexec_from_Plain (s : str) (r : regex) :
  forall n i, pexec_from s (Plain r) n i = exec_from s r n i.
Proof. induction n as [|n IH]; intros i; simpl; [reflexivity|]. now rewrite IH. Qed.

(** A pattern of the first kind finds nothing in a text that holds none
    of the code units its matches begin with. *)
Lemma pexec_Plain_none (P : char -> Prop) (s : str) (r : regex) :
  first_in P r -> 0 < min_len r -> Forall (fun c => ~ P c) s ->
  pexec s (Plain r) 0 = None.
Proof.
  intros Hf Hm Hs. unfold pexec. rewrite pexec_from_Plain.
  pose proof (matches_none P s r Hf Hm Hs) as H. unfold matches in H.
  cbn [matches_from] in H. unfold exec in H.
  destruct (exec_from s r (S (length s) - 0) 0); [discriminate | reflexivity].
Qed.

Lemma substitution_nil (s : str) (p : pattern) (f : found) :
  substitution s p f [] = [].
Proof. reflexivity. Qed.

(** A pattern that begins with [^] matches at the beginning of the text
    only. *)
Lemma pexec_from_Bos (s : str) (q : pattern) :
  forall n i f, pexec_from s (Then Bos q) n i = Some f -> m_begin f = 0.
Proof.
  induction n as [|n IH]; intros i f H; simpl in H; [discriminate|].
  destruct (i =? 0) eqn:E.
  - apply Nat.eqb_eq in E. subst i. simpl in H. rewrite app_nil_r in H.
    destruct (pends s q (0, None)); [|now inversion H].
    now apply IH in H.
  - simpl in H. now apply IH in H.
Qed.

Lemma replace_Bos (s : str) (q : pattern) (template : str) :
  exists head, replace s (Then Bos q) template
               = head ++ replace s (Then Bos q) []
               /\ (pexec s (Then Bos q) 0 = None -> head = [])
               /\ (forall f, pexec s (Then Bos q) 0 = Some f ->
                             head = substitution s (Then Bos q) f template).
Proof.
  unfold replace. destruct (pexec s (Then Bos q) 0) as [f|] eqn:E.
  - exists (substitution s (Then Bos q) f template).
    unfold pexec in E. rewrite (pexec_from_Bos s q _ _ _ E).
    rewrite substitution_nil. simpl.
    split; [reflexivity|]. split; [discriminate|].
    intros g Hg. now inversion Hg.
  - exists []. split; [reflexivity|]. split; [reflexivity | discriminate].
Qed.

(** ** The body text *)

(** X9: the body text holds only code units of the note, and none of the
    markdown marks [#], [*], [_] and [~]. *)
Theorem extractBodyText_chars (content : str) :
  Forall (fun c => In c content /\ in_ranges formatting c = false)
         (extractBodyText content).
Proof.
  unfold extractBodyText. cbv zeta. unfold formattingChar.
  rewrite remove_class. apply Forall_forall. intros c H.
  apply filter_In in H. destruct H as (H & Hc). split.
  - apply (replaceAll_incl _ markdownLink (u "$1")) in H;
      [|right; split; reflexivity].
    apply (replaceAll_incl _ wikiLink (u "$1")) in H;
      [|right; split; reflexivity].
    apply (replaceAll_incl _ inlineCode []) in H; [|now left].
    apply (replaceAll_incl _ fencedCode []) in H; [|now left].
    now apply replace_incl in H.
  - apply negb_true_iff in Hc. exact Hc.
Qed.

Lemma startsWith_absent (s w : str) (c : char) (i : nat) :
  ~ In c s -> startsWith (skipn i s) (c :: w) = false.
Proof.
  intros H. destruct (skipn i s) as [|d t] eqn:E; [reflexivity|].
  cbn [startsWith]. replace (N.eqb c d) with false; [reflexivity|].
  symmetry. apply N.eqb_neq. intros ->. apply H.
  apply (skipn_In_incl _ i). rewrite E. now left.
Qed.

(** X10: a note without frontmatter that holds none of the code units
    [#], [*], [_], [~], the backquote and the opening bracket is its own
    body text. *)
Theorem extractBodyText_plain (content : str) :
  plain content -> extractBodyText content = content.
Proof.
  intros (Hf & Hm). unfold extractBodyText. cbv zeta.
  assert (Hno : Forall (fun c => ~ in_ranges markup c = true) content).
  { eapply Forall_impl; [|exact Hm]. intros c Hc. congruence. }
  assert (E1 : replace content frontmatterRegex [] = content).
  { unfold replace.
    replace (pexec content frontmatterRegex 0) with (@None found); [reflexivity|].
    symmetry. apply pexec_from_none. intros i.
    unfold frontmatterRegex. cbn [thens pends fst snd].
    destruct (i =? 0) eqn:Ei; [|reflexivity].
    apply Nat.eqb_eq in Ei. subst i. cbn [flat_map]. rewrite app_nil_r.
    rewrite ends_lit. cbn [fst skipn]. now rewrite Hf. }
  rewrite E1.
  assert (E2 : replaceAll content fencedCode [] = content).
  { apply pexec_none_replaceAll. apply pexec_from_none. intros i.
    unfold fencedCode. cbn [thens pends fst snd]. rewrite ends_lit.
    cbn [fst]. change (u "```") with (96%N :: u "``").
    rewrite startsWith_absent; [reflexivity|].
    intros Hin. rewrite Forall_forall in Hm. specialize (Hm _ Hin).
    vm_compute in Hm. discriminate. }
  rewrite E2.
  assert (E3 : forall r template,
            first_in (fun c => in_ranges markup c = true) r ->
            0 < min_len r ->
            replaceAll content (Plain r) template = content).
  { intros r template H1 H2. apply pexec_none_replaceAll.
    exact (pexec_Plain_none _ content r H1 H2 Hno). }
  unfold inlineCode, wikiLink, markdownLink, formattingChar.
  rewrite !E3; try reflexivity; try (vm_compute; lia);
    simpl; repeat split; intros; try discriminate;
    unfold markup, formatting in *; tag_classes.
Qed.

Lemma no_markup_forallb (s : str) :
  forallb (fun c => negb (in_ranges markup c)) s = true ->
  Forall (fun c => in_ranges markup c = false) s.
Proof.
  intros H. apply Forall_forallb in H. eapply Forall_impl; [|exact H].
  intros c Hc. now apply negb_true_iff in Hc.
Qed.

(** X10 at a concrete input. *)
Lemma extractBodyText_plain_witness :
  plain (u "Meeting notes, budget 3000 - see the plan.")
  /\ extractBodyText (u "Meeting notes, budget 3000 - see the plan.")
     = u "Meeting notes, budget 3000 - see the plan.".
Proof.
  assert (H : plain (u "Meeting notes, budget 3000 - see the plan.")).
  { split; [vm_compute; reflexivity|].
    apply no_markup_forallb. vm_compute. reflexivity. }
  split; [exact H | exact (extractBodyText_plain _ H)].
Defined.

(** ** Writing the tags *)

Lemma GetSubstitution_fence (matched before after : str)
    (captures : list (option str)) (rest : str) :
  GetSubstitution matched before after captures (u "---" ++ newline ++ rest)
  = u "---" ++ newline ++ GetSubstitution matched before after captures rest.
Proof. reflexivity. Qed.

Lemma replace_frontmatter (content newFrontmatter : str) (f : found) :
  pexec content frontmatterRegex 0 = Some f ->
  exists middle,
    replace content frontmatterRegex (fenced newFrontmatter)
    = u "---" ++ newline ++ middle ++ replace content frontmatterRegex [].
Proof.
  intros Hf. unfold frontmatterRegex in *. cbn [thens] in *.
  match goal with
  | |- context [replace content (Then Bos ?q) (fenced newFrontmatter)] =>
    destruct (replace_Bos content q (fenced newFrontmatter))
      as (head & E & _ & Hh)
  end.
  rewrite E, (Hh f Hf). unfold substitution, fenced.
  rewrite GetSubstitution_fence.
  match goal with
  | |- context [GetSubstitution ?m ?b ?a ?c ?t] =>
    exists (GetSubstitution m b a c t)
  end.
  now rewrite <- !app_assoc.
Qed.

(** X11: whatever the note and the tags, the content that is written
    begins with a frontmatter fence and ends with the note as it is below
    its frontmatter (the whole note when it has none): the text below the
    frontmatter is never changed. *)
Theorem newContent_body (overwriteExistingTags : bool) (content : str)
    (tags : list str) :
  exists middle,
    newContent overwriteExistingTags content tags
    = u "---" ++ newline ++ middle ++ replace content frontmatterRegex [].
Proof.
  unfold newContent.
  destruct (pexec content frontmatterRegex 0) as [f|] eqn:Ef.
  - destruct (pexec (group_text content f) tagsLine 0);
      [destruct (negb overwriteExistingTags)|];
      exact (replace_frontmatter content _ f Ef).
  - unfold replace. rewrite Ef. unfold fenced.
    exists (tagsBlock tags ++ newline ++ u "---" ++ newline).
    now rewrite <- !app_assoc.
Qed.

Lemma existingTags_entry (existingTagsStr t : str) :
  In t (existingTags existingTagsStr) -> t <> [] /\ trim t = t.
Proof.
  unfold existingTags. destruct (startsWith existingTagsStr (u "[")).
  - intros H. apply filter_In in H. destruct H as (H & Hn).
    apply in_map_iff in H. destruct H as (x & <- & _). split.
    + intros E. rewrite E in Hn. discriminate.
    + apply trim_idempotent.
  - destruct (0 <? length (trim existingTagsStr)) eqn:E; [|intros []].
    intros [<- | []]. split; [|apply trim_idempotent].
    intros E'. rewrite E' in E. discriminate.
Qed.

(** X12: when tags are merged, the list that is written holds every tag
    that the [tags:] line held and every new tag, each once and nothing
    else; a tag read from the line is never empty and is trimmed. *)
Theorem mergedTags_spec (existingTagsStr : str) (tags : list str) :
  NoDup (mergedTags existingTagsStr tags)
  /\ (forall t, In t (mergedTags existingTagsStr tags)
                <-> In t (existingTags existingTagsStr) \/ In t tags)
  /\ Forall (fun t => t <> [] /\ trim t = t) (existingTags existingTagsStr).
Proof.
  unfold mergedTags.
  destruct (setOf_spec (existingTags existingTagsStr ++ tags)) as (H1 & H2).
  split; [exact H1|]. split.
  - intros t. rewrite H2. apply in_app_iff.
  - apply Forall_forall. intros t. apply existingTags_entry.
Qed.

(** ** Commands *)

Section CommandFacts.
Variable read : TFile -> completion str.
Variable modify : TFile -> str -> completion unit.
Variable fetch : request -> completion response.
Variable JSON_parse : option json -> completion json.
Variable this : plugin.

(** Whether the tags are refined: [useAI] is on and there is a key. *)
Let refining : bool :=
  s_useAI (settings this)
  && negb match s_openaiApiKey (settings this) with [] => true | _ => false end.

(** The tags of a file with this content: the keywords of its body text
    and its name, refined when refinement is on. *)
Let tagsOf (file : TFile) (content : str) : completion (list str) :=
  let bodyText := extractBodyText content in
  let tags := extractKeywords (keywordExtractor this) bodyText
                              (Some (basename file)) in
  if refining
  then refineTags fetch JSON_parse (aiService this) tags bodyText
  else Normal tags.

(** What is written for these tags. *)
Let written (content : str) (tags : list str) : str :=
  newContent (s_overwriteExistingTags (settings this)) content tags.

Lemma tagsOf_resolves (file : TFile) (content : str) :
  exists tags, tagsOf file content = Normal tags.
Proof.
  unfold tagsOf. destruct refining; [|eauto].
  apply refineTags_resolves.
Qed.

Ltac same_inputs :=
  repeat match goal with
         | H : Normal _ = Normal _ |- _ => injection H as <-
         | H : Normal _ = Throw _ |- _ => discriminate H
         | H : Throw _ = Normal _ |- _ => discriminate H
         | H : Throw _ = Throw _ |- _ => try discriminate H; clear H
         | H : ?a = Normal _, H' : ?a = Normal _ |- _ =>
           rewrite H in H'; injection H' as <-
         | H : ?a = Normal _, H' : ?a = Throw _ |- _ =>
           rewrite H in H'; discriminate H'
         | H : ?a = Throw _, H' : ?a = Normal _ |- _ =>
           rewrite H in H'; discriminate H'
         | H : ?a = Throw _, H' : ?a = Throw _ |- _ =>
           rewrite H in H'; try discriminate H'; clear H'
         end.

Lemma generateTagsForNote_file (file : TFile) :
  let r := generateTagsForNote read modify fetch JSON_parse this (Some file) in
  (forall p d,
      In (Modify p d) (fst r)
      <-> isFileExcluded this file = false /\ p = path file
          /\ exists content tags,
               read file = Normal content
               /\ tagsOf file content = Normal tags /\ tags <> []
               /\ modify file (written content tags) = Normal tt
               /\ d = written content tags)
  /\ (forall e,
         snd r = Throw e
         <-> e = TypeError /\ isFileExcluded this file = false
             /\ (read file = Throw Nullish
                 \/ exists content tags,
                      read file = Normal content
                      /\ tagsOf file content = Normal tags /\ tags <> []
                      /\ modify file (written content tags) = Throw Nullish))
  /\ (snd r = Normal tt \/ snd r = Throw TypeError).
Proof.
  unfold generateTagsForNote.
  destruct (isFileExcluded this file) eqn:Ex.
  { cbn [emit fst snd]. split; [|split; [|now left]].
    - intros p d. split.
      + intros [H | []]. discriminate H.
      + intros (H & _). discriminate H.
    - intros e. split; [discriminate|]. intros (_ & H & _). discriminate H. }
  destruct (read file) as [content | e0] eqn:Er.
  2:{ unfold tryCatch, andThen, await. cbn [fst snd app].
      assert (W : forall p d ev,
                 (ev = [] \/ ev = [Notice (ErrorGeneratingTags e0)]) ->
                 In (Modify p d) ev
                 <-> false = false /\ p = path file
                     /\ exists content tags,
                          @Throw str e0 = Normal content
                          /\ tagsOf file content = Normal tags /\ tags <> []
                          /\ modify file (written content tags) = Normal tt
                          /\ d = written content tags).
      { intros p d ev Hev. split.
        - destruct Hev as [-> | ->]; [intros [] | intros [H | []]].
          discriminate H.
        - intros (_ & _ & c & t & H & _). discriminate H. }
      destruct e0;
        try (cbn [await emit fst snd];
             split; [intros p d; apply W; auto|];
             split; [|now left]; intros e; split; [discriminate|];
             intros (_ & _ & [H | (c & t & H & _)]); discriminate H).
      cbn [await emit fst snd].
      split; [intros p d; apply W; auto|].
      split; [|now right]. intros e; split.
      - intros H. injection H as <-. auto.
      - intros (-> & _). reflexivity. }
  destruct (tagsOf_resolves file content) as (tags & Et).
  assert (Eq : (tags0 <- (if s_useAI (settings this)
                             && negb match s_openaiApiKey (settings this) with
                                     | [] => true | _ => false end
                          then emit (Notice RefiningTags) ;;;
                               await (refineTags fetch JSON_parse (aiService this)
                                        (extractKeywords (keywordExtractor this)
                                           (extractBodyText content)
                                           (Some (basename file)))
                                        (extractBodyText content))
                          else ret (extractKeywords (keywordExtractor this)
                                      (extractBodyText content)
                                      (Some (basename file)))) ;;
                ret tags0)
               = ((if refining then [Notice RefiningTags] else []), Normal tags)).
  { unfold tagsOf in Et. fold refining. destruct refining.
    - unfold andThen, emit, await, ret. cbn [fst snd app]. rewrite Et.
      reflexivity.
    - injection Et as <-. reflexivity. }
  unfold updateFrontmatterTags in *.
  unfold tryCatch, andThen, await, emit, ret in *.
  cbn [fst snd app] in *.
  set (pre := if refining then [Notice RefiningTags] else []) in *.
  assert (Hpre : forall p d, ~ In (Modify p d) pre).
  { intros p d. unfold pre. destruct refining; [intros [H | []] | intros []].
    discriminate H. }
  clearbody pre.
  match type of Eq with
  | match snd ?x with _ => _ end = _ => destruct x as [ev [t | e1]] eqn:Ex0
  end; cbn [fst snd] in Eq; [|discriminate Eq].
  rewrite app_nil_r in Eq. injection Eq as -> ->.
  cbn [fst snd].
  fold (written content tags).
  destruct tags as [|t tags'].
  { cbn [fst snd app]. split; [|split; [|now left]].
    - intros p d. split.
      + intros H. apply in_app_or in H. destruct H as [H | [H | []]];
          [now apply Hpre in H | discriminate H].
      + intros (_ & _ & c & ts & Hr & Ht & Hne & _). same_inputs.
        now destruct Hne.
    - intros e. split; [discriminate|].
      intros (_ & _ & [H | (c & ts & Hr & Ht & Hne & _)]);
        [discriminate H|]. same_inputs. now destruct Hne. }
  set (tags := t :: tags') in *.
  fold (written content tags).
  destruct (modify file (written content tags)) as [[] | e1] eqn:Em;
    cbn [fst snd app].
  { split; [|split; [|now left]].
    - intros p d. split.
      + intros H. apply in_app_or in H.
        destruct H as [H | [H | [H | []]]];
          [now apply Hpre in H | | discriminate H].
        injection H as <- <-. split; [reflexivity|]. split; [reflexivity|].
        exists content, tags. repeat split; try assumption. discriminate.
      + intros (_ & -> & c & ts & Hr & Ht & Hne & Hm & ->). same_inputs.
        apply in_or_app. right. now left.
    - intros e. split; [discriminate|].
      intros (_ & _ & [H | (c & ts & Hr & Ht & Hne & Hm)]);
        [discriminate H|]. same_inputs. }
  assert (W : forall p d ev,
             (ev = pre \/ ev = pre ++ [Notice (ErrorGeneratingTags e1)]) ->
             In (Modify p d) ev
             <-> false = false /\ p = path file
                 /\ exists content0 tags0,
                      Normal content = Normal content0
                      /\ tagsOf file content0 = Normal tags0 /\ tags0 <> []
                      /\ modify file (written content0 tags0) = Normal tt
                      /\ d = written content0 tags0).
  { intros p d ev Hev. split.
    - intros H. exfalso. destruct Hev as [-> | ->]; [now apply Hpre in H|].
      apply in_app_or in H. destruct H as [H | [H | []]];
        [now apply Hpre in H | discriminate H].
    - intros (_ & _ & c & ts & Hr & Ht & Hne & Hm & _).
      injection Hr as <-. same_inputs. }
  destruct e1;
    try (cbn [fst snd app];
         split; [intros p d; apply W; rewrite ?app_nil_r; auto|];
         split; [|now left]; intros e; split; [discriminate|];
         intros (_ & _ & [H | (c & ts & Hr & Ht & Hne & Hm)]);
           [discriminate H | injection Hr as <-; same_inputs]; fail).
  cbn [fst snd app].
  split; [intros p d; apply W; rewrite ?app_nil_r; auto|].
  split; [|now right]. intros e; split.
  - intros H. injection H as <-. split; [reflexivity|]. split; [reflexivity|].
    right. exists content, tags. repeat split; try assumption. discriminate.
  - intros (-> & _). reflexivity.
Qed.


(** Whether generating the tags of a file completes. *)
Let completes (file : TFile) : bool :=
  match snd (generateTagsForNote read modify fetch JSON_parse this (Some file)) with
  | Normal _ => true
  | Throw _ => false
  end.

Lemma processFiles_counts (files : list TFile) :
  forall processedCount skippedCount,
    let r := processFiles read modify fetch JSON_parse this files
               processedCount skippedCount in
    snd r = Normal (processedCount
                    + length (filter (fun f => negb (isFileExcluded this f)
                                               && completes f) files),
                    skippedCount
                    + length (filter (isFileExcluded this) files))
    /\ forall p d, In (Modify p d) (fst r) ->
         exists f, In f files /\ p = path f /\ isFileExcluded this f = false.
Proof.
  induction files as [|file files IH]; intros pc sc; cbn [processFiles].
  - cbn. rewrite !Nat.add_0_r. split; [reflexivity | intros p d []].
  - destruct (isFileExcluded this file) eqn:Ex.
    + destruct (IH pc (S sc)) as (H1 & H2). cbn [filter negb andb].
      rewrite Ex. cbn [negb andb length]. split.
      * rewrite H1. f_equal. f_equal. lia.
      * intros p d H. destruct (H2 p d H) as (f & Hf & Hp & Hx).
        exists f. repeat split; auto. now right.
    + destruct (generateTagsForNote_file file) as (G1 & _ & G3).
      cbv zeta in G1, G3.
      set (g := generateTagsForNote read modify fetch JSON_parse this
                  (Some file)) in *.
      assert (E : exists pc',
                 tryCatch (g ;;; ret (S pc)) (fun _ => ret pc)
                 = (fst g, Normal pc')
                 /\ pc' = pc + (if completes file then 1 else 0)).
      { unfold completes. fold g. unfold tryCatch, andThen, ret.
        destruct G3 as [G3 | G3]; rewrite G3; cbn [fst snd];
          rewrite app_nil_r; eexists; (split; [reflexivity | lia]). }
      destruct E as (pc' & E & Epc). rewrite E. unfold andThen.
      cbn [fst snd].
      destruct (IH pc' sc) as (H1 & H2). cbn [filter].
      rewrite Ex. cbn [negb andb]. split.
      * rewrite H1. f_equal. f_equal. rewrite Epc.
        destruct (completes file); cbn [length]; lia.
      * intros p d H. apply in_app_or in H. destruct H as [H | H].
        -- apply G1 in H. destruct H as (_ & Hp & _). exists file.
           repeat split; auto. now left.
        -- destruct (H2 p d H) as (f & Hf & Hp & Hx).
           exists f. repeat split; auto. now right.
Qed.

(** X14: processing the whole vault never fails and ends with the notice
    of the counts: as skipped, every file of an excluded folder; as
    processed, every other file for which generating the tags completes,
    with or without tags.  A file is in neither count only when the vault
    rejects its read or its write with [null] or [undefined]; when it never
    does, the two counts add up to the number of files.  No file of an
    excluded folder is written to. *)
Theorem generateTagsForAllNotes_counts (files : list TFile) :
  let r := generateTagsForAllNotes read modify fetch JSON_parse this files in
  let processed :=
    length (filter (fun f => negb (isFileExcluded this f) && completes f)
                   files) in
  let skipped := length (filter (isFileExcluded this) files) in
  let failed :=
    length (filter (fun f => negb (isFileExcluded this f)
                             && negb (completes f)) files) in
  snd r = Normal tt
  /\ (exists events,
        fst r = Notice (Processing (length files)) :: events
                ++ [Notice (Processed processed skipped)])
  /\ processed + skipped + failed = length files
  /\ (forall f, completes f = false ->
                read f = Throw Nullish
                \/ exists data, modify f data = Throw Nullish)
  /\ ((forall f, read f <> Throw Nullish) ->
      (forall f data, modify f data <> Throw Nullish) ->
      processed + skipped = length files)
  /\ forall p d, In (Modify p d) (fst r) ->
       exists f, In f files /\ p = path f /\ isFileExcluded this f = false.
Proof.
  intros r processed skipped failed. subst r.
  assert (Hc : forall f, completes f = false ->
                 read f = Throw Nullish
                 \/ exists data, modify f data = Throw Nullish).
  { intros f Hf. unfold completes in Hf.
    destruct (generateTagsForNote_file f) as (_ & G2 & _). cbv zeta in G2.
    destruct (snd (generateTagsForNote read modify fetch JSON_parse this
                     (Some f))) as [v | e] eqn:E; [discriminate Hf|].
    destruct (proj1 (G2 e) eq_refl) as (_ & _ & [H | (c & t & _ & _ & _ & H)]);
      [now left | right; eauto]. }
  assert (Hsum : processed + skipped + failed = length files).
  { subst processed skipped failed. clear. induction files as [|f l IH];
      [reflexivity|].
    cbn [filter]. destruct (isFileExcluded this f), (completes f);
      cbn [negb andb length]; lia. }
  unfold generateTagsForAllNotes.
  destruct (processFiles_counts files 0 0) as (H1 & H2). cbv zeta in H1, H2.
  unfold andThen, emit. cbn [fst snd]. rewrite H1. cbn [fst snd app].
  split; [reflexivity|]. split; [eexists; reflexivity|].
  split; [exact Hsum|]. split; [exact Hc|]. split.
  - intros Hr Hm.
    assert (F : failed = 0).
    { subst failed. clear - Hc Hr Hm. induction files as [|f l IH];
        [reflexivity|].
      cbn [filter]. destruct (completes f) eqn:E.
      - rewrite andb_false_r. exact IH.
      - exfalso. destruct (Hc f E) as [H | (data & H)];
          [now apply (Hr f) | now apply (Hm f data)]. }
    lia.
  - intros p d [H | H]; [discriminate|].
    apply in_app_or in H. destruct H as [H | [H | []]]; [|discriminate].
    exact (H2 p d H).
Qed.
End CommandFacts.

(** ** The settings tab *)

Section SettingFacts.
Variable parseInt : str -> number.
Variable saveData : TagGeneratorSettings -> completion unit.

(** The plugin after a sequence of changes in the settings tab. *)
Let after (changes : list change) (this : plugin) : plugin :=
  fold_left (fun this c => onChange parseInt saveData c this) changes this.





Lemma onChange_in_step (c : change) (this : plugin) :
  (forall s, exists v, saveData s = Normal v) ->
  in_step this -> in_step (onChange parseInt saveData c this).
Proof.
  intros Hsave I.
  assert (S : forall s, in_step (saveSettings saveData s this)).
  { intros s. unfold saveSettings. destruct (Hsave s) as (v & ->).
    split; reflexivity. }
  destruct c as [value | value | value | value | value | value | value];
    cbn [onChange]; try apply S.
  - destruct (parseInt value) as [|num]; [exact I|].
    destruct (0 <? num)%Z; [apply S | exact I].
  - destruct (parseInt value) as [|num]; [exact I|].
    destruct (0 <? num)%Z; [apply S | exact I].
Qed.

(** X16: as long as saving the settings succeeds, the extractor and the
    refiner work with the settings that the tab holds, after any sequence
    of changes: the limit of the extractor is the maximum number of tags of
    the settings, and the key, the model and the switch of the refiner are
    those of the settings. *)
Theorem services_follow_settings (settings0 : TagGeneratorSettings)
    (this0 : plugin) (changes : list change) :
  (forall s, exists v, saveData s = Normal v) ->
  onload settings0 = Normal this0 ->
  keywordExtractor (after changes this0)
  = init (s_maxTags (settings (after changes this0)))
  /\ aiService (after changes this0)
     = {| openaiApiKey := s_openaiApiKey (settings (after changes this0));
          model := s_model (settings (after changes this0));
          useAI := s_useAI (settings (after changes this0)) |}.
Proof.
  intros Hsave L. change (in_step (after changes this0)).
  assert (I : in_step this0).
  { unfold onload, constructor in L. cbn in L. injection L as <-.
    split; reflexivity. }
  clear L. revert this0 I. unfold after.
  induction changes as [|c changes IH]; intros this I; [exact I|].
  cbn [fold_left]. apply IH. now apply onChange_in_step.
Qed.

End SettingFacts.


(** X16 at a concrete input. *)
Lemma services_follow_settings_witness :
  let parseInt := fun value : str =>
    if eqb value (u "7") then Int 7 else NaN in
  let saveData := fun _ : TagGeneratorSettings => Normal tt in
  let this0 := {| settings := DEFAULT_SETTINGS;
                  keywordExtractor := init 10;
                  aiService := {| openaiApiKey := []; model := u "gpt-3.5-turbo";
                                  useAI := false |} |} in
  let changes := [ChangeMaxTags (u "7"); ChangeUseAI true;
                  ChangeApiKey (u "sk-test"); ChangeModel (u "gpt-4")] in
  let this := fold_left (fun this c => onChange parseInt saveData c this)
                        changes this0 in
  (forall s, exists v, saveData s = Normal v)
  /\ onload DEFAULT_SETTINGS = Normal this0
  /\ keywordExtractor this = init (s_maxTags (settings this))
  /\ aiService this = {| openaiApiKey := s_openaiApiKey (settings this);
                         model := s_model (settings this);
                         useAI := s_useAI (settings this) |}.
Proof.
  intros parseInt saveData this0 changes this.
  assert (H : forall s, exists v, saveData s = Normal v)
    by (intros s; exists tt; reflexivity).
  assert (L : onload DEFAULT_SETTINGS = Normal this0) by reflexivity.
  split; [exact H|]. split; [exact L|].
  exact (services_follow_settings parseInt saveData DEFAULT_SETTINGS this0
           changes H L).
Defined.

Lemma generateTagsForNote_ext read modify fetch JSON_parse
    (this1 this2 : plugin) (file : option TFile) :
  s_excludeFolders (settings this1) = s_excludeFolders (settings this2) ->
  s_overwriteExistingTags (settings this1)
  = s_overwriteExistingTags (settings this2) ->
  s_useAI (settings this1) = s_useAI (settings this2) ->
  s_openaiApiKey (settings this1) = s_openaiApiKey (settings this2) ->
  keywordExtractor this1 = keywordExtractor this2 ->
  aiService this1 = aiService this2 ->
  generateTagsForNote read modify fetch JSON_parse this1 file
  = generateTagsForNote read modify fetch JSON_parse this2 file.
Proof.
  intros H1 H2 H3 H4 H5 H6.
  unfold generateTagsForNote, isFileExcluded, updateFrontmatterTags.
  now rewrite H1, H2, H3, H4, H5, H6.
Qed.

(** X17: the minimum word length of the settings has no effect on the
    tags: when the services work with the settings, a change of the
    minimum word length, whatever its value and whether or not it can be
    saved, leaves the extractor as it is, and generating the tags of a note
    does the same as before. *)
Theorem minWordLength_unused parseInt saveData read modify fetch JSON_parse
    (this : plugin) (value : str) (file : option TFile) :
  in_step this ->
  let changed := onChange parseInt saveData (ChangeMinWordLength value) this in
  keywordExtractor changed = keywordExtractor this
  /\ generateTagsForNote read modify fetch JSON_parse changed file
     = generateTagsForNote read modify fetch JSON_parse this file.
Proof.
  intros (I1 & I2) changed. subst changed. cbn [onChange].
  destruct (parseInt value) as [|num]; [now split|].
  destruct (0 <? num)%Z; [|now split].
  unfold saveSettings.
  destruct (saveData _); cbn [rebuilt constructor].
  - split; [cbn; now rewrite I1|].
    apply generateTagsForNote_ext; cbn; try reflexivity; congruence.
  - split; [reflexivity|].
    apply generateTagsForNote_ext; reflexivity.
Qed.

(** X17 at a concrete input. *)
Lemma minWordLength_unused_witness :
  let parseInt := fun value : str =>
    if eqb value (u "5") then Int 5 else NaN in
  let saveData := fun _ : TagGeneratorSettings => Normal tt in
  let read := fun _ : TFile => Normal (u "NASA and NASA") in
  let modify := fun (_ : TFile) (_ : str) => Normal tt in
  let fetch := fun _ : request => @Throw response TypeError in
  let JSON_parse := fun _ : option json => @Throw json SyntaxError in
  let this := {| settings := DEFAULT_SETTINGS;
                 keywordExtractor := init 10;
                 aiService := {| openaiApiKey := []; model := u "gpt-3.5-turbo";
                                 useAI := false |} |} in
  let file := Some {| path := u "notes/a.md"; basename := u "a" |} in
  let changed := onChange parseInt saveData (ChangeMinWordLength (u "5")) this in
  in_step this
  /\ s_minWordLength (settings changed) = 5%Z
  /\ keywordExtractor changed = keywordExtractor this
  /\ generateTagsForNote read modify fetch JSON_parse changed file
     = generateTagsForNote read modify fetch JSON_parse this file.
Proof.
  intros parseInt saveData read modify fetch JSON_parse this file changed.
  assert (H : in_step this) by (split; reflexivity).
  split; [exact H|]. split; [reflexivity|].
  exact (minWordLength_unused parseInt saveData read modify fetch JSON_parse
           this (u "5") file H).
Defined.

(* ================================================================= *)
(** * Properties of the refiner *)

Lemma in_class_one (c0 c : char) :
  in_class (Ranges [(c0, c0)]) c = (c =? c0)%N.
Proof.
  unfold in_class, in_ranges. cbn [existsb fst snd]. rewrite orb_false_r.
  destruct (N.eqb_spec c c0) as [-> | Hn].
  - now rewrite N.leb_refl.
  - destruct (N.leb_spec c0 c), (N.leb_spec c c0); try reflexivity. lia.
Qed.

Section RemoveUnit.
Variable s : str.
Variable c0 : char.
Let r := lit [c0].
Let keep := fun c => negb (c =? c0)%N.

Lemma ends_unit (i : nat) :
  ends s r (i, None)
  = match nth_error s i with
    | Some c => if (c =? c0)%N then [(S i, None)] else []
    | None => []
    end.
Proof.
  unfold r, lit, one. cbn [fold_right ends fst snd].
  destruct (nth_error s i) as [c|]; [|reflexivity].
  rewrite in_class_one. now destruct (c =? c0)%N.
Qed.

Lemma remove_unit_from :
  forall k i rounds, length s - i = k -> i <= length s -> k < rounds ->
    remove_spans s i (matches_from s r rounds i) = filter keep (skipn i s).
Proof.
  induction k as [|k IH]; intros i rounds Hk Hi Hr.
  - destruct rounds as [|rounds]; [lia|].
    assert (E : i = length s) by lia. subst i.
    assert (Hn : nth_error s (length s) = None)
      by (apply nth_error_None; lia).
    cbn [matches_from]. unfold exec.
    replace (S (length s) - length s) with 1 by lia.
    cbn [exec_from]. rewrite ends_unit, Hn. cbn [remove_spans].
    now rewrite skipn_all.
  - destruct rounds as [|rounds]; [lia|].
    destruct (nth_error s i) as [c|] eqn:Ec;
      [|apply nth_error_None in Ec; lia].
    rewrite (skipn_head s i c Ec).
    assert (En : S (length s) - i = S (length s - i)) by lia.
    assert (Hstep : forall f,
              exec s r i = Some f ->
              matches_from s r (S rounds) i
              = f :: matches_from s r rounds
                       (if m_begin f <? m_end f then m_end f else S (m_end f))).
    { intros f Ef. cbn [matches_from]. now rewrite Ef. }
    destruct (c =? c0)%N eqn:EC.
    + assert (Ex : exec s r i
                   = Some {| m_begin := i; m_end := S i; m_group := None |}).
      { unfold exec. rewrite En. cbn [exec_from].
        now rewrite ends_unit, Ec, EC. }
      rewrite (Hstep _ Ex). cbn [m_begin m_end remove_spans].
      replace (i <? S i) with true by (symmetry; apply Nat.ltb_lt; lia).
      rewrite substring_refl.
      cbn [app filter]. unfold keep at 1. rewrite EC. cbn [negb].
      apply IH; lia.
    + assert (Ex : exec s r i = exec s r (S i)).
      { unfold exec. rewrite En. cbn [exec_from].
        rewrite ends_unit, Ec, EC. reflexivity. }
      assert (Em : matches_from s r (S rounds) i
                   = matches_from s r (S rounds) (S i)).
      { cbn [matches_from]. now rewrite Ex. }
      rewrite Em. cbn [filter]. unfold keep at 1. rewrite EC. cbn [negb].
      rewrite <- (IH (S i) (S rounds)) by lia.
      destruct (matches_from s r (S rounds) (S i)) as [|f l] eqn:El.
      * cbn [remove_spans]. apply (skipn_head s i c Ec).
      * assert (Hb : S i <= m_begin f).
        { cbn [matches_from] in El.
          destruct (exec s r (S i)) as [g|] eqn:Eg; [|discriminate].
          inversion El; subst.
          now destruct (exec_sound s r (S i) _ Eg) as (Hb & _). }
        cbn [remove_spans].
        rewrite (substring_head s i (m_begin f) c Ec) by lia.
        reflexivity.
Qed.

(** Replacing every [c0] by the empty string leaves the other code
    units. *)
Lemma remove_unit : replace_all s r = filter keep s.
Proof.
  unfold replace_all, matches.
  apply (remove_unit_from (length s) 0 (S (length s))); lia.
Qed.
End RemoveUnit.

Lemma substring_within (s : str) (b e : nat) :
  b <= e -> e <= length s ->
  s = firstn b s ++ substring s b e ++ skipn e s.
Proof.
  intros Hb He. unfold substring.
  rewrite <- (firstn_skipn b s) at 1. f_equal.
  rewrite <- (firstn_skipn (e - b) (skipn b s)) at 1. f_equal.
  rewrite skipn_skipn. f_equal. lia.
Qed.

Lemma quotedSubstrings_in_quotes (c m : str) :
  In m (quotedSubstrings c) -> exists w, in_quotes c m w.
Proof.
  unfold quotedSubstrings, matchAll, matches. intros H.
  apply in_map_iff in H. destruct H as (f & <- & Hf).
  destruct (matches_from_sound c quotedPattern _ _ _ Hf)
    as (Hb & He & Hs & _).
  assert (Hc := substring_within c (m_begin f) (m_end f) Hb He).
  fold (matched c f) in Hc. revert Hs Hc.
  generalize (matched c f). intros m Hs Hc.
  unfold quotedPattern, quote, lit, one, plus in Hs.
  cbn [seqs fold_right shape] in Hs.
  destruct Hs as (w1 & w2 & -> & (a1 & b1 & -> & (q1 & -> & Hq1) & ->)
                  & (w & w4 & -> & (ws & -> & Hws & Hlen)
                     & (a2 & b2 & -> & (q2 & -> & Hq2) & ->))).
  rewrite in_class_one in Hq1, Hq2.
  apply N.eqb_eq in Hq1, Hq2. subst q1 q2.
  assert (Hw : Forall (fun x => x <> 34%N) (concat ws)).
  { clear Hlen Hc. induction Hws as [|x ws (y & -> & Hy) _ IH];
      [constructor|].
    cbn. constructor; [|exact IH]. intros ->. discriminate Hy. }
  exists (concat ws). unfold in_quotes, quote.
  split; [now rewrite !app_nil_r|]. split; [|split].
  - destruct ws as [|x ws]; [cbn in Hlen; lia|].
    inversion Hws as [|? ? (y & -> & _) _]; subst. discriminate.
  - intros Hin. rewrite Forall_forall in Hw. now apply (Hw _ Hin).
  - exists (firstn (m_begin f) c), (skipn (m_end f) c).
    rewrite Hc at 1. rewrite !app_nil_r. now rewrite <- !app_assoc.
Qed.

Lemma filter_id (A : Type) (f : A -> bool) (l : list A) :
  Forall (fun x => f x = true) l -> filter f l = l.
Proof.
  induction 1 as [|x l Hx _ IH]; [reflexivity|].
  cbn. now rewrite Hx, IH.
Qed.

Lemma unquote_in_quotes (c m w : str) :
  in_quotes c m w -> replace_all m (lit quote) = w.
Proof.
  intros (-> & _ & Hw & _). unfold quote at 3. rewrite remove_unit.
  unfold quote. cbn [app filter N.eqb Pos.eqb negb].
  rewrite filter_app. cbn [filter N.eqb Pos.eqb negb]. rewrite app_nil_r.
  apply filter_id. apply Forall_forall. intros x Hx.
  apply negb_true_iff, N.eqb_neq. intros ->. now apply Hw.
Qed.

Lemma unquoted_all (c : str) (ms : list str) :
  (forall m, In m ms -> exists w, in_quotes c m w) ->
  let out := filter (fun tag => 0 <? length tag)
                    (map (fun m => replace_all m (lit quote)) ms) in
  map (fun tag => quote ++ tag ++ quote) out = ms
  /\ Forall (fun tag =>
               tag <> [] /\ ~ In 34%N tag
               /\ exists before after,
                    c = before ++ quote ++ tag ++ quote ++ after) out.
Proof.
  induction ms as [|m ms IH]; intros H out; subst out.
  - split; [reflexivity | constructor].
  - destruct (H m (or_introl eq_refl)) as (w & Hw).
    destruct (IH (fun x Hx => H x (or_intror Hx))) as (IH1 & IH2).
    cbv zeta in IH1, IH2. cbn [map filter].
    rewrite (unquote_in_quotes c m w Hw).
    destruct Hw as (-> & Hne & Hq & Hc).
    destruct w as [|x w]; [now destruct Hne|].
    cbn [length Nat.ltb Nat.leb map]. split.
    + f_equal. exact IH1.
    + constructor; [|exact IH2]. repeat split; assumption.
Qed.

Section RefinerResults.
Variable fetch : request -> completion response.
Variable JSON_parse : option json -> completion json.
Variable settings : AIServiceSettings.
Variable tags : list str.
Variable noteContent : str.

Lemma refineTags_content (r : response) (data : json) (content : option json) :
  useAI settings = true -> openaiApiKey settings <> [] ->
  fetch (build_request settings tags noteContent) = Normal r ->
  ok r = true -> json_body r = Normal data ->
  message_content data = Normal content ->
  refineTags fetch JSON_parse settings tags noteContent
  = try_catch (parse_tags JSON_parse tags content) (fun _ => Normal tags).
Proof.
  intros Hu Hk Hf Ho Hj Hm. unfold refineTags. rewrite Hu.
  destruct (openaiApiKey settings) as [|k key]; [now destruct Hk|].
  cbn [negb orb]. rewrite Hf. cbn [bind]. rewrite Ho. cbn [negb].
  rewrite Hj. cbn [bind]. rewrite Hm. reflexivity.
Qed.

(** X18: when the response is a success whose message content parses as
    a JSON array, the refiner returns the elements of the array that are
    non-empty strings, in their order, and nothing else: neither the tags
    it was given nor the limit of the extractor play a part. *)
Theorem refineTags_array (r : response) (data : json) (content : option json)
    (l : list json) :
  useAI settings = true -> openaiApiKey settings <> [] ->
  fetch (build_request settings tags noteContent) = Normal r ->
  ok r = true -> json_body r = Normal data ->
  message_content data = Normal content ->
  JSON_parse content = Normal (JArray l) ->
  exists out,
    refineTags fetch JSON_parse settings tags noteContent = Normal out
    /\ map JString out
       = filter (fun tag => match tag with
                            | JString (_ :: _) => true
                            | _ => false
                            end) l.
Proof.
  intros Hu Hk Hf Ho Hj Hm Hp.
  rewrite (refineTags_content r data content Hu Hk Hf Ho Hj Hm).
  unfold parse_tags. rewrite Hp. cbn [try_catch]. eexists.
  split; [reflexivity|]. clear.
  induction l as [|tag l IH]; [reflexivity|].
  cbn [flat_map filter].
  destruct tag as [ | | | [|x s] | | ]; cbn;
    first [exact IH | f_equal; exact IH].
Qed.

(** X19: when the message content is a string that does not parse but
    holds quoted texts, the refiner returns the texts between the double
    quotes, one for each match of the pattern in the content and in their
    order; none is empty, none holds a double quote. *)
Theorem refineTags_quoted (r : response) (data : json) (c : str)
    (parseError : exception) :
  useAI settings = true -> openaiApiKey settings <> [] ->
  fetch (build_request settings tags noteContent) = Normal r ->
  ok r = true -> json_body r = Normal data ->
  message_content data = Normal (Some (JString c)) ->
  JSON_parse (Some (JString c)) = Throw parseError ->
  quotedSubstrings c <> [] ->
  exists out,
    refineTags fetch JSON_parse settings tags noteContent = Normal out
    /\ map (fun tag => quote ++ tag ++ quote) out = quotedSubstrings c
    /\ Forall (fun tag =>
                 tag <> [] /\ ~ In 34%N tag
                 /\ exists before after,
                      c = before ++ quote ++ tag ++ quote ++ after) out.
Proof.
  intros Hu Hk Hf Ho Hj Hm Hp Hq.
  rewrite (refineTags_content r data _ Hu Hk Hf Ho Hj Hm).
  unfold parse_tags. rewrite Hp.
  destruct (unquoted_all c (quotedSubstrings c)
              (quotedSubstrings_in_quotes c)) as (H1 & H2).
  cbv zeta in H1, H2.
  destruct (quotedSubstrings c) as [|m ms] eqn:E; [now destruct Hq|].
  cbn [try_catch]. eexists. split; [reflexivity|]. split; assumption.
Qed.

(** X20: the refiner never rejects, whatever the network returns, and an
    empty tag can only come from the tags it was given: what it returns
    is these tags as they are, or tags none of which is empty. *)
Theorem refineTags_no_empty_tag :
  exists out,
    refineTags fetch JSON_parse settings tags noteContent = Normal out
    /\ (out = tags \/ Forall (fun tag => tag <> []) out).
Proof.
  unfold refineTags.
  destruct (negb (useAI settings) || _); [eauto|].
  destruct (fetch _) as [r | e]; cbn [bind try_catch]; [|eauto].
  destruct (negb (ok r)); cbn [try_catch]; [eauto|].
  destruct (json_body r) as [data | e]; cbn [bind try_catch]; [|eauto].
  destruct (message_content data) as [content | e]; cbn [bind try_catch];
    [|eauto].
  unfold parse_tags.
  destruct (JSON_parse content) as [v | e].
  - destruct v; cbn [try_catch]; eauto.
    eexists. split; [reflexivity|]. right.
    induction l as [|tag l IH]; [constructor|].
    cbn [flat_map]. apply Forall_app. split; [|exact IH].
    destruct tag as [ | | | [|x s] | | ]; cbn; constructor;
      [discriminate | constructor].
  - destruct content as [[ | | | c | | ]|]; cbn [try_catch]; eauto.
    destruct (quotedSubstrings c) as [|m ms]; cbn [try_catch]; [eauto|].
    eexists. split; [reflexivity|]. right.
    apply Forall_forall. intros x Hx. apply filter_In in Hx.
    destruct Hx as (_ & Hx). intros ->. discriminate Hx.
Qed.
End RefinerResults.


(** X18 at a concrete input: an array with a number and an empty
    string among its elements. *)
Lemma refineTags_array_witness :
  let l := [JString (u "alpha"); JNumber 3 0; JString []; JString (u "beta")] in
  let content := Some (JString (u "(an array)")) in
  let data := JObject [(u "choices", JArray [JObject
                [(u "message", JObject [(u "content", JString (u "(an array)"))])]])] in
  let r := {| ok := true; statusText := u "OK"; json_body := Normal data |} in
  let fetch := fun _ : request => Normal r in
  let JSON_parse := fun _ : option json => Normal (JArray l) in
  let settings := {| openaiApiKey := u "sk-test"; model := u "gpt-4";
                     useAI := true |} in
  let tags := [u "NASA"] in
  refineTags fetch JSON_parse settings tags (u "note")
  = Normal [u "alpha"; u "beta"].
Proof.
  intros l content data r fetch JSON_parse settings tags.
  destruct (refineTags_array fetch JSON_parse settings tags (u "note")
              r data content l eq_refl ltac:(discriminate) eq_refl eq_refl
              eq_refl eq_refl eq_refl) as (out & H1 & H2).
  rewrite H1. f_equal.
  assert (E : map JString out = map JString [u "alpha"; u "beta"])
    by exact H2.
  clear H1 H2. revert E. generalize [u "alpha"; u "beta"].
  induction out as [|x out IH]; intros [|y k] E; try discriminate;
    [reflexivity|].
  cbn [map] in E. injection E as -> E. f_equal. now apply IH.
Defined.

(** X19 at a concrete input: a content that is not JSON and holds two
    quoted texts. *)
Lemma refineTags_quoted_witness :
  let c := u "Tags: " ++ quote ++ u "alpha" ++ quote ++ u ", "
           ++ quote ++ u "beta" ++ quote in
  let data := JObject [(u "choices", JArray [JObject
                [(u "message", JObject [(u "content", JString c)])]])] in
  let r := {| ok := true; statusText := u "OK"; json_body := Normal data |} in
  let fetch := fun _ : request => Normal r in
  let JSON_parse := fun _ : option json => @Throw json SyntaxError in
  let settings := {| openaiApiKey := u "sk-test"; model := u "gpt-4";
                     useAI := true |} in
  let tags := [u "NASA"] in
  quotedSubstrings c = [quote ++ u "alpha" ++ quote; quote ++ u "beta" ++ quote]
  /\ exists out,
       refineTags fetch JSON_parse settings tags (u "note") = Normal out
       /\ map (fun tag => quote ++ tag ++ quote) out = quotedSubstrings c
       /\ Forall (fun tag =>
                    tag <> [] /\ ~ In 34%N tag
                    /\ exists before after,
                         c = before ++ quote ++ tag ++ quote ++ after) out.
Proof.
  intros c data r fetch JSON_parse settings tags.
  assert (Q : quotedSubstrings c
              = [quote ++ u "alpha" ++ quote; quote ++ u "beta" ++ quote])
    by (vm_compute; reflexivity).
  split; [exact Q|].
  assert (Hq : quotedSubstrings c <> []) by (rewrite Q; discriminate).
  exact (refineTags_quoted fetch JSON_parse settings tags (u "note")
           r data c SyntaxError eq_refl ltac:(discriminate) eq_refl eq_refl
           eq_refl eq_refl eq_refl Hq).
Defined.


(* ================================================================= *)
(** * Reading back what was written *)

Lemma fence_free_skip (w : str) :
  fence_free w = true ->
  forall k X p, k < length w ->
    startsWith (skipn k (w ++ 10%N :: X)) (10%N :: 45%N :: p) = false.
Proof.
  induction w as [|c t IH]; intros Hw k X p Hk; [cbn in Hk; lia|].
  cbn [fence_free] in Hw. apply andb_true_iff in Hw. destruct Hw as (Hc & Ht).
  destruct k as [|k].
  - cbn [skipn app startsWith].
    destruct (N.eqb_spec 10 c) as [<- | Hn]; [|reflexivity].
    cbn [andb]. destruct t as [|d t'].
    + reflexivity.
    + cbn [app startsWith]. cbn [N.eqb Pos.eqb andb] in Hc.
      apply negb_true_iff in Hc. rewrite N.eqb_sym, Hc. reflexivity.
  - cbn [skipn app]. apply IH; [exact Ht | cbn in Hk; lia].
Qed.

Lemma fence_free_app (a b : str) :
  fence_free a = true -> fence_free b = true ->
  match b with 45%N :: _ => False | _ => True end ->
  fence_free (a ++ b) = true.
Proof.
  intros Ha Hb Hh. induction a as [|c t IH]; [exact Hb|].
  cbn [fence_free] in Ha. apply andb_true_iff in Ha. destruct Ha as (Hc & Ht).
  cbn [app fence_free]. rewrite (IH Ht), andb_true_r.
  destruct t as [|d t']; [|exact Hc].
  cbn [app]. destruct b as [|e b']; [exact Hc|].
  destruct (N.eqb_spec e 45) as [-> | Hn]; [destruct Hh|].
  now rewrite andb_false_r.
Qed.

Lemma yamlItems_fence_free (tags : list str) :
  Forall (fun tag => fence_free tag = true) tags ->
  fence_free (yamlItems tags) = true
  /\ (yamlItems tags = [] \/ exists rest, yamlItems tags = 32%N :: rest).
Proof.
  unfold yamlItems. induction 1 as [|tag tags Ht _ (IH1 & IH2)].
  - split; [reflexivity | now left].
  - assert (Hi : fence_free (u "  - " ++ tag) = true) by exact Ht.
    destruct tags as [|tag' tags].
    + split; [exact Hi | right; eexists; reflexivity].
    + split; [|right; eexists; reflexivity].
      change (join newline (map (fun t => u "  - " ++ t) (tag :: tag' :: tags)))
        with ((u "  - " ++ tag)
              ++ 10%N :: join newline
                           (map (fun t => u "  - " ++ t) (tag' :: tags))).
      apply fence_free_app; [exact Hi | | exact I].
      destruct IH2 as [E | (rest & E)].
      * exfalso. revert E. destruct tags; discriminate.
      * rewrite E in *. cbn [fence_free] in *. exact IH1.
Qed.

Lemma tagsBlock_fence_free (tags : list str) :
  Forall (fun tag => fence_free tag = true) tags ->
  fence_free (tagsBlock tags) = true.
Proof.
  intros H. destruct (yamlItems_fence_free tags H) as (H1 & H2).
  unfold tagsBlock.
  change (fence_free (10%N :: yamlItems tags) = true).
  destruct H2 as [E | (rest & E)]; rewrite E in *; [reflexivity|].
  cbn [fence_free] in *. exact H1.
Qed.

(** The lazy quantifier over any code unit stops at every position from
    the current one on, the nearest first. *)
Lemma lazy_any (s : str) (g : option (nat * nat)) :
  forall room i, i <= length s -> length s - i < room ->
    lazy_ends (ends s (Chr any)) room 0 None (i, g)
    = map (fun j => (j, g)) (seq i (S (length s - i))).
Proof.
  induction room as [|room IH]; intros i Hi Hr; [lia|].
  cbn [lazy_ends Nat.eqb app ends fst snd pred option_map].
  destruct (nth_error s i) as [c|] eqn:Ec.
  - assert (Hl : i < length s) by (apply nth_error_Some; congruence).
    replace (in_class any c) with true by reflexivity.
    cbn [flat_map fst]. rewrite app_nil_r.
    replace (i <? S i) with true by (symmetry; apply Nat.ltb_lt; lia).
    rewrite IH by lia.
    replace (S (length s - i)) with (S (S (length s - S i))) by lia.
    reflexivity.
  - apply nth_error_None in Ec.
    replace (length s - i) with 0 by lia. reflexivity.
Qed.

Lemma first_hit (A : Type) (f : nat -> list A) (x : A) :
  forall k a n, k < n ->
    (forall j, a <= j < a + k -> f j = []) -> f (a + k) = [x] ->
    exists rest, flat_map f (seq a n) = x :: rest.
Proof.
  induction k as [|k IH]; intros a n Hk Hm Hx.
  - destruct n as [|n]; [lia|]. cbn [seq flat_map].
    rewrite Nat.add_0_r in Hx. rewrite Hx. eexists. reflexivity.
  - destruct n as [|n]; [lia|]. cbn [seq flat_map].
    rewrite (Hm a) by lia. cbn [app].
    apply (IH (S a) n); [lia | |].
    + intros j Hj. apply Hm. lia.
    + rewrite <- Hx. f_equal. lia.
Qed.

(** The match of the frontmatter pattern in a text that begins with a
    fenced block. *)
Lemma frontmatter_found (mid rest : str) :
  fence_free mid = true ->
  pexec (fenced mid ++ rest) frontmatterRegex 0
  = Some {| m_begin := 0; m_end := 4 + length mid + 5;
            m_group := Some (4, 4 + length mid) |}.
Proof.
  intros Hm.
  set (s := fenced mid ++ rest).
  assert (Es : s = u "---" ++ newline
                   ++ (mid ++ 10%N :: u "---" ++ newline ++ rest)).
  { unfold s, fenced. now rewrite <- !app_assoc. }
  assert (Hlen : length s = 4 + (length mid + (5 + length rest))).
  { rewrite Es. change (u "---" ++ newline ++ ?x) with
      (45%N :: 45%N :: 45%N :: 10%N :: x).
    cbn [length]. rewrite length_app. cbn [length].
    do 4 f_equal. change (length (u "---" ++ newline ++ rest))
      with (4 + length rest). lia. }
  assert (Hskip : forall k, skipn (4 + k) s
                            = skipn k (mid ++ 10%N :: u "---" ++ newline ++ rest)).
  { intros k. rewrite Es. reflexivity. }
  unfold pexec. rewrite Nat.sub_0_r. cbn [pexec_from].
  unfold frontmatterRegex. cbn [thens pends fst snd Nat.eqb flat_map].
  rewrite app_nil_r, ends_lit. cbn [fst snd skipn].
  replace (startsWith s (u "---" ++ newline)) with true
    by (symmetry; apply startsWith_prefix; eexists; exact Es).
  cbn [flat_map]. rewrite app_nil_r. cbn [fst snd].
  change (0 + length (u "---" ++ newline)) with 4.
  rewrite lazy_any by lia. rewrite map_map. cbn [fst].
  rewrite flat_map_concat_map, map_map, <- flat_map_concat_map.
  destruct (first_hit _
              (fun j => ends s (lit (newline ++ u "---" ++ newline))
                             (j, Some (4, j)))
              (4 + length mid + 5, Some (4, 4 + length mid))
              (length mid) 4 (S (length s - 4)))
    as (tl & Etl).
  - lia.
  - intros j Hj. rewrite ends_lit. cbn [fst].
    replace j with (4 + (j - 4)) by lia. rewrite Hskip.
    change (newline ++ u "---" ++ newline)
      with (10%N :: 45%N :: u "--" ++ newline).
    rewrite (fence_free_skip mid Hm) by lia. reflexivity.
  - rewrite ends_lit. cbn [fst snd]. rewrite Hskip.
    rewrite skipn_app, skipn_all, Nat.sub_diag. cbn [skipn app].
    replace (startsWith _ _) with true; [reflexivity|].
    symmetry. apply startsWith_prefix. exists rest. reflexivity.
  - rewrite Etl. reflexivity.
Qed.

(** What [replace] with the frontmatter pattern makes of a text that
    begins with a fenced block: the block goes. *)
Lemma fenced_removed (mid rest : str) :
  fence_free mid = true ->
  replace (fenced mid ++ rest) frontmatterRegex [] = rest.
Proof.
  intros Hm. unfold replace. rewrite (frontmatter_found mid rest Hm).
  cbn [m_begin m_end firstn]. rewrite substitution_nil. cbn [app].
  unfold fenced. rewrite <- !app_assoc.
  change (u "---" ++ newline ++ ?x) with (45%N :: 45%N :: 45%N :: 10%N :: x)
    at 1.
  replace (4 + length mid + 5) with (4 + (length mid + 5)) by lia.
  cbn [skipn Nat.add]. rewrite skipn_app.
  rewrite (skipn_all2 mid) by lia.
  replace (length mid + 5 - length mid) with 5 by lia. reflexivity.
Qed.

Lemma newContent_read_back (overwriteExistingTags : bool)
    (content : str) (tags : list str) :
  pexec content frontmatterRegex 0 = None ->
  Forall (fun tag => fence_free tag = true) tags ->
  extractBodyText (newContent overwriteExistingTags content tags)
  = extractBodyText content.
Proof.
  intros Hc Ht. unfold newContent. rewrite Hc.
  unfold extractBodyText. cbv zeta.
  rewrite (fenced_removed (tagsBlock tags) content
             (tagsBlock_fence_free tags Ht)).
  unfold replace. rewrite Hc. reflexivity.
Qed.

(** A text without hyphens has no line that could be taken for a fence;
    a keyword of the extractor is such a text. *)
Lemma no_hyphen_fence_free (w : str) :
  Forall (fun c => c <> 45%N) w -> fence_free w = true.
Proof.
  induction 1 as [|c t Hc Ht IH]; [reflexivity|].
  cbn [fence_free]. rewrite IH, andb_true_r.
  destruct t as [|d t']; [now rewrite andb_false_r|].
  inversion Ht as [|? ? Hd _]; subst.
  apply N.eqb_neq in Hd. now rewrite Hd, andb_false_r.
Qed.

Lemma tag_char_fence_free (w : str) : Forall tag_char w -> fence_free w = true.
Proof.
  intros H. apply no_hyphen_fence_free.
  eapply Forall_impl; [|exact H].
  intros c Hc ->. vm_compute in Hc. discriminate.
Qed.

(** X21: what is written to a note without frontmatter reads back as the
    same body: when no tag holds a line feed followed by a hyphen, the
    body text of the new content is the body text of the note, so that
    the tags written do not count as text the next time. *)
Theorem extractBodyText_newContent (overwriteExistingTags : bool)
    (content : str) (tags : list str) :
  pexec content frontmatterRegex 0 = None ->
  Forall (fun tag => fence_free tag = true) tags ->
  extractBodyText (newContent overwriteExistingTags content tags)
  = extractBodyText content.
Proof.
  exact (newContent_read_back overwriteExistingTags content tags).
Qed.

(** X21 at a concrete input. *)
Lemma extractBodyText_newContent_witness :
  let content := u "# Plan" ++ newline ++ u "NASA and **ESA** meet." in
  let tags := [u "NASA"; u "ESA"] in
  pexec content frontmatterRegex 0 = None
  /\ Forall (fun tag => fence_free tag = true) tags
  /\ extractBodyText (newContent false content tags) = extractBodyText content.
Proof.
  intros content tags.
  assert (Hc : pexec content frontmatterRegex 0 = None)
    by (vm_compute; reflexivity).
  assert (Ht : Forall (fun tag => fence_free tag = true) tags)
    by (repeat constructor).
  split; [exact Hc|]. split; [exact Ht|].
  exact (extractBodyText_newContent false content tags Hc Ht).
Defined.


(** X22: for a note without frontmatter, the keywords of the extractor
    can always be written and read back: the body text of the content
    written with them is the body text of the note, and extracting from
    it again gives the same keywords. *)
Theorem keywords_read_back (this : KeywordExtractor.t)
    (overwriteExistingTags : bool) (content : str) (title : option str) :
  pexec content frontmatterRegex 0 = None ->
  let tags := extractKeywords this (extractBodyText content) title in
  let written := newContent overwriteExistingTags content tags in
  extractBodyText written = extractBodyText content
  /\ extractKeywords this (extractBodyText written) title = tags.
Proof.
  intros Hc tags written.
  assert (E : extractBodyText written = extractBodyText content).
  { apply newContent_read_back; [exact Hc|].
    apply Forall_forall. intros x H. apply tag_char_fence_free.
    unfold tags, extractKeywords in H.
    apply getTopKeywords_incl, countFrequency_keys_incl in H.
    exact (weighted_tag_chars this _ title x H). }
  split; [exact E|]. now rewrite E.
Qed.

(** X22 at a concrete input. *)
Lemma keywords_read_back_witness :
  let content := u "# Plan" ++ newline ++ u "NASA and **ESA** meet NASA." in
  let this := init 10 in
  let title := Some (u "Plan") in
  let tags := extractKeywords this (extractBodyText content) title in
  let written := newContent false content tags in
  pexec content frontmatterRegex 0 = None
  /\ extractBodyText written = extractBodyText content
  /\ extractKeywords this (extractBodyText written) title = tags.
Proof.
  intros content this title tags written.
  assert (Hc : pexec content frontmatterRegex 0 = None)
    by (vm_compute; reflexivity).
  split; [exact Hc|].
  exact (keywords_read_back this false content title Hc).
Defined.
